(** * multipart-uploader: the client-side resumable transfer orchestrator

    A shallow embedding of [src/client/util.ts] and [src/client/index.ts]:
    the part planner, the promise throttle, the localStorage helpers, the
    progress aggregator and the upload flows of [MultipartUploader].

    Byte counts, part numbers and percentages are integers ([Z], [N],
    [positive]).  Where the code divides or multiplies by a number that is
    not an integer, the result is a double: its value is kept as a rational
    ([Q]) and every operation rounds to the nearest double ([Double]). *)

From Stdlib Require Import ZArith QArith Qround Qminmax Qpower Lia Lqa String Ascii List Sorted.
From stdpp Require Import gmap strings list fin_maps sorting pretty.
Import ListNotations.
Open Scope Z_scope.

(** ** Values shared by client and server ([src/shared/index.ts]) *)

(** [UploadPartResponse].  The [ETag] is [string] in the type, but
    [xhr.getResponseHeader] returns [null] when the header is not exposed, and
    [cleanUpETags] exists because of that: [None] is that [null]. *)
Record UploadPartResponse := {
  ETag : option string;
  PartNumber : Z
}.

(** [CreateMultipartUploadResponse], as parsed from the response body: either
    field may be missing. *)
Record CreateMultipartUploadResponse := {
  resp_uploadId : option string;
  resp_s3Filename : option string
}.

(** [File]: only the attributes the uploader reads. *)
Module File.
Record File := {
  name : string;
  size : N;
  type : string
}.
End File.
Abbreviation File := File.File.

(** [MultipartUploaderOptions] after the merge with [defaultOptions].  The
    part planner divides by [maxNumParts] and by the part size, so both
    options are kept positive, as the option documentation has them. *)
Record Options := {
  concurrencyLimit : nat;
  partMinSizeBytes : positive;
  maxNumParts : positive
}.

Definition ONE_MB_IN_BYTES : positive := 1048576.

Definition defaultOptions : Options := {|
  concurrencyLimit := 6;
  partMinSizeBytes := 10 * ONE_MB_IN_BYTES;
  maxNumParts := 96
|}.

(** JavaScript truthiness of an optional string: [undefined], [null] and the
    empty string are falsy. *)
Definition truthy_str (s : option string) : bool :=
  match s with
  | Some EmptyString => false
  | Some _ => true
  | None => false
  end.

(** [Math.round]: the nearest integer, halves rounded up. *)
Definition Math_round (x : Q) : Z := Qfloor (x + (1 # 2))%Q.

Definition Math_floor (x : Q) : Z := Qfloor x.

Definition Math_ceil (x : Q) : Z := Qceiling x.

(** ** Numbers (IEEE 754 binary64)

    Every number of the code is a double, and every arithmetic operation
    gives the double nearest to the exact result, the one with the even
    significand when two are equally near.  The model keeps the value of a
    double as a rational and rounds each result to 53 significant bits.
    The exponent of a double has a range, which the model leaves out: it
    follows the code as long as no result reaches [2^1024] or falls below
    [2^-1022], which takes an operand beyond [2^1000] here. *)
Module Double.

(** the nearest integer, the even one of two that are equally near *)
Definition round_half_even (x : Q) : Z :=
  let n := Qfloor x in
  match (x - inject_Z n ?= 1 # 2)%Q with
  | Lt => n
  | Gt => n + 1
  | Eq => if Z.even n then n else n + 1
  end.

(** the exponent [e] of a positive number: [2^e <= x < 2^(e+1)] *)
Definition exponent (x : Q) : Z :=
  let e := Z.log2 (Qnum x) - Z.log2 (Z.pos (Qden x)) in
  if Qle_bool (2 ^ e) x then e else e - 1.

(** a positive number rounded to a significand of 53 bits *)
Definition nearest_positive (x : Q) : Q :=
  let ulp := (2 ^ (exponent x - 52))%Q in
  Qred (inject_Z (round_half_even (x / ulp)) * ulp).

(** the double nearest to [x] *)
Definition nearest (x : Q) : Q :=
  match Qnum x with
  | Z0 => 0%Q
  | Zpos _ => nearest_positive x
  | Zneg _ => (- nearest_positive (- x))%Q
  end.

(** [x + y], [x * y] and [x / y] of two doubles *)
Definition add (x y : Q) : Q := nearest (x + y).

Definition mul (x y : Q) : Q := nearest (x * y).

Definition div (x y : Q) : Q := nearest (x / y).

(** [Number.MAX_SAFE_INTEGER] *)
Definition MAX_SAFE_INTEGER : Z := 2 ^ 53 - 1.

End Double.

(** ** Part planning ([uploadMultipart], lines 458-460) *)

Module Planner.

(** [this.options.partMinSizeBytes + file.size / this.options.maxNumParts]:
    a division, then an addition *)
Definition partSizeInBytes (o : Options) (f : File) : Q :=
  Double.add (inject_Z (Z.pos (partMinSizeBytes o)))
    (Double.div (inject_Z (Z.of_N (File.size f))) (inject_Z (Z.pos (maxNumParts o)))).

(** [Math.ceil(file.size / partSizeInBytes)] *)
Definition numParts (o : Options) (f : File) : Z :=
  Math_ceil (Double.div (inject_Z (Z.of_N (File.size f))) (partSizeInBytes o f)).

(** The two formulas as the specification reads them, in exact
    arithmetic. *)
Definition exact_partSizeInBytes (o : Options) (f : File) : Q :=
  (inject_Z (Z.pos (partMinSizeBytes o))
   + inject_Z (Z.of_N (File.size f)) / inject_Z (Z.pos (maxNumParts o)))%Q.

Definition exact_numParts (o : Options) (f : File) : Z :=
  Math_ceil (inject_Z (Z.of_N (File.size f)) / exact_partSizeInBytes o f)%Q.

End Planner.

(** ** The bytes of a part ([loopMultipartParts], lines 289-291) *)

Module Slicing.

(** The conversion of a number to [[Clamp] long long], the type of both
    arguments of [Blob.slice(start, end)] (Web IDL, "ConvertToInt"): the
    number is clamped to the safe integers and rounded to the nearest
    integer, to the even one when it lies halfway between two. *)
Definition Clamp_long_long (x : Q) : Z :=
  Double.round_half_even
    (Qmin (Qmax x (inject_Z (- Double.MAX_SAFE_INTEGER))) (inject_Z Double.MAX_SAFE_INTEGER)).

(** A [Blob] cut from a file: where its bytes begin in the file and how
    many they are. *)
Record Blob := {
  offset : Z;
  span : Z
}.

(** File API, "slice blob": a negative position counts from the end, and
    every position is brought into the blob. *)
Definition relative (originalSize position : Z) : Z :=
  if position <? 0 then Z.max (originalSize + position) 0
  else Z.min position originalSize.

(** [file.slice(start, end)] on a file of [originalSize] bytes *)
Definition slice (originalSize : Z) (start end_ : Q) : Blob :=
  let relativeStart := relative originalSize (Clamp_long_long start) in
  let relativeEnd := relative originalSize (Clamp_long_long end_) in
  {| offset := relativeStart; span := Z.max (relativeEnd - relativeStart) 0 |}.

(** [const start = partNumber * partSizeInBytes], with the loop's 0-based
    [partNumber]: a product of two doubles *)
Definition start (partSizeInBytes : Q) (partNumber : Z) : Q :=
  Double.mul (inject_Z partNumber) partSizeInBytes.

(** [const end = Math.min(start + partSizeInBytes, file.size)]: the sum is
    taken from the rounded [start] and rounded again *)
Definition end_ (partSizeInBytes : Q) (file : File) (partNumber : Z) : Q :=
  Qmin (Double.add (start partSizeInBytes partNumber) partSizeInBytes)
       (inject_Z (Z.of_N (File.size file))).

(** [const blob = file.slice(start, end)] *)
Definition blob (partSizeInBytes : Q) (file : File) (partNumber : Z) : Blob :=
  slice (Z.of_N (File.size file))
    (start partSizeInBytes partNumber) (end_ partSizeInBytes file partNumber).

End Slicing.

(** ** The promise throttle ([promiseFnThrottle], [src/client/util.ts]) *)

(** The code runs on one thread: a caller of [promiseFnThrottle] runs until
    its [await], and the reactions to a settled promise run to completion, in
    the order they were registered, before the next network or XHR callback.
    The model takes one such callback as one step.  Between steps every
    suspended caller is waiting on [Promise.race] over the current contents of
    [executing]: callers suspend only while the set is full, the set changes
    only when a member fulfils, and that wakes every suspended caller, who
    either launches or races again over the set as it then is. *)
Module Throttle.
Section Tasks.
Context {K : Type} `{EqDecision K}.

Record state := {
  (** the [executing] set, in insertion order *)
  executing : list K;
  (** members of [executing] whose promise has rejected; nothing deletes them *)
  rejected : list K;
  (** callers suspended at [await Promise.race(executing)], oldest first *)
  waiting : list K;
  (** factories that were called ([fn()]), in call order *)
  invoked : list K;
  (** callers whose [await] threw: their factory is never called *)
  abandoned : list K
}.

Definition empty : state :=
  {| executing := []; rejected := []; waiting := []; invoked := []; abandoned := [] |}.

(** members of [executing] that are still pending *)
Definition outstanding (s : state) : list K :=
  filter (λ k, k ∉ rejected s) (executing s).

Inductive verdict := Launched | Suspended | Thrown.

(** One pass of a caller [k] through
    [while (executing.size >= concurrencyLimit) await Promise.race(executing)]
    and, when the loop exits, [fn()] and [executing.add(promise)].
    A race over a set that holds a rejected promise rejects, and the
    [await] throws; a race over pending promises (or over no promise at
    all) leaves the caller suspended. *)
Definition enter (concurrencyLimit : nat) (k : K) (s : state) : state * verdict :=
  if (concurrencyLimit <=? length (executing s))%nat then
    if bool_decide (Exists (λ p, p ∈ rejected s) (executing s)) then
      ({| executing := executing s; rejected := rejected s; waiting := waiting s;
          invoked := invoked s; abandoned := abandoned s ++ [k] |}, Thrown)
    else
      ({| executing := executing s; rejected := rejected s; waiting := waiting s ++ [k];
          invoked := invoked s; abandoned := abandoned s |}, Suspended)
  else
    ({| executing := executing s ++ [k]; rejected := rejected s; waiting := waiting s;
        invoked := invoked s ++ [k]; abandoned := abandoned s |}, Launched).

(** The suspended callers resume in the order they suspended; each takes
    another pass through the loop.  Returns the callers that launched. *)
Fixpoint wake (concurrencyLimit : nat) (ws : list K) (s : state) : state * list K :=
  match ws with
  | [] => (s, [])
  | k :: ws' =>
      let '(s1, v) := enter concurrencyLimit k s in
      let '(s2, ls) := wake concurrencyLimit ws' s1 in
      (s2, match v with Launched => k :: ls | _ => ls end)
  end.

(** The promise of [t] fulfils: [executing.delete(promise)] runs (it was
    registered first), then every race over the set resolves. *)
Definition fulfil (concurrencyLimit : nat) (t : K) (s : state) : state * list K :=
  if bool_decide (t ∈ outstanding s) then
    wake concurrencyLimit (waiting s)
      {| executing := filter (λ k, k ≠ t) (executing s); rejected := rejected s;
         waiting := []; invoked := invoked s; abandoned := abandoned s |}
  else (s, []).

(** The promise of [t] rejects: [promise.then(() => executing.delete(promise))]
    has no rejection handler, so [t] stays in the set; every race over the
    set rejects and every suspended caller throws.  Returns those callers. *)
Definition reject (t : K) (s : state) : state * list K :=
  if bool_decide (t ∈ outstanding s) then
    ({| executing := executing s; rejected := rejected s ++ [t];
        waiting := []; invoked := invoked s; abandoned := abandoned s ++ waiting s |},
     waiting s)
  else (s, []).

(** The set after the callers [ks] have come to an empty set one after the
    other and no promise has settled: the first [concurrencyLimit] of them
    were let in, the others are suspended. *)
Definition entered (concurrencyLimit : nat) (ks : list K) : state :=
  {| executing := take concurrencyLimit ks; rejected := [];
     waiting := drop concurrencyLimit ks;
     invoked := take concurrencyLimit ks; abandoned := [] |}.

(** What holds of the throttle between two steps, whatever was submitted and
    however the tasks settled. *)
Record invariant (concurrencyLimit : nat) (s : state) : Prop := {
  inv_bound : (length (executing s) <= concurrencyLimit)%nat;
  inv_rejected : rejected s ⊆ executing s;
  inv_executing : executing s ⊆ invoked s;
  inv_once : NoDup (invoked s ++ waiting s ++ abandoned s);
  inv_set : NoDup (executing s);
  inv_waiting :
    waiting s ≠ [] → length (executing s) = concurrencyLimit ∧ rejected s = []
}.

End Tasks.
Arguments state : clear implicits.

(** A run of the throttle on its own: factories are numbered in submission
    order; a launched task settles when the environment says so. *)
Inductive event :=
| Submit
| Fulfil (t : nat)
| Reject (t : nat).

Record run_state := {
  th : state nat;
  (** number of factories submitted so far *)
  submitted : nat
}.

Definition start : run_state := {| th := empty; submitted := 0 |}.

Definition step (concurrencyLimit : nat) (r : run_state) (e : event) : run_state :=
  match e with
  | Submit =>
      {| th := fst (enter concurrencyLimit (submitted r) (th r));
         submitted := S (submitted r) |}
  | Fulfil t => {| th := fst (fulfil concurrencyLimit t (th r)); submitted := submitted r |}
  | Reject t => {| th := fst (reject t (th r)); submitted := submitted r |}
  end.

Definition run (concurrencyLimit : nat) (es : list event) : run_state :=
  fold_left (step concurrencyLimit) es start.

(** What holds after any run: the throttle's invariant, every factory
    submitted so far is in exactly one of the three lists, the suspended
    callers are in submission order, and all of them were submitted after
    every factory that has been called. *)
Record run_invariant (concurrencyLimit : nat) (r : run_state) : Prop := {
  run_inv : invariant concurrencyLimit (th r);
  run_submitted :
    ∀ k, k ∈ invoked (th r) ++ waiting (th r) ++ abandoned (th r) ↔ (k < submitted r)%nat;
  run_order : ∀ j k, j ∈ waiting (th r) → k ∈ invoked (th r) → (k < j)%nat;
  run_sorted : StronglySorted lt (waiting (th r))
}.

(** no task rejects *)
Definition all_fulfil (es : list event) : Prop :=
  Forall (λ e, match e with Reject _ => False | _ => True end) es.

End Throttle.

(** ** The localStorage helpers and [cleanUpETags] ([src/client/util.ts]) *)

Module Util.

(** What evaluating a JavaScript expression gives: a value, or a thrown
    exception. *)
Inductive completion (A : Type) :=
| Normal (a : A)
| Throw (e : string).
Arguments Normal {A} a.
Arguments Throw {A} e.

(** [try { body } catch (err) { handler }] *)
Definition try_catch {A} (body : completion A) (handler : string → completion A)
  : completion A :=
  match body with
  | Normal a => Normal a
  | Throw e => handler e
  end.

Section Storage.
(** The parsed values, with JavaScript's [null] among them, and the
    platform's [JSON.parse] and [JSON.stringify]. *)
Context {J : Type}.
Variable null : J.
Variable JSON_parse : string → completion J.
Variable JSON_stringify : J → string.

(** [localStorage]: a map from keys to strings; [getItem] gives [null]
    ([None]) for a key that is not there. *)
Definition getLS (localStorage : gmap string string) (key : string) : option string :=
  localStorage !! key.

Definition getAndParseLS (localStorage : gmap string string) (key : string)
  : completion J :=
  match getLS localStorage key with
  | None => Normal null
  | Some EmptyString => Normal null
  | Some dataString =>
      try_catch (JSON_parse dataString) (λ _, Normal null)
  end.

Definition setLS (localStorage : gmap string string) (key : string) (data : J)
  : gmap string string :=
  <[key := JSON_stringify data]> localStorage.

Definition removeLS (localStorage : gmap string string) (key : string)
  : gmap string string :=
  delete key localStorage.
End Storage.

(** A parser that knows two texts, to run [getAndParseLS] on an example. *)
Inductive toy_json := ToyNull | ToyEmptyObject.

Definition toy_parse (text : string) : completion toy_json :=
  if String.eqb text "null" then Normal ToyNull
  else if String.eqb text "{}" then Normal ToyEmptyObject
  else Throw "SyntaxError".

(** [arr.filter((obj) => obj.ETag)] *)
Definition cleanUpETags (arr : list UploadPartResponse) : list UploadPartResponse :=
  List.filter (λ obj, truthy_str (ETag obj)) arr.

(** The texts [JSON.stringify] gives for the two values of the example. *)
Definition toy_stringify (v : toy_json) : string :=
  match v with
  | ToyNull => "null"
  | ToyEmptyObject => "{}"
  end.

End Util.

(** ** The uploader ([MultipartUploader], [src/client/index.ts]) *)

Module Uploader.

(** [LocalUploadRecord], as [getAndParseLS] hands it back: whatever was
    stored, so any field may be missing.  [finishedParts], when it is
    there, is an array of part objects, each with or without an [ETag]; a
    stored array that holds [null], on which [cleanUpETags] throws, is not
    among the records of the model. *)
Record LocalUploadRecord := {
  originalFilename : option string;
  totalFileSizeInBytes : option Z;
  totalParts : option Z;
  partSizeInBytes : option Q;
  finishedParts : option (list UploadPartResponse);
  uploadId : option string;
  s3Filename : option string
}.

(** the [{}] of [getAndParseLS(...) || {}] *)
Definition emptyRecord : LocalUploadRecord := {|
  originalFilename := None; totalFileSizeInBytes := None; totalParts := None;
  partSizeInBytes := None; finishedParts := None; uploadId := None; s3Filename := None
|}.

(** The [Error] objects the uploader creates; the message text is not kept. *)
Inductive Error :=
| ErrCreate              (* failed uploadMultipartCreate *)
| ErrCreateIncomplete    (* did not receive either s3Filename or uploadId *)
| ErrSign (part : Z)     (* failed uploadMultipartPart | part n *)
| ErrPutStatus           (* Failed to upload video part to s3 *)
| ErrPutNetwork (part : Z) (* Failed to upload video part to s3 | partNumber n *)
| ErrParts               (* one or more parts failed to upload to s3 *)
| ErrComplete.           (* failed uploadMultipartComplete *)

(** [MultipartUploaderEvents]: what [this.emit] is called with. *)
Inductive Emitted :=
| uploadStarted
| uploadResumed (progress : Z) (localRecord : LocalUploadRecord)
| uploadCreated (uploadId s3Filename : option string)
| uploadPartStarted (partNumber : Z)
| uploadPartSignedUrl (partNumber : Z) (signedUrl : option string)
| uploadPartSuccess (partNumber : Z)
| totalProgress (progress : Z)
| uploadComplete (s3Filename : option string)
| uploadFailed (err : Error) (localRecord : option LocalUploadRecord)
| error (err : Error).

(** What the network and the browser deliver to a call of [uploadMultipart]
    after it has suspended: the settlement of a [fetch] and the callbacks of
    an [XMLHttpRequest], each for the part it belongs to.  A progress event
    is [lengthComputable] exactly when its [total] is not 0 (XMLHttpRequest
    standard, "fire a progress event").  The body of an answer is a JSON
    value whose properties can be read, each of them there or missing; the
    one value that has none, [null], on which the destructuring after the
    [await] throws, is not among the inputs.  One call is modelled at a
    time: the callbacks of parts that an earlier call left in flight are
    not among its inputs. *)
Inductive Input :=
| CreateResolved (r : CreateMultipartUploadResponse)
| CreateRejected
| SignResolved (part : Z) (signedUrl : option string)
| SignRejected (part : Z)
| XhrProgress (part : Z) (loaded total : N)
| XhrLoad (part : Z) (status : Z) (eTagHeader : option string)
| XhrError (part : Z)
| CompleteResolved (s3Filename : option string)
| CompleteRejected.

(** Where the factory of a part stands once the throttle has called it. *)
Inductive Task :=
| Signing                          (* awaiting uploadMultipartPart *)
| Putting                          (* the XMLHttpRequest is sent *)
| Fulfilled (r : UploadPartResponse)
| Rejected.

(** Where the call of [uploadMultipart] stands. *)
Inductive Phase :=
| Creating                                     (* awaiting uploadMultipartCreate *)
| Uploading                                    (* awaiting Promise.all(promisesArr) *)
| Completing (parts : list UploadPartResponse) (* awaiting uploadMultipartComplete *)
| Resolved (s3FinalKey : option string)
| Failed (err : Error).

(** The fields of the instance.  [localStorage] is kept after parsing: the
    uploader reads it only through [getAndParseLS] and writes it only
    through [setLS] with a record, so a key holds the record that
    [getAndParseLS] returns for it, and a key with no value or with text
    that does not parse holds none. *)
Record Instance := {
  i_localStorage : gmap string LocalUploadRecord;
  i_partsUploadProgress : gmap Z Z;
  i_totalUploadProgress : Z;
  i_uploadInProgress : bool;
  i_emitted : list Emitted
}.

(** The instance together with the locals of the running call. *)
Record State := {
  localStorage : gmap string LocalUploadRecord;
  partsUploadProgress : gmap Z Z;
  totalUploadProgress : Z;
  uploadInProgress : bool;
  (** every [this.emit], oldest first *)
  emitted : list Emitted;
  phase : Phase;
  (** the [totalParts] given to [loopMultipartParts] *)
  loopTotalParts : Z;
  (** [uploadPartsArray] of the resume flow; [None] in the create flow *)
  uploadPartsArray : option (list UploadPartResponse);
  (** the part each element of [promisesArr] belongs to *)
  promisesArr : list Z;
  (** the throttle's [executing] set and its suspended callers *)
  throttle : Throttle.state Z;
  tasks : gmap Z Task
}.

Definition instance (s : State) : Instance := {|
  i_localStorage := localStorage s;
  i_partsUploadProgress := partsUploadProgress s;
  i_totalUploadProgress := totalUploadProgress s;
  i_uploadInProgress := uploadInProgress s;
  i_emitted := emitted s
|}.

Definition enter_call (i : Instance) : State := {|
  localStorage := i_localStorage i;
  partsUploadProgress := i_partsUploadProgress i;
  totalUploadProgress := i_totalUploadProgress i;
  uploadInProgress := i_uploadInProgress i;
  emitted := i_emitted i;
  phase := Creating;
  loopTotalParts := 0;
  uploadPartsArray := None;
  promisesArr := [];
  throttle := Throttle.empty;
  tasks := ∅
|}.

(** *** Field updates *)

Definition set_localStorage (v : gmap string LocalUploadRecord) (s : State) : State :=
  {| localStorage := v; partsUploadProgress := partsUploadProgress s;
     totalUploadProgress := totalUploadProgress s; uploadInProgress := uploadInProgress s;
     emitted := emitted s; phase := phase s; loopTotalParts := loopTotalParts s;
     uploadPartsArray := uploadPartsArray s; promisesArr := promisesArr s;
     throttle := throttle s; tasks := tasks s |}.

Definition set_partsUploadProgress (v : gmap Z Z) (s : State) : State :=
  {| localStorage := localStorage s; partsUploadProgress := v;
     totalUploadProgress := totalUploadProgress s; uploadInProgress := uploadInProgress s;
     emitted := emitted s; phase := phase s; loopTotalParts := loopTotalParts s;
     uploadPartsArray := uploadPartsArray s; promisesArr := promisesArr s;
     throttle := throttle s; tasks := tasks s |}.

Definition set_totalUploadProgress (v : Z) (s : State) : State :=
  {| localStorage := localStorage s; partsUploadProgress := partsUploadProgress s;
     totalUploadProgress := v; uploadInProgress := uploadInProgress s;
     emitted := emitted s; phase := phase s; loopTotalParts := loopTotalParts s;
     uploadPartsArray := uploadPartsArray s; promisesArr := promisesArr s;
     throttle := throttle s; tasks := tasks s |}.

Definition set_uploadInProgress (v : bool) (s : State) : State :=
  {| localStorage := localStorage s; partsUploadProgress := partsUploadProgress s;
     totalUploadProgress := totalUploadProgress s; uploadInProgress := v;
     emitted := emitted s; phase := phase s; loopTotalParts := loopTotalParts s;
     uploadPartsArray := uploadPartsArray s; promisesArr := promisesArr s;
     throttle := throttle s; tasks := tasks s |}.

(** Modelled from the spec: the [EventEmitter] base class
    ([./event-emitter.js]) is not among the sources.  The spec has it as a
    publish/subscribe channel per notification kind, so [this.emit(...)] is
    modelled by what it publishes: the notification is appended to the log
    of the instance. *)
Definition emit (e : Emitted) (s : State) : State :=
  {| localStorage := localStorage s; partsUploadProgress := partsUploadProgress s;
     totalUploadProgress := totalUploadProgress s; uploadInProgress := uploadInProgress s;
     emitted := emitted s ++ [e]; phase := phase s; loopTotalParts := loopTotalParts s;
     uploadPartsArray := uploadPartsArray s; promisesArr := promisesArr s;
     throttle := throttle s; tasks := tasks s |}.

Definition set_phase (v : Phase) (s : State) : State :=
  {| localStorage := localStorage s; partsUploadProgress := partsUploadProgress s;
     totalUploadProgress := totalUploadProgress s; uploadInProgress := uploadInProgress s;
     emitted := emitted s; phase := v; loopTotalParts := loopTotalParts s;
     uploadPartsArray := uploadPartsArray s; promisesArr := promisesArr s;
     throttle := throttle s; tasks := tasks s |}.

(** the fresh locals of [loopMultipartParts]: [promisesArr = []] and
    [executing = new Set()] *)
Definition set_loop (totalParts : Z) (s : State) : State :=
  {| localStorage := localStorage s; partsUploadProgress := partsUploadProgress s;
     totalUploadProgress := totalUploadProgress s; uploadInProgress := uploadInProgress s;
     emitted := emitted s; phase := phase s; loopTotalParts := totalParts;
     uploadPartsArray := uploadPartsArray s; promisesArr := [];
     throttle := Throttle.empty; tasks := ∅ |}.

Definition set_uploadPartsArray (v : option (list UploadPartResponse)) (s : State) : State :=
  {| localStorage := localStorage s; partsUploadProgress := partsUploadProgress s;
     totalUploadProgress := totalUploadProgress s; uploadInProgress := uploadInProgress s;
     emitted := emitted s; phase := phase s; loopTotalParts := loopTotalParts s;
     uploadPartsArray := v; promisesArr := promisesArr s;
     throttle := throttle s; tasks := tasks s |}.

Definition push_promise (part : Z) (th : Throttle.state Z) (s : State) : State :=
  {| localStorage := localStorage s; partsUploadProgress := partsUploadProgress s;
     totalUploadProgress := totalUploadProgress s; uploadInProgress := uploadInProgress s;
     emitted := emitted s; phase := phase s; loopTotalParts := loopTotalParts s;
     uploadPartsArray := uploadPartsArray s; promisesArr := promisesArr s ++ [part];
     throttle := th; tasks := tasks s |}.

Definition set_throttle (th : Throttle.state Z) (s : State) : State :=
  {| localStorage := localStorage s; partsUploadProgress := partsUploadProgress s;
     totalUploadProgress := totalUploadProgress s; uploadInProgress := uploadInProgress s;
     emitted := emitted s; phase := phase s; loopTotalParts := loopTotalParts s;
     uploadPartsArray := uploadPartsArray s; promisesArr := promisesArr s;
     throttle := th; tasks := tasks s |}.

Definition set_task (part : Z) (t : Task) (s : State) : State :=
  {| localStorage := localStorage s; partsUploadProgress := partsUploadProgress s;
     totalUploadProgress := totalUploadProgress s; uploadInProgress := uploadInProgress s;
     emitted := emitted s; phase := phase s; loopTotalParts := loopTotalParts s;
     uploadPartsArray := uploadPartsArray s; promisesArr := promisesArr s;
     throttle := throttle s; tasks := <[part := t]> (tasks s) |}.

Definition with_finishedParts (v : list UploadPartResponse) (r : LocalUploadRecord)
  : LocalUploadRecord :=
  {| originalFilename := originalFilename r; totalFileSizeInBytes := totalFileSizeInBytes r;
     totalParts := totalParts r; partSizeInBytes := partSizeInBytes r;
     finishedParts := Some v; uploadId := uploadId r; s3Filename := s3Filename r |}.

(** *** localStorage, after parsing *)

Definition getAndParseLS (key : string) (s : State) : option LocalUploadRecord :=
  localStorage s !! key.

Definition setLS (key : string) (data : LocalUploadRecord) (s : State) : State :=
  set_localStorage (<[key := data]> (localStorage s)) s.

Definition removeLS (key : string) (s : State) : State :=
  set_localStorage (delete key (localStorage s)) s.

(** *** [eTag.replace(/^"|"$/g, '')] *)

Definition quote : ascii := ascii_of_nat 34.

Definition strip_leading_quote (s : string) : string :=
  match s with
  | String c rest => if Ascii.eqb c quote then rest else s
  | EmptyString => s
  end.

Fixpoint strip_trailing_quote (s : string) : string :=
  match s with
  | EmptyString => EmptyString
  | String c EmptyString => if Ascii.eqb c quote then EmptyString else s
  | String c rest => String c (strip_trailing_quote rest)
  end.

Definition strip_quotes (s : string) : string :=
  strip_trailing_quote (strip_leading_quote s).

(** *** [Array.prototype.sort] with the comparator on [PartNumber]

    The sort is stable; an insertion sort that puts an element before the
    first one that is not smaller gives the same array. *)

Fixpoint sort_insert (a : UploadPartResponse) (l : list UploadPartResponse)
  : list UploadPartResponse :=
  match l with
  | [] => [a]
  | b :: l' => if PartNumber a <=? PartNumber b then a :: b :: l' else b :: sort_insert a l'
  end.

Definition sort (l : list UploadPartResponse) : list UploadPartResponse :=
  foldr sort_insert [] l.

Section Call.
Variable options : Options.
Variable file : File.

(** [`video|${file.name}`] *)
Definition key : string := "video|" ++ File.name file.

(** *** [uploadPartToS3]: [xhr.upload.onprogress] *)

(** [Object.values(this.partsUploadProgress).reduce((sum, progress) => sum + Number(progress), 0)] *)
Definition sumProgress (m : gmap Z Z) : Z :=
  map_fold (λ _ progress sum, sum + progress) 0 m.

(** The handler of a part in flight.  [event.lengthComputable] is
    [total ≠ 0], so the first division is by a positive number; a part is in
    flight only if [1 ≤ partNumber ≤ totalParts], so the second one is too.
    The sum of the percentages is a sum of integers. *)
Definition onprogress (partNumber : Z) (loaded total : N) (s : State) : State :=
  if (total =? 0)%N then s
  else
    let percentCompleted :=
      Math_round
        (Double.div (Double.mul (inject_Z (Z.of_N loaded)) 100) (inject_Z (Z.of_N total))) in
    let s1 :=
      set_partsUploadProgress (<[partNumber := percentCompleted]> (partsUploadProgress s)) s in
    let progress :=
      Math_floor
        (Double.div (inject_Z (sumProgress (partsUploadProgress s1)))
           (inject_Z (loopTotalParts s1))) in
    if totalUploadProgress s1 <? progress
    then emit (totalProgress progress) (set_totalUploadProgress progress s1)
    else s1.

(** *** [await Promise.all(promisesArr)] and what follows it *)

(** the values of the promises, in the order of [promisesArr], once every
    one of them has fulfilled *)
Definition resolvedArr (s : State) : option (list UploadPartResponse) :=
  mapM (λ part, match tasks s !! part with
                | Some (Fulfilled r) => Some r
                | _ => None
                end) (promisesArr s).

(** The continuation of the [await] when it fulfils: the create flow
    passes [resolvedArr] on as it is, the resume flow pushes it onto
    [uploadPartsArray] and sorts; then [uploadMultipartComplete] is
    called. *)
Definition promise_all_then (s : State) : State :=
  match phase s, resolvedArr s with
  | Uploading, Some arr =>
      match uploadPartsArray s with
      | None => set_phase (Completing arr) s
      | Some finished => set_phase (Completing (sort (finished ++ arr))) s
      end
  | _, _ => s
  end.

(** The [catch] of the [await]: it runs for the first promise that rejects. *)
Definition promise_all_catch (s : State) : State :=
  match phase s with
  | Uploading =>
      set_phase (Failed ErrParts) (emit (error ErrParts) (set_uploadInProgress false s))
  | _ => s
  end.

(** *** The factory given to [promiseFnThrottle] in [loopMultipartParts] *)

(** [fn()]: the factory runs up to its first [await] *)
Definition launch (part : Z) (s : State) : State :=
  set_task part Signing (emit (uploadPartStarted part) s).

(** the promise of the factory fulfils *)
Definition task_fulfilled (part : Z) (s : State) : State :=
  let '(th, launched) := Throttle.fulfil (concurrencyLimit options) part (throttle s) in
  promise_all_then (fold_left (λ s' p, launch p s') launched (set_throttle th s)).

(** the promise of the factory rejects *)
Definition task_rejected (part : Z) (s : State) : State :=
  let '(th, _) := Throttle.reject part (throttle s) in
  promise_all_catch (set_throttle th (set_task part Rejected s)).

(** *** [uploadPartToS3]: [xhr.onload] and [xhr.onerror] *)

Definition onload (partNumber : Z) (status : Z) (eTagHeader : option string) (s : State)
  : State :=
  if (200 <=? status) && (status <? 300) then
    let eTag :=
      match eTagHeader with
      | Some h => if truthy_str eTagHeader then Some (strip_quotes h) else eTagHeader
      | None => None
      end in
    let response := {| ETag := eTag; PartNumber := partNumber |} in
    let s1 := emit (uploadPartSuccess partNumber) (set_task partNumber (Fulfilled response) s) in
    let s2 :=
      match getAndParseLS key s1 with
      | Some localStorageRecord =>
          match finishedParts localStorageRecord with
          | Some parts =>
              setLS key (with_finishedParts (parts ++ [response]) localStorageRecord) s1
          | None => s1 (* [push] on [undefined] throws inside the handler *)
          end
      | None => s1
      end in
    task_fulfilled partNumber s2
  else task_rejected partNumber s.

Definition onerror (partNumber : Z) (s : State) : State :=
  task_rejected partNumber
    (emit (uploadFailed (ErrPutNetwork partNumber) (getAndParseLS key s)) s).

(** *** [loopMultipartParts] *)

(** one [promiseFnThrottle(fn, executing, concurrencyLimit)] and
    [promisesArr.push] *)
Definition submit (part : Z) (s : State) : State :=
  let '(th, v) := Throttle.enter (concurrencyLimit options) part (throttle s) in
  let s1 := push_promise part th s in
  match v with
  | Throttle.Launched => launch part s1
  | _ => s1
  end.

(** the body of [for (let partNumber = 0; partNumber < totalParts; partNumber++)] *)
Definition loop_body (finishedPartsLookup : gmap Z UploadPartResponse)
    (s : State) (partNumber : Z) : State :=
  match finishedPartsLookup !! (partNumber + 1) with
  | Some _ => s
  | None => submit (partNumber + 1) s
  end.

Definition loopMultipartParts (totalParts : Z)
    (finishedPartsLookup : gmap Z UploadPartResponse) (s : State) : State :=
  let s0 :=
    if decide (size finishedPartsLookup = 0%nat) then set_partsUploadProgress ∅ s else s in
  fold_left (loop_body finishedPartsLookup) (seqZ 0 totalParts) (set_loop totalParts s0).

(** *** [uploadUnfinishedMultipart], up to its [await Promise.all] *)

Definition isCompleteLocalRecord (localRecord : LocalUploadRecord)
    (cleanedFinishedParts : list UploadPartResponse) : bool :=
  truthy_str (uploadId localRecord)
  && truthy_str (s3Filename localRecord)
  && (0 <? length cleanedFinishedParts)%nat
  && match totalParts localRecord with Some n => 0 <? n | None => false end
  && match partSizeInBytes localRecord with
     | Some q => negb (Qeq_bool q 0)
     | None => false
     end.

Definition uploadUnfinishedMultipart (uploadMultipart : Instance → option State)
    (localRecord : LocalUploadRecord) (s : State) : option State :=
  let cleanedFinishedParts :=
    Util.cleanUpETags (default [] (finishedParts localRecord)) in
  let s1 := setLS key (with_finishedParts cleanedFinishedParts localRecord) s in
  if negb (isCompleteLocalRecord localRecord cleanedFinishedParts) then
    uploadMultipart (instance (removeLS key s1))
  else
    let totalParts := default 0 (totalParts localRecord) in
    let s2 :=
      set_partsUploadProgress
        (fold_left (λ m part, <[PartNumber part := 100]> m)
           cleanedFinishedParts (partsUploadProgress s1)) s1 in
    let startingPercentage :=
      Math_round
        (Double.mul
           (Double.div (inject_Z (Z.of_nat (length cleanedFinishedParts)))
              (inject_Z totalParts)) 100) in
    let s3 :=
      emit (totalProgress startingPercentage)
        (emit (uploadResumed startingPercentage localRecord) s2) in
    let finishedPartsLookup :=
      fold_left (λ obj item, <[PartNumber item := item]> obj)
        cleanedFinishedParts (∅ : gmap Z UploadPartResponse) in
    Some (promise_all_then
            (set_phase Uploading
               (loopMultipartParts totalParts finishedPartsLookup
                  (set_uploadPartsArray (Some cleanedFinishedParts) s3)))).

(** *** [uploadMultipart], up to its first [await]

    [uploadMultipart] and [uploadUnfinishedMultipart] call each other;
    [fuel] bounds the depth of those calls. *)
Fixpoint uploadMultipart (fuel : nat) (i : Instance) : option State :=
  match fuel with
  | O => None
  | S fuel' =>
      let s := enter_call i in
      let localRecord := default emptyRecord (getAndParseLS key s) in
      if (0 <? length (default [] (finishedParts localRecord)))%nat then
        uploadUnfinishedMultipart (uploadMultipart fuel') localRecord s
      else
        Some (emit uploadStarted (set_uploadInProgress true s))
  end.

(** *** [uploadMultipart], after [await this.uploadMultipartCreate] *)

Definition create_then (r : CreateMultipartUploadResponse) (s : State) : State :=
  let s1 := emit (uploadCreated (resp_uploadId r) (resp_s3Filename r)) s in
  if negb (truthy_str (resp_s3Filename r)) || negb (truthy_str (resp_uploadId r)) then
    set_phase (Failed ErrCreateIncomplete)
      (emit (error ErrCreateIncomplete) (set_uploadInProgress false s1))
  else
    let record := {|
      originalFilename := Some (File.name file);
      totalFileSizeInBytes := Some (Z.of_N (File.size file));
      totalParts := Some (Planner.numParts options file);
      partSizeInBytes := Some (Planner.partSizeInBytes options file);
      finishedParts := Some [];
      uploadId := resp_uploadId r;
      s3Filename := resp_s3Filename r
    |} in
    promise_all_then
      (set_phase Uploading
         (loopMultipartParts (Planner.numParts options file) ∅ (setLS key record s1))).

Definition create_catch (s : State) : State :=
  set_phase (Failed ErrCreate) (emit (error ErrCreate) (set_uploadInProgress false s)).

(** *** [uploadMultipart], after [await this.uploadMultipartComplete] *)

(** [reset(file.name)] *)
Definition reset (s : State) : State :=
  removeLS key (set_partsUploadProgress ∅ (set_uploadInProgress false s)).

Definition complete_then (s3FinalKey : option string) (s : State) : State :=
  set_phase (Resolved s3FinalKey) (emit (uploadComplete s3FinalKey) (reset s)).

Definition complete_catch (s : State) : State :=
  set_phase (Failed ErrComplete) (emit (error ErrComplete) (set_uploadInProgress false s)).

(** *** One callback *)

Definition step (s : State) (i : Input) : State :=
  match i with
  | CreateResolved r =>
      match phase s with Creating => create_then r s | _ => s end
  | CreateRejected =>
      match phase s with Creating => create_catch s | _ => s end
  | SignResolved part signedUrl =>
      match tasks s !! part with
      | Some Signing => set_task part Putting (emit (uploadPartSignedUrl part signedUrl) s)
      | _ => s
      end
  | SignRejected part =>
      match tasks s !! part with
      | Some Signing => task_rejected part (emit (error (ErrSign part)) s)
      | _ => s
      end
  | XhrProgress part loaded total =>
      match tasks s !! part with
      | Some Putting => onprogress part loaded total s
      | _ => s
      end
  | XhrLoad part status eTagHeader =>
      match tasks s !! part with
      | Some Putting => onload part status eTagHeader s
      | _ => s
      end
  | XhrError part =>
      match tasks s !! part with
      | Some Putting => onerror part s
      | _ => s
      end
  | CompleteResolved s3FinalKey =>
      match phase s with Completing _ => complete_then s3FinalKey s | _ => s end
  | CompleteRejected =>
      match phase s with Completing _ => complete_catch s | _ => s end
  end.

Definition run (s : State) (inputs : list Input) : State :=
  fold_left step inputs s.

End Call.

(** the state in which the create flow awaits [uploadMultipartCreate] *)
Definition fresh_start (i : Instance) : State :=
  emit uploadStarted (set_uploadInProgress true (enter_call i)).

(** the instance with the value under [key] removed from localStorage *)
Definition forget (key : string) (i : Instance) : Instance := {|
  i_localStorage := delete key (i_localStorage i);
  i_partsUploadProgress := i_partsUploadProgress i;
  i_totalUploadProgress := i_totalUploadProgress i;
  i_uploadInProgress := i_uploadInProgress i;
  i_emitted := i_emitted i
|}.

(** What makes [isCompleteLocalRecord] false, spelled out: [uploadId] or
    [s3Filename] missing or empty, no finished part left once the untagged
    ones are filtered out, [totalParts] missing or not positive,
    [partSizeInBytes] missing or zero. *)
Definition record_incomplete (localRecord : LocalUploadRecord)
    (cleanedFinishedParts : list UploadPartResponse) : Prop :=
  uploadId localRecord = None ∨ uploadId localRecord = Some EmptyString
  ∨ s3Filename localRecord = None ∨ s3Filename localRecord = Some EmptyString
  ∨ cleanedFinishedParts = []
  ∨ totalParts localRecord = None
  ∨ (∃ n, totalParts localRecord = Some n ∧ n <= 0)
  ∨ partSizeInBytes localRecord = None
  ∨ (∃ q, partSizeInBytes localRecord = Some q ∧ (q == 0)%Q).

(** What holds of a call from the moment it has submitted its parts: after
    [loopMultipartParts] in either flow, and after every callback since. *)
Record invariant (f : File) (s : State) : Prop := {
  inv_phase : phase s ≠ Creating;
  (** the parts were submitted in ascending order, each once *)
  inv_promises : StronglySorted Z.lt (promisesArr s);
  inv_range : ∀ p, p ∈ promisesArr s → 1 <= p <= loopTotalParts s;
  (** the resume flow submits no part that it took from the record *)
  inv_resumed :
    ∀ finished r, uploadPartsArray s = Some finished → r ∈ finished →
      PartNumber r ∉ promisesArr s;
  inv_tasks : ∀ p t, tasks s !! p = Some t → p ∈ promisesArr s;
  inv_throttle : ∀ p, p ∈ Throttle.waiting (throttle s) → p ∈ promisesArr s;
  inv_fulfilled : ∀ p r, tasks s !! p = Some (Fulfilled r) → PartNumber r = p;
  (** the call gets past [Promise.all] only with every task fulfilled *)
  inv_settled :
    (phase s = Uploading ∨ phase s = Failed ErrParts)
    ∨ ∀ p t, tasks s !! p = Some t → ∃ r, t = Fulfilled r;
  inv_rejected : ∀ p, tasks s !! p = Some Rejected → phase s = Failed ErrParts;
  (** until the upload completes, the record is there and holds the response
      of every task that fulfilled *)
  inv_record :
    (∃ k, phase s = Resolved k)
    ∨ ∃ localRecord parts,
        localStorage s !! key f = Some localRecord
        ∧ finishedParts localRecord = Some parts
        ∧ truthy_str (uploadId localRecord) = true
        ∧ truthy_str (s3Filename localRecord) = true
        ∧ totalParts localRecord = Some (loopTotalParts s)
        ∧ (∃ q, partSizeInBytes localRecord = Some q ∧ Qeq_bool q 0 = false)
        ∧ ∀ p r, tasks s !! p = Some (Fulfilled r) → r ∈ parts;
  (** what [uploadMultipartComplete] was called with *)
  inv_completing :
    ∀ parts, phase s = Completing parts →
      ∃ arr, PartNumber <$> arr = promisesArr s
             ∧ parts = match uploadPartsArray s with
                       | None => arr
                       | Some finished => sort (finished ++ arr)
                       end
}.

(** What holds of a call of the create flow until its create call has
    answered with both identifiers. *)
Definition before_parts (s : State) : Prop :=
  tasks s = ∅
  ∧ uploadPartsArray s = None
  ∧ throttle s = Throttle.empty
  ∧ (phase s = Creating ∨ phase s = Failed ErrCreate ∨ phase s = Failed ErrCreateIncomplete).

(** What holds of the throttle inside a call: its own invariant under the
    instance's [concurrencyLimit]; the factories it has called, followed by
    the callers it holds suspended, are in ascending order of part number;
    and it knows of submitted parts only. *)
Record throttled (o : Options) (s : State) : Prop := {
  thr_invariant : Throttle.invariant (concurrencyLimit o) (throttle s);
  thr_sorted :
    StronglySorted Z.lt
      (Throttle.invoked (throttle s) ++ Throttle.waiting (throttle s));
  thr_known :
    ∀ p, p ∈ Throttle.invoked (throttle s) ++ Throttle.waiting (throttle s)
             ++ Throttle.abandoned (throttle s) →
         p ∈ promisesArr s
}.

(** the percentages emitted on the [totalProgress] channel, oldest first *)
Definition totalProgress_values (es : list Emitted) : list Z :=
  omap (λ e, match e with totalProgress p => Some p | _ => None end) es.

(** a new instance: what the constructor leaves *)
Definition new_instance (ls : gmap string LocalUploadRecord) : Instance := {|
  i_localStorage := ls;
  i_partsUploadProgress := ∅;
  i_totalUploadProgress := 0;
  i_uploadInProgress := false;
  i_emitted := []
|}.


(** the parts announced on the [uploadPartStarted] channel, oldest first *)
Definition uploadPartStarted_values (es : list Emitted) : list Z :=
  omap (λ e, match e with uploadPartStarted p => Some p | _ => None end) es.

(** [isUploadInProgress()] *)
Definition isUploadInProgress (s : State) : bool := uploadInProgress s.

(** the promise returned by [uploadMultipart] has not settled *)
Definition pending (s : State) : bool :=
  match phase s with
  | Creating | Uploading | Completing _ => true
  | Resolved _ | Failed _ => false
  end.

(** What a piece of the code does to the log and to the throttle when it
    emits nothing on the [totalProgress] channel: the parts it announces on
    [uploadPartStarted] are the ones whose factory it has the throttle
    call, in that order, and [totalUploadProgress] is left alone. *)
Definition announces (s s' : State) : Prop :=
  ∃ es,
    emitted s' = emitted s ++ es
    ∧ Throttle.invoked (throttle s')
      = Throttle.invoked (throttle s) ++ uploadPartStarted_values es
    ∧ totalProgress_values es = []
    ∧ totalUploadProgress s' = totalUploadProgress s.

(** every promise in [promisesArr] has fulfilled, unless the call still
    awaits them or has failed on one of them *)
Definition all_fulfilled (s : State) : Prop :=
  (phase s = Uploading ∨ phase s = Failed ErrParts)
  ∨ ∀ p, p ∈ promisesArr s → ∃ r, tasks s !! p = Some (Fulfilled r).



End Uploader.

(** ** Option objects ([deepMerge] and [convertMetadata], [src/shared/util.ts]) *)

(** The two helpers work on the objects a caller writes: option objects
    and metadata.  Such a value is modelled by the expression that denotes
    it, a [literal]: [undefined], [null], a boolean, a number (an integer
    here, which denotes the double nearest to it), a string, a function (given by its source text, which is what
    [String] makes of it), an array or a plain object with its own
    enumerable properties in the order a [for...in] visits them, each key
    once.  What the code creates and changes in place lives in a [heap] of
    plain objects; a property of such an object holds a reference to
    another one, or a value that is not a plain object, kept as it was
    written. *)
Module Shared.

#[local] Set Warnings "-register-all".

Inductive literal :=
| LUndefined
| LNull
| LBoolean (b : bool)
| LNumber (n : Z)
| LString (s : string)
| LFunction (source : string)
| LArray (elems : list literal)
| LObject (fields : list (string * literal)).

(** JavaScript truthiness *)
Definition truthy (v : literal) : bool :=
  match v with
  | LUndefined | LNull => false
  | LBoolean b => b
  | LNumber n => negb (n =? 0)
  | LString EmptyString => false
  | LString _ => true
  | LFunction _ | LArray _ | LObject _ => true
  end.

(** *** [String] of a number

    [Number::toString]: the digits are the [k] digits of the integer [s],
    for the smallest [k] such that [s * 10^(n-k)] is the number for some
    [n]; up to [10^21] they are written out with zeros behind them, beyond
    it with an exponent. *)

(** the double nearest to an integer, itself an integer *)
Definition Number_of_Z (n : Z) : Z := Qfloor (Double.nearest (inject_Z n)).

(** how many decimal digits a positive integer has *)
Definition digits (d : Z) : Z := Z.of_nat (String.length (pretty d)).

(** The candidates with [k] digits for the double [d]: the integers [s]
    with [10^(k-1) <= s < 10^k] for which [s * 10^(n-k)] rounds to [d], each
    with its [n] and its distance from [d]. *)
Definition candidates (d k : Z) : list (Z * Z * Z) :=
  n ← [digits d; digits d + 1];
  s ← [d / 10 ^ (n - k); d / 10 ^ (n - k) + 1];
  if bool_decide (0 <= n - k ∧ 10 ^ (k - 1) <= s < 10 ^ k
                  ∧ Number_of_Z (s * 10 ^ (n - k)) = d)
  then [(s, n, Z.abs (s * 10 ^ (n - k) - d))] else [].

(** of two candidates the nearer one, the even one when they are equally
    near *)
Definition nearer (a b : Z * Z * Z) : Z * Z * Z :=
  if a.2 <? b.2 then a else if b.2 <? a.2 then b else if Z.even a.1.1 then a else b.

(** [s] and [n] for the smallest [k] that has a candidate; with as many
    digits as [d] has, [d] itself is one *)
Fixpoint shortest (fuel : nat) (d k : Z) : Z * Z :=
  match fuel with
  | O => (d, digits d)
  | S fuel' =>
      match candidates d k with
      | c :: cs => (foldl nearer c cs).1
      | [] => shortest fuel' d (k + 1)
      end
  end.

(** [String(d)] for a positive integer [d] that is a double: a safe integer
    is written out; a double from [2^1024] on is [Infinity], the one place
    where the range of the exponent is modelled *)
Definition toString_positive (d : Z) : string :=
  if d <? 2 ^ 53 then pretty d
  else if 2 ^ 1024 <=? d then "Infinity"
  else
    let '(s, n) := shortest (Z.to_nat (digits d)) d 1 in
    let k := digits s in
    if n <=? 21 then pretty s ++ String.concat "" (replicate (Z.to_nat (n - k)) "0")
    else
      match pretty s with
      | String c EmptyString => String c ("e+" ++ pretty (n - 1))
      | String c rest => String c ("." ++ rest ++ "e+" ++ pretty (n - 1))
      | EmptyString => EmptyString
      end.

(** [String(n)] for the number that the integer [n] denotes *)
Definition Number_toString (n : Z) : string :=
  match n with
  | Z0 => "0"
  | Zpos _ => toString_positive (Number_of_Z n)
  | Zneg _ => "-" ++ toString_positive (Number_of_Z (- n))
  end.

(** [String(value)]: an array joins the conversions of its elements with
    commas, [null] and [undefined] elements giving nothing *)
Fixpoint String_ (v : literal) : string :=
  match v with
  | LUndefined => "undefined"
  | LNull => "null"
  | LBoolean true => "true"
  | LBoolean false => "false"
  | LNumber n => Number_toString n
  | LString s => s
  | LFunction source => source
  | LArray elems =>
      (fix join (elems : list literal) : string :=
         match elems with
         | [] => ""
         | [e] => match e with LUndefined | LNull => "" | _ => String_ e end
         | e :: rest =>
             ((match e with LUndefined | LNull => "" | _ => String_ e end)
              ++ "," ++ join rest)%string
         end) elems
  | LObject _ => "[object Object]"
  end.

(** [Object.entries(obj)]: the own enumerable properties of an object, the
    elements of an array under their indices, the characters of a string
    under theirs; a number, a boolean or a function has none. *)
Definition entries (obj : literal) : list (string * literal) :=
  match obj with
  | LObject fields => fields
  | LArray elems => imap (λ i e, (pretty i, e)) elems
  | LString s => imap (λ i c, (pretty i, LString (String c EmptyString))) (list_ascii_of_string s)
  | _ => []
  end.

(** [convertMetadata]: [null] ([None]) for a falsy argument; otherwise the
    object that [reduce] builds from [{}].  [acc[key] = ...] makes a
    property of every key but [__proto__]: that assignment goes to the
    setter every object inherits, which ignores a string. *)
Definition convertMetadata (obj : literal) : option (list (string * string)) :=
  if negb (truthy obj) then None
  else
    Some ((λ entry, (entry.1, String_ entry.2))
            <$> filter (λ entry, entry.1 ≠ "__proto__") (entries obj)).

(** *** Objects that are changed in place *)

Definition loc := positive.

Inductive value :=
| Leaf (v : literal)
| Ref (l : loc).

Definition object := gmap string value.

Definition heap := gmap loc object.

Definition truthy_value (v : value) : bool :=
  match v with
  | Leaf v => truthy v
  | Ref _ => true
  end.

(** the object a [{}] or a [{ ...obj }] creates gets a location not in use *)
Definition alloc (h : heap) : loc := fresh (dom h).

(** [obj[key]], for an own property *)
Definition get (h : heap) (l : loc) (key : string) : value :=
  default (Leaf LUndefined) (h !! l ≫= (.!! key)).

(** [obj[key] = v] *)
Definition set (l : loc) (key : string) (v : value) (h : heap) : heap :=
  <[l := <[key := v]> (default ∅ (h !! l))]> h.

(** [{ ...obj }]: a new object with the own properties of [obj] *)
Definition spread (l : loc) (h : heap) : heap :=
  <[alloc h := default ∅ (h !! l)]> h.

(** The names every plain object inherits from [Object.prototype]: under
    such a key [target[key]] reads the inherited value where the object has
    no property of its own, and [__proto__] is an accessor. *)
Definition inherited : list string :=
  ["constructor"; "__defineGetter__"; "__defineSetter__"; "hasOwnProperty";
   "__lookupGetter__"; "__lookupSetter__"; "isPrototypeOf"; "propertyIsEnumerable";
   "toString"; "valueOf"; "__proto__"; "toLocaleString"].

(** [deepMerge(target, source)] for a [target] that is a plain object; it
    returns [target], so the result is the heap it leaves.

    The model follows the code as long as every write goes to a plain
    object under a key that is not [inherited]; [None] says that it does
    not.  That is: a key of the source is [inherited]; or [target[key]]
    holds a truthy value that is not a plain object while [source[key]] is
    a plain object with properties of its own (the code then writes these
    onto that value: the assignment throws a [TypeError] on a string, a
    number or a boolean, as the modules are strict code, and an array or a
    function takes the property by rules of its own); or the source itself
    is a string, an array or a function, whose [for...in] is not the one
    of a plain object.  A [for...in] over [undefined], [null], a number or
    a boolean visits nothing. *)
Fixpoint deepMerge (source : literal) (target : loc) (h : heap) {struct source}
  : option heap :=
  match source with
  | LObject fields =>
      (fix each (fields : list (string * literal)) (h : heap) {struct fields}
         : option heap :=
         match fields with
         | [] => Some h
         | (key, v) :: rest =>
             if bool_decide (key ∈ inherited) then None
             else
               match v with
               | LObject inner =>
                   (* [target[key] = deepMerge(target[key] || {}, source[key])] *)
                   match get h target key with
                   | Ref l =>
                       h' ← deepMerge v l h;
                       each rest (set target key (Ref l) h')
                   | Leaf current =>
                       if truthy current then
                         match inner with
                         | [] => each rest h
                         | _ => None
                         end
                       else
                         h' ← deepMerge v (alloc h) (<[alloc h := ∅]> h);
                         each rest (set target key (Ref (alloc h)) h')
                   end
               | _ =>
                   (* [target[key] = source[key]] *)
                   each rest (set target key (Leaf v) h)
               end
         end) fields h
  | LUndefined | LNull | LBoolean _ | LNumber _ | LString EmptyString => Some h
  | LString _ | LFunction _ | LArray _ => None
  end.

(** [deepMerge] on an object, one property of the source after the other *)
Definition merge_field (key : string) (v : literal) (target : loc) (h : heap)
  : option heap :=
  if bool_decide (key ∈ inherited) then None
  else
    match v with
    | LObject inner =>
        match get h target key with
        | Ref l => set target key (Ref l) <$> deepMerge v l h
        | Leaf current =>
            if truthy current then
              match inner with
              | [] => Some h
              | _ => None
              end
            else set target key (Ref (alloc h)) <$> deepMerge v (alloc h) (<[alloc h := ∅]> h)
        end
    | _ => Some (set target key (Leaf v) h)
    end.

Fixpoint merge_fields (fields : list (string * literal)) (target : loc) (h : heap)
  : option heap :=
  match fields with
  | [] => Some h
  | (key, v) :: rest => merge_field key v target h ≫= merge_fields rest target
  end.

(** [Object.assign(target, source)] for a source whose values are written
    as they are *)
Definition assign (fields : list (string * literal)) (target : loc) (h : heap) : heap :=
  foldl (λ h entry, set target entry.1 (Leaf entry.2) h) h fields.

(** a property that [deepMerge] copies as it is: its key is not
    [inherited] and its value is not a plain object *)
Definition plain (entry : string * literal) : Prop :=
  (fst entry ∉ inherited) ∧ (match snd entry with LObject _ => False | _ => True end).

End Shared.

(** ** The constructor of [MultipartUploader] ([src/client/index.ts], lines 46-56 and 111-128) *)

Module Client.
Import Shared.

(** The [defaultOptions] of the module: three objects, created once, when
    the module is loaded. *)
Definition defaultOptions : loc := 1%positive.

Definition serverConfig : loc := 2%positive.

Definition headers : loc := 3%positive.

Definition module_heap : heap :=
  {[ defaultOptions :=
       {[ "serverConfig" := Ref serverConfig;
          "concurrencyLimit" := Leaf (LNumber 6);
          "partMinSizeBytes" := Leaf (LNumber (10 * 1024 * 1024));
          "maxNumParts" := Leaf (LNumber 96);
          "debugMode" := Leaf (LBoolean false) ]};
     serverConfig :=
       {[ "endpoint" := Leaf (LString "");
          "namespace" := Leaf (LString "multipart");
          "headers" := Ref headers ]};
     headers := ∅ ]}.

(** [String(new Error(message))] *)
Definition new_Error (message : string) : string := "Error: " ++ message.

(** [new MultipartUploader(options)] in a heap that holds the module's
    objects: what it throws (of a [TypeError] only the name is kept), or the
    heap it leaves and the object that is [this.options].  The [id] it
    draws and the [init] notification, which a later microtask emits, are
    left out. *)
Definition constructor (options : literal) (h : heap)
  : option (Util.completion (heap * loc)) :=
  let this_options := alloc h in
  h' ← deepMerge options this_options (spread defaultOptions h);
  Some
    match get h' this_options "serverConfig" with
    | Leaf LUndefined | Leaf LNull => Util.Throw "TypeError"
    | Leaf _ =>
        Util.Throw (new_Error "endpoint required in the serverConfig constructor options. Not found")
    | Ref config =>
        if truthy_value (get h' config "endpoint") then Util.Normal (h', this_options)
        else
          Util.Throw
            (new_Error "endpoint required in the serverConfig constructor options. Not found")
    end.

(** [this.options.serverConfig.endpoint], as the three [fetch] wrappers
    read it at each request; [undefined] when there is no [serverConfig]
    object to read it from *)
Definition endpoint (h : heap) (this_options : loc) : value :=
  match get h this_options "serverConfig" with
  | Ref config => get h config "endpoint"
  | Leaf _ => Leaf LUndefined
  end.

(** [this.options.serverConfig.headers[name]] *)
Definition header (h : heap) (this_options : loc) (name : string) : value :=
  match get h this_options "serverConfig" with
  | Ref config =>
      match get h config "headers" with
      | Ref headers => get h headers name
      | Leaf _ => Leaf LUndefined
      end
  | Leaf _ => Leaf LUndefined
  end.

End Client.

(** ** The backend ([src/server/index.ts], [src/server/aws.ts]) *)

Module Server.
Import Shared.

(** The [defaultOptions] of the module. *)
Definition defaultOptions : loc := 1%positive.

Definition awsConfig : loc := 2%positive.

Definition s3Config : loc := 3%positive.

Definition module_heap : heap :=
  {[ defaultOptions :=
       {[ "awsConfig" := Ref awsConfig;
          "filenameGeneratorFn" := Leaf LNull;
          "debugMode" := Leaf (LBoolean false) ]};
     awsConfig :=
       {[ "s3Config" := Ref s3Config;
          "signedUrlExpiration" := Leaf (LNumber (3 * 60)) ]};
     s3Config := {[ "region" := Leaf (LString "us-east-1") ]} ]}.

(** [String(new Error(message))] *)
Definition new_Error (message : string) : string := "Error: " ++ message.

(** the fields of a [MultipartUploaderBackend]: [this.options] and
    [this.awsConfig] *)
Record MultipartUploaderBackend := {
  this_options : loc;
  this_awsConfig : loc
}.

(** [new MultipartUploaderBackend(options)] *)
Definition constructor (options : literal) (h : heap)
  : option (Util.completion (heap * MultipartUploaderBackend)) :=
  let this_options := alloc h in
  h' ← deepMerge options this_options (spread defaultOptions h);
  Some
    match get h' this_options "awsConfig" with
    | Leaf LUndefined | Leaf LNull => Util.Throw "TypeError"
    | Leaf _ =>
        Util.Throw (new_Error "bucket required in the awsConfig constructor options. Not found")
    | Ref config =>
        if truthy_value (get h' config "bucket")
        then Util.Normal (h', {| this_options := this_options; this_awsConfig := config |})
        else
          Util.Throw (new_Error "bucket required in the awsConfig constructor options. Not found")
    end.

(** [CreateMultipartUploadCommandInput], as [createS3MultipartUpload] fills
    it: [Metadata] is the object [{ ...convertMetadata(metadata) }], which
    is [{}] when [convertMetadata] gives [null], so the test
    [command.Metadata === null] never holds; [ContentType] is deleted
    ([None]) when it is [null]. *)
Record CreateMultipartUploadCommandInput := {
  Bucket : value;
  Key : string;
  Metadata : list (string * string);
  ContentType : option literal
}.

Section S3.
(** What the platform and the S3 client give: [crypto.randomUUID()], the
    result of calling a function value, the [UploadId] of the answer to
    [s3.send(new CreateMultipartUploadCommand(command))], and
    [JSON.stringify].  A rejected promise or a thrown exception is kept as
    the text that [`${error}`] makes of it. *)
Variable randomUUID : string.
Variable call : value → Util.completion string.
Variable send : CreateMultipartUploadCommandInput → Util.completion (option string).
Variable JSON_stringify : literal → string.

(** [createS3MultipartUpload]: the [UploadId] of the answer and the
    [s3Filename].  [getS3], which only builds the client the command is
    sent with, is part of [send]. *)
Definition createS3MultipartUpload (h : heap) (awsConfig : loc) (fileNameGeneratorFn : value)
    (metadata contentType : literal) : Util.completion (option string * string) :=
  match (if truthy_value fileNameGeneratorFn then call fileNameGeneratorFn
         else Util.Normal randomUUID) with
  | Util.Throw e => Util.Throw e
  | Util.Normal s3Filename =>
      let command := {|
        Bucket := get h awsConfig "bucket";
        Key := s3Filename;
        Metadata := default [] (convertMetadata metadata);
        ContentType := match contentType with LNull => None | _ => Some contentType end
      |} in
      match send command with
      | Util.Throw e => Util.Throw e
      | Util.Normal UploadId => Util.Normal (UploadId, s3Filename)
      end
  end.

(** [MultipartUploaderBackend.createMultipartUpload] *)
Definition createMultipartUpload (h : heap) (this : MultipartUploaderBackend)
    (metadata contentType : literal) : Util.completion CreateMultipartUploadResponse :=
  Util.try_catch
    (match createS3MultipartUpload h (this_awsConfig this)
             (get h (this_options this) "filenameGeneratorFn") metadata contentType with
     | Util.Throw e => Util.Throw e
     | Util.Normal (uploadId, s3Filename) =>
         if negb (truthy_str uploadId) || negb (truthy_str (Some s3Filename)) then
           Util.Throw
             (new_Error "failed to get either uploadId or s3Filename from createS3MultipartUpload")
         else Util.Normal {| resp_uploadId := uploadId; resp_s3Filename := Some s3Filename |}
     end)
    (λ error,
       Util.Throw
         (new_Error ("failed createS3MultipartUpload: " ++ error ++ " | metadata "
                     ++ JSON_stringify metadata))).
End S3.

End Server.

(** * Properties *)

(** ** Rounding to a double *)

Lemma double_pow2_pos e : (0 < 2 ^ e)%Q.
Proof. by apply Qpower_0_lt. Qed.

Lemma double_pow2_plus a b : (2 ^ (a + b) == 2 ^ a * 2 ^ b)%Q.
Proof. by apply Qpower_plus. Qed.

Lemma double_pow2_succ e : (2 ^ (e + 1) == 2 * 2 ^ e)%Q.
Proof. rewrite double_pow2_plus. change (2 ^ 1)%Q with 2%Q. ring. Qed.

Lemma double_pow2_le a b : a <= b → (2 ^ a <= 2 ^ b)%Q.
Proof. intros Hab. by apply Qpower_le_compat_l. Qed.

Lemma double_pow2_lt a b : a < b → (2 ^ a < 2 ^ b)%Q.
Proof. intros Hab. by apply Qpower_lt_compat_l. Qed.

Lemma double_pow2_Z e : 0 <= e → (2 ^ e == inject_Z (2 ^ e))%Q.
Proof. intros He. by rewrite Zpower_Qpower. Qed.

(** [round_half_even] does not tell equal rationals apart. *)
Lemma double_round_compat x y :
  (x == y)%Q → Double.round_half_even x = Double.round_half_even y.
Proof.
  intros Hxy. unfold Double.round_half_even.
  rewrite (Qfloor_comp _ _ Hxy).
  assert (Hc : (x - inject_Z (Qfloor y) ?= 1 # 2)%Q = (y - inject_Z (Qfloor y) ?= 1 # 2)%Q).
  { apply Qcompare_comp; [by rewrite Hxy|reflexivity]. }
  by rewrite Hc.
Qed.

(** The rounded value is within one half of the number. *)
Lemma double_round_bounds x :
  (inject_Z (Double.round_half_even x) - (1 # 2) <= x
   ∧ x <= inject_Z (Double.round_half_even x) + (1 # 2))%Q.
Proof.
  unfold Double.round_half_even.
  pose proof (Qfloor_le x) as Hlo. pose proof (Qlt_floor x) as Hhi.
  rewrite inject_Z_plus in Hhi.
  destruct (x - inject_Z (Qfloor x) ?= 1 # 2)%Q eqn:Hc.
  - apply Qeq_alt in Hc.
    destruct (Z.even _); rewrite ?inject_Z_plus; change (inject_Z 1) with 1%Q in *; split; lra.
  - apply Qlt_alt in Hc. change (inject_Z 1) with 1%Q in *. split; lra.
  - apply Qgt_alt in Hc. rewrite inject_Z_plus. change (inject_Z 1) with 1%Q in *. split; lra.
Qed.

Lemma double_round_Z z : Double.round_half_even (inject_Z z) = z.
Proof.
  unfold Double.round_half_even. rewrite Qfloor_Z.
  assert (Hc : (inject_Z z - inject_Z z ?= 1 # 2)%Q = Lt).
  { apply (proj1 (Qlt_alt _ _)). lra. }
  by rewrite Hc.
Qed.

Lemma double_round_mono x y :
  (x <= y)%Q → Double.round_half_even x <= Double.round_half_even y.
Proof.
  intros Hxy.
  destruct (Qeq_dec x y) as [Heq|Hne].
  { by rewrite (double_round_compat _ _ Heq). }
  destruct (double_round_bounds x) as [Hx1 Hx2].
  destruct (double_round_bounds y) as [Hy1 Hy2].
  destruct (Z_le_gt_dec (Double.round_half_even x) (Double.round_half_even y))
    as [|Hgt]; [done|exfalso].
  assert (Hz : Double.round_half_even y + 1 <= Double.round_half_even x) by lia.
  rewrite Zle_Qle, inject_Z_plus in Hz. change (inject_Z 1) with 1%Q in Hz.
  assert (Hx : (x == inject_Z (Double.round_half_even y) + (1 # 2))%Q) by lra.
  assert (Hy : (y == inject_Z (Double.round_half_even y) + (1 # 2))%Q) by lra.
  apply Hne. lra.
Qed.

(** The exponent is the one of the binade the number lies in. *)
Lemma double_exponent_spec x :
  (0 < x)%Q → (2 ^ Double.exponent x <= x)%Q ∧ (x < 2 ^ (Double.exponent x + 1))%Q.
Proof.
  intros Hx. destruct x as [n d]. unfold Double.exponent. simpl Qnum. simpl Qden.
  assert (Hn : 0 < n) by (unfold Qlt in Hx; simpl in Hx; lia).
  destruct (Z.log2_spec n Hn) as [Ha1 Ha2].
  destruct (Z.log2_spec (Z.pos d) ltac:(lia)) as [Hb1 Hb2].
  pose proof (Z.log2_nonneg n) as Ha0. pose proof (Z.log2_nonneg (Z.pos d)) as Hb0.
  set (a := Z.log2 n) in *. set (b := Z.log2 (Z.pos d)) in *.
  rewrite <- Z.add_1_r in Ha2, Hb2.
  rewrite Zle_Qle in Ha1, Hb1. rewrite Zlt_Qlt in Ha2, Hb2.
  rewrite <- !double_pow2_Z in Ha1, Ha2, Hb1, Hb2 by lia.
  rewrite double_pow2_succ in Ha2, Hb2.
  pose proof (double_pow2_pos a) as HA. pose proof (double_pow2_pos b) as HB.
  pose proof (double_pow2_pos (a - b)) as HE.
  assert (HAB : (2 ^ (a - b) * 2 ^ b == 2 ^ a)%Q).
  { rewrite <- double_pow2_plus. by replace (a - b + b) with a by lia. }
  assert (Hnd : ((n # d) * inject_Z (Z.pos d) == inject_Z n)%Q).
  { rewrite (Qmake_Qdiv n d). field. unfold Qeq; simpl; lia. }
  assert (HD : (0 < inject_Z (Z.pos d))%Q) by (unfold Qlt; simpl; lia).
  set (x := (n # d)%Q) in *. set (D := inject_Z (Z.pos d)) in *.
  set (N := inject_Z n) in *. set (A := (2 ^ a)%Q) in *. set (B := (2 ^ b)%Q) in *.
  set (E := (2 ^ (a - b))%Q) in *.
  assert (Hup : (x < 2 * E)%Q).
  { apply (Qmult_lt_r _ _ D HD). nra. }
  assert (Hlo : (E < 2 * x)%Q).
  { apply (Qmult_lt_r _ _ D HD). nra. }
  destruct (Qle_bool E x) eqn:Hc.
  - apply Qle_bool_iff in Hc. split; [done|]. by rewrite double_pow2_succ.
  - assert (Hlt : (x < E)%Q).
    { apply Qnot_le_lt. intros Hle. apply Qle_bool_iff in Hle. congruence. }
    replace (a - b - 1 + 1) with (a - b) by lia. split; [|done].
    assert (HE2 : (2 * 2 ^ (a - b - 1) == E)%Q).
    { rewrite <- double_pow2_succ. by replace (a - b - 1 + 1) with (a - b) by lia. }
    lra.
Qed.

Lemma double_exponent_unique x e :
  (2 ^ e <= x)%Q → (x < 2 ^ (e + 1))%Q → Double.exponent x = e.
Proof.
  intros H1 H2.
  assert (Hx : (0 < x)%Q) by (pose proof (double_pow2_pos e); lra).
  destruct (double_exponent_spec x Hx) as [H3 H4].
  assert (Double.exponent x < e + 1).
  { apply (Qpower_lt_compat_l_inv 2); [lra|done]. }
  assert (e < Double.exponent x + 1).
  { apply (Qpower_lt_compat_l_inv 2); [lra|done]. }
  lia.
Qed.

Lemma double_exponent_compat x y :
  (0 < x)%Q → (x == y)%Q → Double.exponent x = Double.exponent y.
Proof.
  intros Hx Hxy. destruct (double_exponent_spec x Hx) as [H1 H2].
  symmetry. apply double_exponent_unique; by rewrite <- Hxy.
Qed.

Lemma double_exponent_mono x y :
  (0 < x)%Q → (x <= y)%Q → Double.exponent x <= Double.exponent y.
Proof.
  intros Hx Hxy.
  destruct (double_exponent_spec x Hx) as [H1 _].
  destruct (double_exponent_spec y ltac:(lra)) as [_ H2].
  assert (Double.exponent x < Double.exponent y + 1); [|lia].
  apply (Qpower_lt_compat_l_inv 2); [lra|done].
Qed.

(** What rounding a positive number comes to: an integer significand
    between [2^52] and [2^53], times the unit in the last place. *)
Lemma double_nearest_positive_spec x :
  (0 < x)%Q →
  let ulp := (2 ^ (Double.exponent x - 52))%Q in
  let m := Double.round_half_even (x / ulp) in
  (Double.nearest_positive x == inject_Z m * ulp)%Q
  ∧ 2 ^ 52 <= m <= 2 ^ 53
  ∧ (0 < ulp)%Q
  ∧ ((inject_Z m - (1 # 2)) * ulp <= x)%Q
  ∧ (x <= (inject_Z m + (1 # 2)) * ulp)%Q.
Proof.
  intros Hx ulp m. destruct (double_exponent_spec x Hx) as [H1 H2].
  set (e := Double.exponent x) in *.
  pose proof (double_pow2_pos (e - 52)) as Hu. fold ulp in Hu.
  assert (He : (2 ^ e == 2 ^ 52 * ulp)%Q).
  { unfold ulp. rewrite <- double_pow2_plus. by replace (52 + (e - 52)) with e by lia. }
  assert (He' : (2 ^ (e + 1) == 2 ^ 53 * ulp)%Q).
  { unfold ulp. rewrite <- double_pow2_plus. by replace (53 + (e - 52)) with (e + 1) by lia. }
  assert (Ht : (x == x / ulp * ulp)%Q) by (field; lra).
  assert (Ht1 : (2 ^ 52 <= x / ulp)%Q).
  { apply Qle_shift_div_l; [done|]. by rewrite <- He. }
  assert (Ht2 : (x / ulp <= 2 ^ 53)%Q).
  { apply Qle_shift_div_r; [done|]. rewrite <- He'. lra. }
  split_and!.
  - unfold Double.nearest_positive. apply Qred_correct.
  - apply double_round_mono in Ht1.
    by rewrite (double_round_compat _ _ (double_pow2_Z 52 ltac:(lia))), double_round_Z in Ht1.
  - apply double_round_mono in Ht2.
    by rewrite (double_round_compat _ _ (double_pow2_Z 53 ltac:(lia))), double_round_Z in Ht2.
  - done.
  - destruct (double_round_bounds (x / ulp)) as [Hb _]. fold m in Hb.
    assert (Hx' : ((inject_Z m - (1 # 2)) * ulp <= x / ulp * ulp)%Q)
      by (apply Qmult_le_compat_r; lra).
    by rewrite <- Ht in Hx'.
  - destruct (double_round_bounds (x / ulp)) as [_ Hb]. fold m in Hb.
    assert (Hx' : (x / ulp * ulp <= (inject_Z m + (1 # 2)) * ulp)%Q)
      by (apply Qmult_le_compat_r; lra).
    by rewrite <- Ht in Hx'.
Qed.

(** A rounded number stays in its binade. *)
Lemma double_nearest_positive_binade x :
  (0 < x)%Q →
  (2 ^ Double.exponent x <= Double.nearest_positive x)%Q
  ∧ (Double.nearest_positive x <= 2 ^ (Double.exponent x + 1))%Q.
Proof.
  intros Hx. destruct (double_nearest_positive_spec x Hx) as (Hn & [Hm1 Hm2] & Hu & _).
  set (e := Double.exponent x) in *. set (ulp := (2 ^ (e - 52))%Q) in *.
  set (m := Double.round_half_even (x / ulp)) in *.
  assert (He : (2 ^ e == 2 ^ 52 * ulp)%Q).
  { unfold ulp. rewrite <- double_pow2_plus. by replace (52 + (e - 52)) with e by lia. }
  assert (He' : (2 ^ (e + 1) == 2 ^ 53 * ulp)%Q).
  { unfold ulp. rewrite <- double_pow2_plus. by replace (53 + (e - 52)) with (e + 1) by lia. }
  rewrite Zle_Qle in Hm1, Hm2. rewrite <- !double_pow2_Z in Hm1, Hm2 by lia.
  rewrite Hn, He, He'. split; nra.
Qed.

Lemma double_nearest_positive_compat x y :
  (0 < x)%Q → (x == y)%Q → Double.nearest_positive x = Double.nearest_positive y.
Proof.
  intros Hx Hxy. unfold Double.nearest_positive.
  rewrite <- (double_exponent_compat x y Hx Hxy).
  set (ulp := (2 ^ (Double.exponent x - 52))%Q).
  assert (Hr : Double.round_half_even (x / ulp) = Double.round_half_even (y / ulp)).
  { apply double_round_compat. by rewrite Hxy. }
  rewrite Hr. apply Qred_complete. reflexivity.
Qed.

Lemma double_nearest_positive_mono x y :
  (0 < x)%Q → (x <= y)%Q → (Double.nearest_positive x <= Double.nearest_positive y)%Q.
Proof.
  intros Hx Hxy.
  pose proof (double_exponent_mono x y Hx Hxy) as He.
  destruct (Z.eq_dec (Double.exponent x) (Double.exponent y)) as [Heq|Hne].
  - destruct (double_nearest_positive_spec x Hx) as (-> & _ & Hu & _).
    destruct (double_nearest_positive_spec y ltac:(lra)) as (-> & _ & _ & _).
    rewrite <- Heq. set (ulp := (2 ^ (Double.exponent x - 52))%Q) in *.
    assert (Hle : Double.round_half_even (x / ulp) <= Double.round_half_even (y / ulp)).
    { apply double_round_mono. apply Qle_shift_div_l; [done|].
      assert (x / ulp * ulp == x)%Q by (field; lra). lra. }
    rewrite Zle_Qle in Hle. nra.
  - destruct (double_nearest_positive_binade x Hx) as [_ H1].
    destruct (double_nearest_positive_binade y ltac:(lra)) as [H2 _].
    pose proof (double_pow2_le (Double.exponent x + 1) (Double.exponent y) ltac:(lia)).
    lra.
Qed.

(** A number with a significand of at most 53 bits is a double. *)
Lemma double_nearest_positive_exact x k j :
  0 < k < 2 ^ 53 → (x == inject_Z k * 2 ^ j)%Q → (Double.nearest_positive x == x)%Q.
Proof.
  intros [Hk0 Hk1] Hxk.
  pose proof (double_pow2_pos j) as Hj.
  assert (Hk0' : (0 < inject_Z k)%Q) by (by rewrite <- (Zlt_Qlt 0)).
  assert (Hx : (0 < x)%Q) by (rewrite Hxk; nra).
  destruct (double_exponent_spec x Hx) as [H1 H2].
  destruct (double_nearest_positive_spec x Hx) as (-> & _ & Hu & _).
  set (e := Double.exponent x) in *. set (ulp := (2 ^ (e - 52))%Q) in *.
  assert (He : e - 52 <= j).
  { assert (e < 53 + j); [|lia].
    apply (Qpower_lt_compat_l_inv 2); [|done].
    rewrite double_pow2_plus. rewrite Zlt_Qlt, <- double_pow2_Z in Hk1 by lia. nra. }
  assert (Hg : (2 ^ j == inject_Z (2 ^ (j - (e - 52))) * ulp)%Q).
  { rewrite <- double_pow2_Z by lia. unfold ulp. rewrite <- double_pow2_plus.
    by replace (j - (e - 52) + (e - 52)) with j by lia. }
  assert (Ht : (x / ulp == inject_Z (k * 2 ^ (j - (e - 52))))%Q).
  { rewrite inject_Z_mult, Hxk, Hg. field. lra. }
  rewrite (double_round_compat _ _ Ht), double_round_Z.
  rewrite inject_Z_mult, Hxk, Hg. ring.
Qed.

Lemma double_nearest_positive_pow2 e : (Double.nearest_positive (2 ^ e) == 2 ^ e)%Q.
Proof.
  apply (double_nearest_positive_exact _ 1 e); [split; [lia|by vm_compute]|].
  change (inject_Z 1) with 1%Q. ring.
Qed.

(** *** The double nearest to a number that is not negative *)

Lemma double_nearest_pos x : (0 < x)%Q → Double.nearest x = Double.nearest_positive x.
Proof.
  intros Hx. unfold Double.nearest. destruct x as [[|n|n] d]; try done.
Qed.

Lemma double_nearest_zero x : (x == 0)%Q → Double.nearest x = 0%Q.
Proof.
  intros Hx. unfold Double.nearest. destruct x as [[|n|n] d]; try done.
Qed.

Lemma double_nearest_compat x y : (0 <= x)%Q → (x == y)%Q → Double.nearest x = Double.nearest y.
Proof.
  intros Hx Hxy. destruct (Qlt_le_dec 0 x) as [Hpos|Hz].
  - rewrite !double_nearest_pos by lra. by apply double_nearest_positive_compat.
  - rewrite !double_nearest_zero; [done|lra|lra].
Qed.

Lemma double_nearest_mono x y :
  (0 <= x)%Q → (x <= y)%Q → (Double.nearest x <= Double.nearest y)%Q.
Proof.
  intros Hx Hxy. destruct (Qlt_le_dec 0 x) as [Hpos|Hz].
  - rewrite !double_nearest_pos by lra. by apply double_nearest_positive_mono.
  - rewrite (double_nearest_zero x) by lra.
    destruct (Qlt_le_dec 0 y) as [Hy|Hy].
    + rewrite double_nearest_pos by done.
      destruct (double_nearest_positive_binade y Hy) as [H1 _].
      pose proof (double_pow2_pos (Double.exponent y)). lra.
    + rewrite double_nearest_zero; lra.
Qed.

Lemma double_nearest_nonneg x : (0 <= x)%Q → (0 <= Double.nearest x)%Q.
Proof.
  intros Hx. change 0%Q with (Double.nearest 0) at 1. by apply double_nearest_mono.
Qed.

Lemma double_nearest_positive_pos x : (0 < x)%Q → (0 < Double.nearest x)%Q.
Proof.
  intros Hx. rewrite double_nearest_pos by done.
  destruct (double_nearest_positive_binade x Hx) as [H1 _].
  pose proof (double_pow2_pos (Double.exponent x)). lra.
Qed.

(** An integer of at most 53 bits is a double. *)
Lemma double_nearest_Z n : 0 <= n <= 2 ^ 53 → (Double.nearest (inject_Z n) == inject_Z n)%Q.
Proof.
  intros [H0 H1].
  destruct (Z.eq_dec n 0) as [->|Hn0]; [done|].
  assert (Hpos : (0 < inject_Z n)%Q) by (rewrite <- (Zlt_Qlt 0); lia).
  rewrite double_nearest_pos by done.
  destruct (Z.eq_dec n (2 ^ 53)) as [->|Hn].
  - rewrite (double_nearest_positive_compat _ (2 ^ 53)%Q);
      [|done|by rewrite double_pow2_Z].
    rewrite double_nearest_positive_pow2. by rewrite double_pow2_Z.
  - apply (double_nearest_positive_exact _ n 0); [lia|]. change (2 ^ 0)%Q with 1%Q. ring.
Qed.

(** The error of rounding is at most half a unit in the last place, which
    is at most [2^-53] times the number. *)
Lemma double_nearest_error x :
  (0 <= x)%Q →
  (x - x * 2 ^ (-53) <= Double.nearest x)%Q ∧ (Double.nearest x <= x + x * 2 ^ (-53))%Q.
Proof.
  intros Hx0. destruct (Qlt_le_dec 0 x) as [Hx|Hz].
  2:{ rewrite double_nearest_zero by lra. assert (x == 0)%Q by lra.
      pose proof (double_pow2_pos (-53)). split; nra. }
  rewrite double_nearest_pos by done.
  destruct (double_exponent_spec x Hx) as [H1 _].
  destruct (double_nearest_positive_spec x Hx) as (-> & _ & Hu & Hlo & Hhi).
  set (e := Double.exponent x) in *. set (ulp := (2 ^ (e - 52))%Q) in *.
  assert (He : (ulp == 2 * (2 ^ e * 2 ^ (-53)))%Q).
  { unfold ulp. rewrite <- double_pow2_plus, <- double_pow2_succ.
    by replace (e + -53 + 1) with (e - 52) by lia. }
  pose proof (double_pow2_pos (-53)) as H53.
  pose proof (double_pow2_pos e) as He0.
  set (u := (2 ^ (-53))%Q) in *. set (E := (2 ^ e)%Q) in *.
  set (m := inject_Z (Double.round_half_even (x / ulp))) in *.
  clearbody m ulp u E.
  rewrite He in Hlo, Hhi. split; nra.
Qed.

(** The value of a double is kept in lowest terms. *)
Lemma double_nearest_positive_canonical x :
  Qred (Double.nearest_positive x) = Double.nearest_positive x.
Proof. unfold Double.nearest_positive. apply Qred_complete, Qred_correct. Qed.

(** A double is rounded to itself. *)
Lemma double_nearest_idempotent x :
  (0 <= x)%Q → Double.nearest (Double.nearest x) = Double.nearest x.
Proof.
  intros Hx0. destruct (Qlt_le_dec 0 x) as [Hx|Hz].
  2:{ by rewrite (double_nearest_zero x) by lra. }
  pose proof (double_nearest_positive_pos x Hx) as Hpos.
  rewrite (double_nearest_pos x Hx) in *.
  rewrite double_nearest_pos by done.
  destruct (double_nearest_positive_spec x Hx) as (Hn & [Hm1 Hm2] & Hu & _).
  set (e := Double.exponent x) in *. set (ulp := (2 ^ (e - 52))%Q) in *.
  set (m := Double.round_half_even (x / ulp)) in *.
  assert (Hexact : (Double.nearest_positive (Double.nearest_positive x)
                    == Double.nearest_positive x)%Q).
  { destruct (Z.eq_dec m (2 ^ 53)) as [Hm|Hm].
    - assert (Hp : (Double.nearest_positive x == 2 ^ (e + 1))%Q).
      { rewrite Hn, Hm, <- double_pow2_Z by lia. unfold ulp.
        rewrite <- double_pow2_plus. by replace (53 + (e - 52)) with (e + 1) by lia. }
      rewrite (double_nearest_positive_compat _ _ Hpos Hp), Hp.
      apply double_nearest_positive_pow2.
    - apply (double_nearest_positive_exact _ m (e - 52)); [lia|done]. }
  apply Qred_complete in Hexact.
  by rewrite !double_nearest_positive_canonical in Hexact.
Qed.

(** The relative error of rounding, with [2^-53] written out. *)
Lemma double_nearest_relative x :
  (0 <= x)%Q →
  (x - x * (1 # 9007199254740992) <= Double.nearest x)%Q
  ∧ (Double.nearest x <= x + x * (1 # 9007199254740992))%Q.
Proof.
  intros Hx. destruct (double_nearest_error x Hx) as [H1 H2].
  assert (Hu : (2 ^ (-53) == 1 # 9007199254740992)%Q) by reflexivity.
  rewrite Hu in H1, H2. done.
Qed.

(** *** Numbers of either sign *)




(** ** Part planning *)

Lemma planner_size_nonneg (f : File) : (0 <= inject_Z (Z.of_N (File.size f)))%Q.
Proof. rewrite <- (Zle_Qle 0). lia. Qed.

Lemma planner_quotient_nonneg o f :
  (0 <= inject_Z (Z.of_N (File.size f)) / inject_Z (Z.pos (maxNumParts o)))%Q.
Proof.
  apply Qle_shift_div_l.
  - by rewrite <- (Zlt_Qlt 0).
  - pose proof (planner_size_nonneg f). lra.
Qed.

(** The part size is at least one byte. *)
Lemma planner_partSizeInBytes_ge_1 o f : (1 <= Planner.partSizeInBytes o f)%Q.
Proof.
  unfold Planner.partSizeInBytes, Double.add, Double.div.
  pose proof (double_nearest_nonneg _ (planner_quotient_nonneg o f)) as Hq.
  assert (H1 : (1 <= inject_Z (Z.pos (partMinSizeBytes o)))%Q).
  { rewrite <- (Zle_Qle 1). lia. }
  rewrite <- (double_nearest_Z 1) by (split; [lia|by vm_compute]).
  apply double_nearest_mono; [done|]. change (inject_Z 1) with 1%Q. lra.
Qed.

Lemma planner_partSizeInBytes_pos o f : (0 < Planner.partSizeInBytes o f)%Q.
Proof. pose proof (planner_partSizeInBytes_ge_1 o f). lra. Qed.

Lemma planner_numParts_nonneg o f : 0 <= Planner.numParts o f.
Proof.
  unfold Planner.numParts, Math_ceil, Double.div.
  transitivity (Qceiling (inject_Z 0)); [rewrite Qceiling_Z; lia|].
  apply Qceiling_resp_le, double_nearest_nonneg.
  apply Qle_shift_div_l; [apply planner_partSizeInBytes_pos|].
  pose proof (planner_size_nonneg f). lra.
Qed.

Lemma planner_numParts_pos o f : File.size f ≠ 0%N → 1 <= Planner.numParts o f.
Proof.
  intros Hs. unfold Planner.numParts, Math_ceil, Double.div.
  set (x := (inject_Z (Z.of_N (File.size f)) / Planner.partSizeInBytes o f)%Q).
  assert (Hx : (0 < x)%Q).
  { unfold x. apply Qlt_shift_div_l; [apply planner_partSizeInBytes_pos|].
    rewrite Qmult_0_l, <- (Zlt_Qlt 0). lia. }
  apply double_nearest_positive_pos in Hx.
  pose proof (Qle_ceiling (Double.nearest x)) as Hc.
  assert (Hz : (0 < inject_Z (Qceiling (Double.nearest x)))%Q) by lra.
  rewrite <- (Zlt_Qlt 0) in Hz. lia.
Qed.

Lemma planner_numParts_empty o f : File.size f = 0%N → Planner.numParts o f = 0.
Proof.
  intros Hs. unfold Planner.numParts, Math_ceil, Double.div. rewrite Hs. simpl Z.of_N.
  rewrite double_nearest_zero; [done|]. unfold Qdiv. change (inject_Z 0) with 0%Q. ring.
Qed.

(** Rounded as it is, the part size is at least the exact quotient
    [file.size / maxNumParts], as long as that quotient is below [2^53]. *)
Lemma planner_partSizeInBytes_ge_quotient o f :
  Z.of_N (File.size f) <= Double.MAX_SAFE_INTEGER →
  (inject_Z (Z.of_N (File.size f)) / inject_Z (Z.pos (maxNumParts o))
   <= Planner.partSizeInBytes o f)%Q.
Proof.
  intros Hsize. unfold Planner.partSizeInBytes, Double.add, Double.div.
  set (x := (inject_Z (Z.of_N (File.size f)) / inject_Z (Z.pos (maxNumParts o)))%Q).
  pose proof (planner_quotient_nonneg o f) as Hx0. fold x in Hx0.
  assert (Hx1 : (x <= inject_Z Double.MAX_SAFE_INTEGER)%Q).
  { unfold x. apply Qle_shift_div_r; [by rewrite <- (Zlt_Qlt 0)|].
    rewrite Zle_Qle in Hsize.
    assert (H1 : (1 <= inject_Z (Z.pos (maxNumParts o)))%Q) by (rewrite <- (Zle_Qle 1); lia).
    assert (H2 : (0 <= inject_Z Double.MAX_SAFE_INTEGER)%Q) by (by rewrite <- (Zle_Qle 0)).
    nra. }
  (* the integers below and above the quotient are doubles *)
  assert (Hfloor : 0 <= Qfloor x <= Double.MAX_SAFE_INTEGER).
  { split.
    - rewrite <- (Qfloor_Z 0). by apply Qfloor_resp_le.
    - rewrite <- (Qfloor_Z Double.MAX_SAFE_INTEGER). by apply Qfloor_resp_le. }
  assert (Hy : (inject_Z (Qfloor x) <= Double.nearest x)%Q).
  { rewrite <- (double_nearest_Z (Qfloor x)) by (unfold Double.MAX_SAFE_INTEGER in *; lia).
    apply double_nearest_mono; [|apply Qfloor_le].
    rewrite <- (Zle_Qle 0). lia. }
  assert (Hp : (1 <= inject_Z (Z.pos (partMinSizeBytes o)))%Q).
  { rewrite <- (Zle_Qle 1). lia. }
  apply Qle_trans with (inject_Z (Qfloor x + 1)); [apply Qlt_le_weak, Qlt_floor|].
  rewrite <- (double_nearest_Z (Qfloor x + 1)) by (unfold Double.MAX_SAFE_INTEGER in *; lia).
  apply double_nearest_mono.
  - rewrite <- (Zle_Qle 0). lia.
  - rewrite inject_Z_plus. change (inject_Z 1) with 1%Q. lra.
Qed.

(** The part size is at least [partMinSizeBytes]. *)
Lemma planner_partSizeInBytes_ge_min o f :
  Z.pos (partMinSizeBytes o) <= Double.MAX_SAFE_INTEGER →
  (inject_Z (Z.pos (partMinSizeBytes o)) <= Planner.partSizeInBytes o f)%Q.
Proof.
  intros Hpm. unfold Planner.partSizeInBytes, Double.add, Double.div.
  pose proof (double_nearest_nonneg _ (planner_quotient_nonneg o f)) as Hq.
  rewrite <- (double_nearest_Z (Z.pos (partMinSizeBytes o))) at 1
    by (unfold Double.MAX_SAFE_INTEGER in *; lia).
  apply double_nearest_mono; [|lra]. by rewrite <- (Zle_Qle 0).
Qed.

(** C5, as stated, fails: the claim has the two formulas in exact
    arithmetic, the code in doubles.  With a minimum part size of 8 MiB and
    at most 15 parts, a file of 80 MiB has a part size of exactly
    [40 MiB / 3], so six parts; the double nearest to that is a little
    smaller, the quotient comes out as [6 + 2^-50], and the code plans
    seven parts. *)
Lemma planner_rounding_adds_a_part :
  let o := {| concurrencyLimit := 6; partMinSizeBytes := 8 * ONE_MB_IN_BYTES;
              maxNumParts := 15 |} in
  let f := {| File.name := "a.mov"; File.size := 83886080; File.type := "video/quicktime" |} in
  Planner.exact_numParts o f = 6
  ∧ Planner.numParts o f = 7
  ∧ (Double.div (inject_Z 83886080) (Planner.partSizeInBytes o f) == 6 + 2 ^ (-50))%Q.
Proof. by vm_compute. Qed.

(** C5, amended: [uploadMultipart] computes the part size as
    [partMinSizeBytes + file.size / maxNumParts] and the number of parts as
    the ceiling of [file.size / partSizeInBytes], each operation giving the
    nearest double; whenever [file.size] and [maxNumParts] are safe
    integers and [partMinSizeBytes] is a positive integer, the part size is
    at least the exact [file.size / maxNumParts] and the number of parts is
    at most [maxNumParts]. *)
Theorem planner_numParts_le_maxNumParts (o : Options) (f : File) :
  Z.of_N (File.size f) <= Double.MAX_SAFE_INTEGER →
  Z.pos (maxNumParts o) <= Double.MAX_SAFE_INTEGER →
  Planner.partSizeInBytes o f
  = Double.nearest
      (inject_Z (Z.pos (partMinSizeBytes o))
       + Double.nearest
           (inject_Z (Z.of_N (File.size f)) / inject_Z (Z.pos (maxNumParts o))))
  ∧ Planner.numParts o f
    = Qceiling (Double.nearest (inject_Z (Z.of_N (File.size f)) / Planner.partSizeInBytes o f))
  ∧ (inject_Z (Z.of_N (File.size f)) / inject_Z (Z.pos (maxNumParts o))
     <= Planner.partSizeInBytes o f)%Q
  ∧ 0 <= Planner.numParts o f <= Z.pos (maxNumParts o).
Proof.
  intros Hsize Hmax. split; [reflexivity|]. split; [reflexivity|].
  pose proof (planner_partSizeInBytes_ge_quotient o f Hsize) as Hps.
  split; [done|]. split; [apply planner_numParts_nonneg|].
  unfold Planner.numParts, Math_ceil, Double.div.
  rewrite <- (Qceiling_Z (Z.pos (maxNumParts o))).
  apply Qceiling_resp_le.
  rewrite <- (double_nearest_Z (Z.pos (maxNumParts o)))
    by (unfold Double.MAX_SAFE_INTEGER in *; lia).
  pose proof (planner_partSizeInBytes_pos o f) as Hpos.
  pose proof (planner_size_nonneg f) as Hs0.
  assert (Hm : (0 < inject_Z (Z.pos (maxNumParts o)))%Q) by (by rewrite <- (Zlt_Qlt 0)).
  apply double_nearest_mono.
  - apply Qle_shift_div_l; lra.
  - apply Qle_shift_div_r; [done|].
    set (s := inject_Z (Z.of_N (File.size f))) in *.
    set (m := inject_Z (Z.pos (maxNumParts o))) in *.
    set (ps := Planner.partSizeInBytes o f) in *.
    assert (Hq : (s == s / m * m)%Q) by (field; lra).
    rewrite Hq. rewrite (Qmult_comm m ps). apply Qmult_le_compat_r; lra.
Qed.

(** The amended C5 on the spec's example, 100 MiB with the default
    options: ten parts. *)
Lemma planner_numParts_le_maxNumParts_witness :
  0 <= Planner.numParts defaultOptions
         {| File.name := "a.mov"; File.size := 104857600; File.type := "video/quicktime" |}
    <= 96.
Proof.
  refine (proj2 (proj2 (proj2
    (planner_numParts_le_maxNumParts defaultOptions
       {| File.name := "a.mov"; File.size := 104857600; File.type := "video/quicktime" |}
       _ _)))); by vm_compute.
Defined.

(** The spec's example: 100 MiB with the default options. *)
Example planner_100MiB :
  Planner.numParts defaultOptions
    {| File.name := "a.mov"; File.size := 104857600; File.type := "video/quicktime" |} = 10.
Proof. vm_compute. reflexivity. Qed.

(** ** The throttle *)

Section ThrottleFacts.
Context {K : Type} `{EqDecision K}.
Implicit Types (s : Throttle.state K) (k t : K) (ws : list K).

Lemma throttle_filter_absent (l : list K) t :
  t ∉ l → filter (λ k, k ≠ t) l = l.
Proof.
  induction l as [|y l IH]; intros Ht; [done|].
  apply not_elem_of_cons in Ht as [Hy Ht].
  rewrite filter_cons. destruct (decide (y ≠ t)) as [_|Hn].
  - f_equal. by apply IH.
  - exfalso. apply Hn. congruence.
Qed.

Lemma throttle_filter_remove (l : list K) t :
  NoDup l → t ∈ l → S (length (filter (λ k, k ≠ t) l)) = length l.
Proof.
  induction 1 as [|x l Hx Hl IH]; intros Ht.
  - by apply elem_of_nil in Ht.
  - rewrite filter_cons. destruct (decide (x ≠ t)) as [Hne|Heq].
    + simpl. f_equal. apply IH. apply elem_of_cons in Ht as [->|]; done.
    + assert (x = t) as -> by (destruct (decide (x = t)); [done|contradiction]).
      simpl. f_equal. by rewrite throttle_filter_absent.
Qed.

(** With no rejected promise around, waking [ws] launches as many of them as
    there are free slots, oldest first, and leaves the others suspended in the
    order they were. *)
Lemma throttle_wake_spec limit ws s :
  Throttle.rejected s = [] →
  let n := Nat.min (limit - length (Throttle.executing s)) (length ws) in
  Throttle.wake limit ws s =
    ({| Throttle.executing := Throttle.executing s ++ take n ws;
        Throttle.rejected := [];
        Throttle.waiting := Throttle.waiting s ++ drop n ws;
        Throttle.invoked := Throttle.invoked s ++ take n ws;
        Throttle.abandoned := Throttle.abandoned s |}, take n ws).
Proof.
  revert s. induction ws as [|k ws IH]; intros s Hrej n.
  - subst n. rewrite Nat.min_0_r. simpl. rewrite !app_nil_r.
    destruct s; simpl in *; by subst.
  - simpl. unfold Throttle.enter.
    destruct (limit <=? length (Throttle.executing s))%nat eqn:Hfull.
    + apply Nat.leb_le in Hfull.
      rewrite Hrej. rewrite bool_decide_eq_false_2.
      2:{ intros HE. apply Exists_exists in HE as (p & _ & Hp). by apply elem_of_nil in Hp. }
      rewrite IH by done. simpl.
      assert (n = 0%nat) as -> by (subst n; lia).
      replace (limit - length (Throttle.executing s))%nat with 0%nat by lia.
      simpl. rewrite !app_nil_r, <- app_assoc. done.
    + apply Nat.leb_gt in Hfull.
      rewrite IH by done. simpl. rewrite length_app. simpl.
      assert (n = S (Nat.min (limit - (length (Throttle.executing s) + 1)) (length ws))) as ->
        by (subst n; simpl length; lia).
      simpl. rewrite <- !app_assoc. done.
Qed.

End ThrottleFacts.

Section ThrottleInvariant.
Context {K : Type} `{EqDecision K}.
Implicit Types (s : Throttle.state K) (k t : K) (ws : list K).

Lemma throttle_nodup_insert (a b c : list K) k :
  NoDup (a ++ b ++ c) → k ∉ a ++ b ++ c →
  NoDup ((a ++ [k]) ++ b ++ c) ∧ NoDup (a ++ (b ++ [k]) ++ c)
  ∧ NoDup (a ++ b ++ c ++ [k]).
Proof.
  intros Hn Hk. pose proof (NoDup_cons_2 _ _ Hk Hn) as Hc.
  assert (P1 : (a ++ [k]) ++ b ++ c ≡ₚ k :: a ++ b ++ c).
  { rewrite <- app_assoc. simpl. by rewrite <- Permutation_middle. }
  assert (P2 : a ++ (b ++ [k]) ++ c ≡ₚ k :: a ++ b ++ c).
  { rewrite <- app_assoc. simpl. rewrite (app_assoc a b).
    rewrite <- Permutation_middle. by rewrite <- app_assoc. }
  assert (P3 : a ++ b ++ c ++ [k] ≡ₚ k :: a ++ b ++ c).
  { rewrite !app_assoc. by rewrite <- Permutation_cons_append. }
  by rewrite P1, P2, P3.
Qed.

Lemma throttle_empty_invariant limit : Throttle.invariant limit (@Throttle.empty K).
Proof.
  split; simpl; try done; try lia; try apply NoDup_nil_2.
Qed.

Lemma throttle_no_rejected limit s :
  Throttle.invariant limit s →
  ¬ Exists (λ p, p ∈ Throttle.rejected s) (Throttle.executing s) →
  Throttle.rejected s = [].
Proof.
  intros Hi Hex. destruct (Throttle.rejected s) as [|p l] eqn:E; [done|].
  exfalso. apply Hex. apply Exists_exists. exists p. split.
  - apply (Throttle.inv_rejected _ _ Hi). rewrite E. apply elem_of_cons; by left.
  - apply elem_of_cons; by left.
Qed.

Lemma throttle_enter_invariant limit k s :
  Throttle.invariant limit s →
  k ∉ Throttle.invoked s ++ Throttle.waiting s ++ Throttle.abandoned s →
  Throttle.invariant limit (Throttle.enter limit k s).1.
Proof.
  intros Hi Hk. pose proof Hi as [Hb Hr He Ho Hs Hw].
  destruct (throttle_nodup_insert _ _ _ _ Ho Hk) as (N1 & N2 & N3).
  unfold Throttle.enter.
  destruct (limit <=? length (Throttle.executing s))%nat eqn:Hfull.
  - apply Nat.leb_le in Hfull.
    destruct (bool_decide _) eqn:Hex; simpl.
    + split; simpl; done.
    + apply bool_decide_eq_false in Hex.
      pose proof (throttle_no_rejected _ _ Hi Hex) as Hnorej.
      split; simpl; try done.
      intros _. split; [lia|done].
  - apply Nat.leb_gt in Hfull. simpl.
    assert (Hk' : k ∉ Throttle.invoked s)
      by (intros Hin; apply Hk, elem_of_app; by left).
    split; simpl; try done.
    + rewrite length_app. simpl. lia.
    + intros x Hx. apply elem_of_app. left. by apply Hr.
    + intros x Hx. apply elem_of_app in Hx as [Hx|Hx]; apply elem_of_app;
        [left; by apply He|by right].
    + apply NoDup_app. split_and!; [done| |apply NoDup_singleton].
      intros x Hx Hx'. apply list_elem_of_singleton in Hx' as ->.
      apply Hk'. by apply He.
    + intros Hne. destruct (Hw Hne) as [Hlen _]. lia.
Qed.

(** A task that fulfils while callers are suspended: its slot goes to the
    oldest of them, and to no one else. *)
Lemma throttle_fulfil_releases limit t s w ws :
  Throttle.invariant limit s →
  t ∈ Throttle.outstanding s →
  Throttle.waiting s = w :: ws →
  Throttle.fulfil limit t s =
    ({| Throttle.executing := filter (λ k, k ≠ t) (Throttle.executing s) ++ [w];
        Throttle.rejected := [];
        Throttle.waiting := ws;
        Throttle.invoked := Throttle.invoked s ++ [w];
        Throttle.abandoned := Throttle.abandoned s |}, [w]).
Proof.
  intros [Hb Hr He Ho Hs Hw] Ht Hws. unfold Throttle.fulfil.
  rewrite bool_decide_eq_true_2 by done.
  destruct Hw as [Hlen Hrej]; [by rewrite Hws|].
  apply list_elem_of_filter in Ht as [_ Ht].
  pose proof (throttle_filter_remove _ _ Hs Ht) as Hf.
  rewrite throttle_wake_spec by (simpl; done). simpl.
  replace (limit - length (filter (λ k, k ≠ t) (Throttle.executing s)))%nat
    with 1%nat by lia.
  rewrite Hws. simpl. done.
Qed.

Lemma throttle_fulfil_idle limit t s :
  Throttle.waiting s = [] →
  Throttle.fulfil limit t s =
    (if bool_decide (t ∈ Throttle.outstanding s) then
       {| Throttle.executing := filter (λ k, k ≠ t) (Throttle.executing s);
          Throttle.rejected := Throttle.rejected s;
          Throttle.waiting := [];
          Throttle.invoked := Throttle.invoked s;
          Throttle.abandoned := Throttle.abandoned s |}
     else s, []).
Proof.
  intros Hws. unfold Throttle.fulfil. rewrite Hws. simpl.
  by destruct (bool_decide _).
Qed.

Lemma throttle_fulfil_invariant limit t s :
  Throttle.invariant limit s →
  Throttle.invariant limit (Throttle.fulfil limit t s).1.
Proof.
  intros Hi. pose proof Hi as [Hb Hr He Ho Hs Hw].
  destruct (decide (t ∈ Throttle.outstanding s)) as [Ht|Ht].
  2:{ unfold Throttle.fulfil. by rewrite bool_decide_eq_false_2. }
  pose proof Ht as Ht'. apply list_elem_of_filter in Ht' as [Htr Hte].
  destruct (Throttle.waiting s) as [|w ws] eqn:Hws.
  - rewrite throttle_fulfil_idle, bool_decide_eq_true_2 by done. simpl.
    split; simpl; try done.
    + pose proof (length_filter (λ k, k ≠ t) (Throttle.executing s)). lia.
    + intros x Hx. apply list_elem_of_filter. split; [congruence|by apply Hr].
    + intros x Hx. apply list_elem_of_filter in Hx as [_ Hx]. by apply He.
    + by apply NoDup_filter.
  - rewrite (throttle_fulfil_releases _ _ _ w ws) by done. simpl.
    destruct Hw as [Hlen Hrej]; [done|].
    pose proof (throttle_filter_remove _ _ Hs Hte) as Hf.
    assert (Hwn : w ∉ Throttle.invoked s).
    { apply NoDup_app in Ho as (_ & Hd & _). intros Hin. apply (Hd w Hin).
      apply elem_of_app. left. apply elem_of_cons; by left. }
    split; simpl.
    + rewrite length_app. simpl. lia.
    + intros x Hx. by apply elem_of_nil in Hx.
    + intros x Hx. apply elem_of_app in Hx as [Hx|Hx]; apply elem_of_app.
      * left. apply list_elem_of_filter in Hx as [_ Hx]. by apply He.
      * by right.
    + rewrite <- app_assoc. exact Ho.
    + apply NoDup_app. split_and!; [by apply NoDup_filter| |apply NoDup_singleton].
      intros x Hx Hx'. apply list_elem_of_singleton in Hx' as ->.
      apply list_elem_of_filter in Hx as [_ Hx]. apply Hwn. by apply He.
    + intros _. split; [|done]. rewrite length_app. simpl. lia.
Qed.

Lemma throttle_reject_invariant limit t s :
  Throttle.invariant limit s →
  Throttle.invariant limit (Throttle.reject t s).1.
Proof.
  intros Hi. pose proof Hi as [Hb Hr He Ho Hs Hw]. unfold Throttle.reject.
  destruct (bool_decide _) eqn:Ht; [|done].
  apply bool_decide_eq_true in Ht. apply list_elem_of_filter in Ht as [Htr Hte].
  split; simpl; try done.
  - intros x Hx. apply elem_of_app in Hx as [Hx|Hx]; [by apply Hr|].
    by apply list_elem_of_singleton in Hx as ->.
  - eapply NoDup_Permutation_proper; [|exact Ho].
    f_equiv. apply Permutation_app_comm.
Qed.

End ThrottleInvariant.

(** *** Runs of the throttle on its own *)

Lemma throttle_enter_full {K} `{EqDecision K} limit (k : K) (s : Throttle.state K) :
  Throttle.invariant limit s → Throttle.waiting s ≠ [] →
  Throttle.enter limit k s =
    ({| Throttle.executing := Throttle.executing s; Throttle.rejected := Throttle.rejected s;
        Throttle.waiting := Throttle.waiting s ++ [k];
        Throttle.invoked := Throttle.invoked s; Throttle.abandoned := Throttle.abandoned s |},
     Throttle.Suspended).
Proof.
  intros Hi Hne. destruct (Throttle.inv_waiting _ _ Hi Hne) as [Hlen Hrej].
  unfold Throttle.enter. rewrite Hlen, Nat.leb_refl, Hrej.
  rewrite bool_decide_eq_false_2; [done|].
  intros HE. apply Exists_exists in HE as (p & _ & Hp). by apply elem_of_nil in Hp.
Qed.

Lemma throttle_start_invariant limit : Throttle.run_invariant limit Throttle.start.
Proof.
  split; simpl.
  - apply throttle_empty_invariant.
  - intros k. split; [intros Hk; by apply elem_of_nil in Hk|lia].
  - intros j k Hj. by apply elem_of_nil in Hj.
  - constructor.
Qed.

Lemma throttle_sorted_snoc (l : list nat) (k : nat) :
  StronglySorted lt l → (∀ j, j ∈ l → (j < k)%nat) → StronglySorted lt (l ++ [k]).
Proof.
  induction 1 as [|x l Hl IH Hx]; intros Hk; simpl.
  - repeat constructor.
  - constructor.
    + apply IH. intros j Hj. apply Hk. apply elem_of_cons; by right.
    + apply Forall_app. split; [done|]. constructor; [|constructor].
      apply Hk. apply elem_of_cons; by left.
Qed.

Lemma throttle_step_invariant limit r e :
  Throttle.run_invariant limit r → Throttle.run_invariant limit (Throttle.step limit r e).
Proof.
  intros [Hi Hsub Hord Hsort]. destruct e as [|t|t]; simpl.
  - (* Submit *)
    assert (Hfresh : Throttle.submitted r ∉
              Throttle.invoked (Throttle.th r) ++ Throttle.waiting (Throttle.th r)
              ++ Throttle.abandoned (Throttle.th r)).
    { intros Hin. apply Hsub in Hin. lia. }
    split; simpl.
    + by apply throttle_enter_invariant.
    + intros k. specialize (Hsub k). rewrite !elem_of_app in Hsub.
      unfold Throttle.enter.
      repeat (case_match; simpl); rewrite ?elem_of_app, ?list_elem_of_singleton;
        (split; [intros Hk; destruct_or!; subst; try lia; apply Nat.lt_lt_succ_r, Hsub; tauto
                |intros Hk; destruct (decide (k = Throttle.submitted r)); [tauto|];
                 assert (Hlt : (k < Throttle.submitted r)%nat) by lia;
                 apply Hsub in Hlt; tauto]).
    + destruct (Throttle.waiting (Throttle.th r)) as [|w ws] eqn:Hws.
      * unfold Throttle.enter. repeat (case_match; simpl); rewrite ?Hws; simpl.
        -- intros j k Hj. by apply elem_of_nil in Hj.
        -- intros j k Hj Hk. apply list_elem_of_singleton in Hj as ->.
           apply Hsub. apply elem_of_app; by left.
        -- intros j k Hj. by apply elem_of_nil in Hj.
      * rewrite throttle_enter_full; [|done|by rewrite Hws]. simpl.
        intros j k Hj Hk. rewrite Hws in Hj. apply elem_of_app in Hj as [Hj|Hj].
        -- by apply Hord.
        -- apply list_elem_of_singleton in Hj as ->.
           apply Hsub. apply elem_of_app; by left.
    + unfold Throttle.enter. repeat (case_match; simpl); try done.
      apply throttle_sorted_snoc; [done|].
      intros j Hj. apply Hsub. apply elem_of_app; right. apply elem_of_app; by left.
  - (* Fulfil *)
    destruct (decide (t ∈ Throttle.outstanding (Throttle.th r))) as [Ht|Ht].
    2:{ unfold Throttle.fulfil. rewrite bool_decide_eq_false_2 by done. by split. }
    destruct (Throttle.waiting (Throttle.th r)) as [|w ws] eqn:Hws.
    + pose proof (throttle_fulfil_invariant limit t _ Hi) as Hi'.
      rewrite throttle_fulfil_idle, bool_decide_eq_true_2 in * by done. simpl in *.
      split; simpl; done.
    + pose proof (throttle_fulfil_invariant limit t _ Hi) as Hi'.
      rewrite (throttle_fulfil_releases _ _ _ w ws) in * by done. simpl in *.
      apply StronglySorted_inv in Hsort as [Hsort Hw].
      split; simpl; try done.
      * intros k. rewrite <- Hsub, <- !app_assoc. done.
      * intros j k Hj Hk. apply elem_of_app in Hk as [Hk|Hk].
        -- apply Hord; [apply elem_of_cons; by right|done].
        -- apply list_elem_of_singleton in Hk as ->.
           rewrite Forall_forall in Hw. by apply Hw.
  - (* Reject *)
    pose proof (throttle_reject_invariant limit t _ Hi) as Hi'.
    unfold Throttle.reject in *. destruct (bool_decide _); [|by split].
    simpl in *. split; simpl; try done.
    + intros k. rewrite <- Hsub. rewrite !elem_of_app. tauto.
    + intros j k Hj. by apply elem_of_nil in Hj.
    + constructor.
Qed.

Lemma throttle_fold_invariant limit es r :
  Throttle.run_invariant limit r →
  Throttle.run_invariant limit (fold_left (Throttle.step limit) es r).
Proof.
  revert r. induction es as [|e es IH]; intros r Hr; simpl; [done|].
  by apply IH, throttle_step_invariant.
Qed.

Lemma throttle_run_invariant limit es :
  Throttle.run_invariant limit (Throttle.run limit es).
Proof. apply throttle_fold_invariant, throttle_start_invariant. Qed.

Lemma throttle_outstanding_length {K} `{EqDecision K} limit (s : Throttle.state K) :
  Throttle.invariant limit s → (length (Throttle.outstanding s) <= limit)%nat.
Proof.
  intros Hi. unfold Throttle.outstanding.
  pose proof (length_filter (λ k, k ∉ Throttle.rejected s) (Throttle.executing s)).
  pose proof (Throttle.inv_bound _ _ Hi). lia.
Qed.

(** Four factories under a limit of two: the third and fourth wait, and are
    called in that order as the first two fulfil. *)
Example throttle_four_under_two :
  Throttle.invoked
    (Throttle.th (Throttle.run 2
       [Throttle.Submit; Throttle.Submit; Throttle.Submit; Throttle.Submit;
        Throttle.Fulfil 1; Throttle.Fulfil 0]))
  = [0; 1; 2; 3]%nat.
Proof. reflexivity. Qed.

(** When no task rejects, nothing is abandoned and the factories called so
    far, followed by the suspended callers, are the submitted ones in order. *)
Lemma throttle_all_fulfil_exact limit es r :
  Throttle.run_invariant limit r →
  Throttle.rejected (Throttle.th r) = [] →
  Throttle.invoked (Throttle.th r) ++ Throttle.waiting (Throttle.th r)
    = seq 0 (Throttle.submitted r) →
  Throttle.all_fulfil es →
  let r' := fold_left (Throttle.step limit) es r in
  Throttle.rejected (Throttle.th r') = []
  ∧ Throttle.invoked (Throttle.th r') ++ Throttle.waiting (Throttle.th r')
    = seq 0 (Throttle.submitted r').
Proof.
  revert r. induction es as [|e es IH]; intros r Hr Hrej Hex Hall; simpl; [done|].
  apply Forall_cons in Hall as [He Hall].
  apply IH; [by apply throttle_step_invariant| | |done].
  - destruct e as [|t|t]; simpl; [| |done].
    + unfold Throttle.enter. by repeat (case_match; simpl).
    + destruct (decide (t ∈ Throttle.outstanding (Throttle.th r))) as [Ht|Ht].
      2:{ unfold Throttle.fulfil. by rewrite bool_decide_eq_false_2. }
      destruct (Throttle.waiting (Throttle.th r)) as [|w ws] eqn:Hws.
      * by rewrite throttle_fulfil_idle, bool_decide_eq_true_2.
      * by rewrite (throttle_fulfil_releases _ _ _ w ws) by (done || apply Hr).
  - destruct e as [|t|t]; cbn [Throttle.step Throttle.th Throttle.submitted];
      [| |done].
    + rewrite seq_S. simpl.
      destruct (Throttle.waiting (Throttle.th r)) as [|w ws] eqn:Hws.
      * unfold Throttle.enter. rewrite Hrej. rewrite app_nil_r in Hex.
        rewrite (bool_decide_eq_false_2 (Exists _ _)).
        2:{ intros (p & _ & Hp)%Exists_exists. by apply elem_of_nil in Hp. }
        destruct (limit <=? _)%nat; simpl; rewrite ?Hws, ?app_nil_r; by rewrite Hex.
      * rewrite throttle_enter_full; [|apply Hr|by rewrite Hws]. simpl.
        rewrite Hws, app_assoc. by rewrite Hex.
    + destruct (decide (t ∈ Throttle.outstanding (Throttle.th r))) as [Ht|Ht].
      2:{ unfold Throttle.fulfil. by rewrite bool_decide_eq_false_2. }
      destruct (Throttle.waiting (Throttle.th r)) as [|w ws] eqn:Hws.
      * rewrite throttle_fulfil_idle, bool_decide_eq_true_2 by done. simpl.
        by rewrite <- Hex.
      * rewrite (throttle_fulfil_releases _ _ _ w ws) by (done || apply Hr). simpl.
        rewrite <- Hex, <- app_assoc. done.
Qed.

(** Once no task is outstanding, settlements change nothing: a caller that is
    still suspended, or was abandoned, stays so unless something new is
    submitted. *)
Lemma throttle_quiescent limit es r :
  Throttle.outstanding (Throttle.th r) = [] →
  Forall (λ e, e ≠ Throttle.Submit) es →
  fold_left (Throttle.step limit) es r = r.
Proof.
  intros Hq Hes. induction Hes as [|e es He Hes IH]; simpl; [done|].
  assert (Throttle.step limit r e = r) as ->; [|done].
  destruct e as [|t|t]; [done| |]; simpl.
  - unfold Throttle.fulfil. rewrite Hq.
    rewrite bool_decide_eq_false_2 by apply not_elem_of_nil. by destruct r.
  - unfold Throttle.reject. rewrite Hq.
    rewrite bool_decide_eq_false_2 by apply not_elem_of_nil. by destruct r.
Qed.

(** What is once in [rejected] or in [abandoned] stays there. *)
Lemma throttle_enter_keeps {K} `{EqDecision K} limit (k : K) (s : Throttle.state K) :
  Throttle.rejected (Throttle.enter limit k s).1 = Throttle.rejected s
  ∧ Throttle.abandoned s ⊆ Throttle.abandoned (Throttle.enter limit k s).1.
Proof.
  unfold Throttle.enter. repeat case_match; simpl; split; try done.
  intros x Hx. apply elem_of_app. by left.
Qed.

Lemma throttle_wake_keeps {K} `{EqDecision K} limit (ws : list K) (s : Throttle.state K) :
  Throttle.rejected (Throttle.wake limit ws s).1 = Throttle.rejected s
  ∧ Throttle.abandoned s ⊆ Throttle.abandoned (Throttle.wake limit ws s).1.
Proof.
  revert s. induction ws as [|k ws IH]; intros s; simpl; [done|].
  destruct (Throttle.enter limit k s) as [s1 v] eqn:He.
  destruct (Throttle.wake limit ws s1) as [s2 ls] eqn:Hw. simpl.
  destruct (throttle_enter_keeps limit k s) as [H1 H2]. rewrite He in H1, H2. simpl in *.
  destruct (IH s1) as [H3 H4]. rewrite Hw in H3, H4. simpl in *.
  split; [congruence|]. intros x Hx. by apply H4, H2.
Qed.

Lemma throttle_step_keeps limit r e :
  Throttle.rejected (Throttle.th r) ⊆ Throttle.rejected (Throttle.th (Throttle.step limit r e))
  ∧ Throttle.abandoned (Throttle.th r)
    ⊆ Throttle.abandoned (Throttle.th (Throttle.step limit r e)).
Proof.
  destruct e as [|t|t]; simpl.
  - destruct (throttle_enter_keeps limit (Throttle.submitted r) (Throttle.th r)) as [-> H2].
    done.
  - unfold Throttle.fulfil. destruct (bool_decide _); [|done].
    match goal with |- context [Throttle.wake limit ?ws ?s0] =>
      destruct (throttle_wake_keeps limit ws s0) as [-> H2] end.
    done.
  - unfold Throttle.reject. destruct (bool_decide _); [|done]. simpl.
    split; intros x Hx; apply elem_of_app; by left.
Qed.

Lemma throttle_fold_keeps limit es r :
  Throttle.rejected (Throttle.th r)
  ⊆ Throttle.rejected (Throttle.th (fold_left (Throttle.step limit) es r))
  ∧ Throttle.abandoned (Throttle.th r)
    ⊆ Throttle.abandoned (Throttle.th (fold_left (Throttle.step limit) es r)).
Proof.
  revert r. induction es as [|e es IH]; intros r; simpl; [done|].
  destruct (throttle_step_keeps limit r e) as [H1 H2].
  destruct (IH (Throttle.step limit r e)) as [H3 H4].
  split; intros x Hx; [by apply H3, H1|by apply H4, H2].
Qed.

(** C2, as stated, fails.  Under a limit of 1 two factories are submitted and
    the first task rejects: its promise stays in [executing], no slot is
    freed, the second caller's [await] throws and its factory is not called,
    whatever settles afterwards.  And under a limit of 0 a submitted factory
    waits for ever with nothing outstanding. *)
Lemma throttle_reject_frees_no_slot :
  (let r := Throttle.run 1 [Throttle.Submit; Throttle.Submit; Throttle.Reject 0] in
   Throttle.executing (Throttle.th r) = [0%nat]
   ∧ Throttle.waiting (Throttle.th r) = []
   ∧ Throttle.abandoned (Throttle.th r) = [1%nat]
   ∧ ∀ es, Forall (λ e, e ≠ Throttle.Submit) es →
       Throttle.invoked (Throttle.th (fold_left (Throttle.step 1) es r)) = [0%nat])
  ∧ (let r := Throttle.run 0 [Throttle.Submit] in
     Throttle.waiting (Throttle.th r) = [0%nat]
     ∧ ∀ es, Forall (λ e, e ≠ Throttle.Submit) es →
         Throttle.invoked (Throttle.th (fold_left (Throttle.step 0) es r)) = []).
Proof.
  split.
  - split_and!; try reflexivity.
    intros es Hes. by rewrite throttle_quiescent.
  - split; [reflexivity|].
    intros es Hes. by rewrite throttle_quiescent.
Qed.

(** C2, amended: for every limit of at least 1 and every run of the
    throttle, whatever was submitted and however the tasks settled so far.
    A task that fulfils while callers are suspended frees exactly one slot,
    which goes to the oldest suspended caller.  When no task has rejected,
    the factories called so far followed by the suspended callers are the
    submitted factories, in submission order and each once; while a caller
    is suspended some task is outstanding; and once none is, every
    submitted factory has been called.  A task that rejects stays in the
    [executing] set, then and ever after, so it frees no slot; the callers
    suspended at that moment throw, and whatever is submitted or settles
    later, their factories are never called. *)
Theorem throttle_fulfil_launches_next (limit : nat) (es : list Throttle.event) :
  (1 <= limit)%nat →
  let r := Throttle.run limit es in
  let s := Throttle.th r in
  (∀ t w ws, t ∈ Throttle.outstanding s → Throttle.waiting s = w :: ws →
     Throttle.fulfil limit t s =
       ({| Throttle.executing := filter (λ k, k ≠ t) (Throttle.executing s) ++ [w];
           Throttle.rejected := [];
           Throttle.waiting := ws;
           Throttle.invoked := Throttle.invoked s ++ [w];
           Throttle.abandoned := Throttle.abandoned s |}, [w])
     ∧ length (filter (λ k, k ≠ t) (Throttle.executing s) ++ [w])
       = length (Throttle.executing s))
  ∧ (Throttle.all_fulfil es →
     Throttle.abandoned s = []
     ∧ Throttle.invoked s ++ Throttle.waiting s = seq 0 (Throttle.submitted r)
     ∧ (Throttle.waiting s ≠ [] → Throttle.outstanding s ≠ [])
     ∧ (Throttle.outstanding s = [] → Throttle.invoked s = seq 0 (Throttle.submitted r)))
  ∧ (∀ t, t ∈ Throttle.outstanding s →
     Throttle.reject t s =
       ({| Throttle.executing := Throttle.executing s;
           Throttle.rejected := Throttle.rejected s ++ [t];
           Throttle.waiting := [];
           Throttle.invoked := Throttle.invoked s;
           Throttle.abandoned := Throttle.abandoned s ++ Throttle.waiting s |},
        Throttle.waiting s)
     ∧ ∀ es',
         let s' :=
           Throttle.th
             (fold_left (Throttle.step limit) es'
                (Throttle.step limit r (Throttle.Reject t))) in
         t ∈ Throttle.executing s'
         ∧ (t ∉ Throttle.outstanding s')
         ∧ ∀ w, w ∈ Throttle.waiting s →
             w ∈ Throttle.abandoned s' ∧ (w ∉ Throttle.invoked s')).
Proof.
  intros Hlimit r s.
  pose proof (throttle_run_invariant limit es) as Hr.
  fold r in Hr. pose proof Hr as [Hi Hsub Hord Hsort]. fold s in Hi, Hsub, Hord, Hsort.
  split_and!.
  - intros t w ws Ht Hws. split; [by apply throttle_fulfil_releases|].
    rewrite length_app. simpl.
    apply list_elem_of_filter in Ht as [_ Ht].
    pose proof (throttle_filter_remove _ _ (Throttle.inv_set _ _ Hi) Ht). lia.
  - intros Hall.
    destruct (throttle_all_fulfil_exact limit es Throttle.start
                (throttle_start_invariant limit) eq_refl eq_refl Hall) as [Hrej Hex].
    fold (Throttle.run limit es) in Hrej, Hex. fold r in Hrej, Hex. fold s in Hrej, Hex.
    assert (Hprog : Throttle.waiting s ≠ [] → Throttle.outstanding s ≠ []).
    { intros Hne. destruct (Throttle.inv_waiting _ _ Hi Hne) as [Hlen _].
      unfold Throttle.outstanding. rewrite Hrej.
      destruct (Throttle.executing s) as [|x l]; [simpl in Hlen; lia|].
      rewrite filter_cons. rewrite decide_True by apply not_elem_of_nil. done. }
    split_and!.
    + destruct (Throttle.abandoned s) as [|a l] eqn:Ha; [done|]. exfalso.
      assert (Hin : a ∈ Throttle.invoked s ++ Throttle.waiting s).
      { rewrite Hex. apply list_elem_of_In, in_seq. split; [lia|]. simpl.
        apply Hsub. rewrite !elem_of_app. right; right. apply elem_of_cons; by left. }
      pose proof (Throttle.inv_once _ _ Hi) as Hnd. rewrite Ha, app_assoc in Hnd.
      apply NoDup_app in Hnd as (_ & Hd & _). apply (Hd a Hin).
      apply elem_of_cons; by left.
    + exact Hex.
    + exact Hprog.
    + intros Hq. destruct (Throttle.waiting s) as [|w ws] eqn:Hws.
      * by rewrite app_nil_r in Hex.
      * exfalso. by apply Hprog.
  - intros t Ht.
    assert (Hrej : Throttle.reject t s =
              ({| Throttle.executing := Throttle.executing s;
                  Throttle.rejected := Throttle.rejected s ++ [t];
                  Throttle.waiting := [];
                  Throttle.invoked := Throttle.invoked s;
                  Throttle.abandoned := Throttle.abandoned s ++ Throttle.waiting s |},
               Throttle.waiting s)).
    { unfold Throttle.reject. by rewrite bool_decide_eq_true_2. }
    split; [done|]. intros es' s'.
    set (r1 := Throttle.step limit r (Throttle.Reject t)) in *.
    pose proof (throttle_fold_invariant limit es' r1
                  (throttle_step_invariant limit r (Throttle.Reject t) Hr)) as [Hi' _ _ _].
    fold s' in Hi'.
    destruct (throttle_fold_keeps limit es' r1) as [Hkr Hka]. fold s' in Hkr, Hka.
    assert (Hr1 : Throttle.th r1 = (Throttle.reject t s).1) by done.
    rewrite Hr1, Hrej in Hkr, Hka. simpl in Hkr, Hka.
    assert (Htr : t ∈ Throttle.rejected s').
    { apply Hkr, elem_of_app. right. by apply list_elem_of_singleton. }
    split_and!.
    + by apply (Throttle.inv_rejected _ _ Hi').
    + unfold Throttle.outstanding. intros [Hn _]%list_elem_of_filter. done.
    + intros w Hw.
      assert (Hwa : w ∈ Throttle.abandoned s') by (apply Hka, elem_of_app; by right).
      split; [done|]. intros Hwi.
      pose proof (Throttle.inv_once _ _ Hi') as Hnd.
      apply NoDup_app in Hnd as (_ & Hd & _). apply (Hd w Hwi).
      apply elem_of_app. by right.
Qed.

(** The amended C2 at a limit of 1, with two factories submitted: when the
    first task fulfils, the second factory is called and takes its slot. *)
Lemma throttle_fulfil_launches_next_witness :
  Throttle.fulfil 1 0%nat (Throttle.th (Throttle.run 1 [Throttle.Submit; Throttle.Submit]))
  = ({| Throttle.executing :=
          filter (λ k, k ≠ 0%nat)
            (Throttle.executing
               (Throttle.th (Throttle.run 1 [Throttle.Submit; Throttle.Submit])))
          ++ [1%nat];
        Throttle.rejected := [];
        Throttle.waiting := [];
        Throttle.invoked :=
          Throttle.invoked (Throttle.th (Throttle.run 1 [Throttle.Submit; Throttle.Submit]))
          ++ [1%nat];
        Throttle.abandoned :=
          Throttle.abandoned
            (Throttle.th (Throttle.run 1 [Throttle.Submit; Throttle.Submit])) |},
     [1%nat]).
Proof.
  refine (proj1 (proj1
    (throttle_fulfil_launches_next 1 [Throttle.Submit; Throttle.Submit] _)
    0%nat 1%nat [] _ _)).
  - lia.
  - vm_compute. constructor.
  - reflexivity.
Defined.

(** ** The localStorage helpers *)

(** C9: for every key, [getAndParseLS] returns the parsed value when the
    stored text is valid JSON, and returns [null], without throwing, when
    the key is absent or the stored text does not parse.  [JSON.parse] is the
    platform's; all that is used of it is that it throws on the empty text. *)
Theorem getAndParseLS_never_throws {J : Type} (null : J)
    (JSON_parse : string → Util.completion J)
    (localStorage : gmap string string) (key : string) :
  (∃ e, JSON_parse EmptyString = Util.Throw e) →
  (∀ text v, Util.getLS localStorage key = Some text → JSON_parse text = Util.Normal v →
     Util.getAndParseLS null JSON_parse localStorage key = Util.Normal v)
  ∧ (Util.getLS localStorage key = None →
     Util.getAndParseLS null JSON_parse localStorage key = Util.Normal null)
  ∧ (∀ text e, Util.getLS localStorage key = Some text → JSON_parse text = Util.Throw e →
     Util.getAndParseLS null JSON_parse localStorage key = Util.Normal null)
  ∧ (∀ e, Util.getAndParseLS null JSON_parse localStorage key ≠ Util.Throw e).
Proof.
  intros [e0 He0]. unfold Util.getAndParseLS. split_and!.
  - intros text v -> Hv. destruct text; [congruence|]. by rewrite Hv.
  - by intros ->.
  - intros text e -> He. destruct text; [done|]. by rewrite He.
  - intros e. destruct (Util.getLS localStorage key) as [[|c text]|]; try done.
    by destruct (JSON_parse (String c text)).
Qed.

(** C9 on a store with one parsable value, one corrupt value and a missing key. *)
Lemma getAndParseLS_never_throws_witness :
  Util.getAndParseLS Util.ToyNull Util.toy_parse
    (<["good" := "{}"]> (<["bad" := "{oops"]> ∅)) "good" = Util.Normal Util.ToyEmptyObject
  ∧ Util.getAndParseLS Util.ToyNull Util.toy_parse
      (<["good" := "{}"]> (<["bad" := "{oops"]> ∅)) "bad" = Util.Normal Util.ToyNull
  ∧ Util.getAndParseLS Util.ToyNull Util.toy_parse
      (<["good" := "{}"]> (<["bad" := "{oops"]> ∅)) "none" = Util.Normal Util.ToyNull.
Proof.
  assert (He : ∃ e, Util.toy_parse EmptyString = Util.Throw e) by (eexists; reflexivity).
  split_and!.
  - apply (proj1 (getAndParseLS_never_throws Util.ToyNull Util.toy_parse _ "good" He)
             "{}"); reflexivity.
  - apply (proj1 (proj2 (proj2
             (getAndParseLS_never_throws Util.ToyNull Util.toy_parse _ "bad" He)))
             "{oops" "SyntaxError"); reflexivity.
  - apply (proj1 (proj2
             (getAndParseLS_never_throws Util.ToyNull Util.toy_parse _ "none" He)));
      reflexivity.
Defined.

(** ** The uploader: what a call does before it first suspends *)

Import Uploader.

Lemma uploader_complete_iff localRecord cleaned :
  isCompleteLocalRecord localRecord cleaned = false ↔ record_incomplete localRecord cleaned.
Proof.
  unfold isCompleteLocalRecord, record_incomplete, truthy_str.
  destruct localRecord as [n0 z0 tp ps fp [[|c uid]|] [[|c' s3]|]]; simpl;
    try (split; [intros _; tauto|done]).
  destruct cleaned as [|x cleaned]; simpl; [split; [tauto|done]|].
  destruct tp as [n|]; simpl; [|split; [tauto|done]].
  destruct (0 <? n) eqn:Hn; simpl.
  2:{ split; [|done]. intros _. apply Z.ltb_ge in Hn. do 6 right. left. eauto. }
  apply Z.ltb_lt in Hn.
  destruct ps as [q|]; simpl; [|split; [tauto|done]].
  destruct (Qeq_bool q 0) eqn:Hq; simpl.
  - split; [|done]. intros _. do 8 right. exists q. split; [done|by apply Qeq_bool_iff].
  - split; [done|].
    intros [?|[?|[?|[?|[?|[?|[(n' & ? & ?)|[?|(q' & ? & Hq')]]]]]]]]; try congruence.
    + simplify_eq. lia.
    + simplify_eq. apply Qeq_bool_iff in Hq'. congruence.
Qed.

(** No resumable record: the create flow starts. *)
Lemma uploader_start_fresh o f fuel i :
  default [] (finishedParts (default emptyRecord (i_localStorage i !! key f))) = [] →
  uploadMultipart o f (S fuel) i = Some (fresh_start i).
Proof.
  intros Hnone. simpl. unfold getAndParseLS. simpl. by rewrite Hnone.
Qed.

(** A record with finished parts that fails the check: the record is removed
    and [uploadMultipart] is called again, which starts the create flow. *)
Lemma uploader_start_fallback o f fuel i localRecord parts :
  i_localStorage i !! key f = Some localRecord →
  finishedParts localRecord = Some parts →
  parts ≠ [] →
  isCompleteLocalRecord localRecord (Util.cleanUpETags parts) = false →
  uploadMultipart o f (S (S fuel)) i = Some (fresh_start (forget (key f) i)).
Proof.
  intros Hrec Hparts Hne Hinc.
  change (uploadMultipart o f (S (S fuel)) i) with
    (let s := enter_call i in
     let localRecord := default emptyRecord (getAndParseLS (key f) s) in
     if (0 <? length (default [] (finishedParts localRecord)))%nat then
       uploadUnfinishedMultipart o f (uploadMultipart o f (S fuel)) localRecord s
     else Some (emit uploadStarted (set_uploadInProgress true s))).
  cbv zeta. unfold getAndParseLS at 1 2. simpl localStorage.
  rewrite Hrec. simpl default. rewrite Hparts. simpl default.
  destruct parts as [|x parts]; [done|]. simpl length. simpl Nat.ltb.
  cbv iota. unfold uploadUnfinishedMultipart. rewrite Hparts. simpl default.
  rewrite Hinc. simpl negb. cbv iota.
  rewrite uploader_start_fresh.
  - f_equal. unfold fresh_start, forget, instance, removeLS, setLS, set_localStorage,
      enter_call. simpl. by rewrite delete_insert_eq.
  - unfold instance, removeLS, setLS, set_localStorage, enter_call. simpl.
    by rewrite lookup_delete_eq.
Qed.

Lemma uploader_promise_all_then_phase s :
  phase s = Uploading →
  phase (promise_all_then s) = Uploading
  ∨ ∃ parts, phase (promise_all_then s) = Completing parts.
Proof.
  intros Hp. unfold promise_all_then. rewrite Hp.
  destruct (resolvedArr s); [|by left].
  destruct (uploadPartsArray s); right; eexists; reflexivity.
Qed.

(** The three ways a call can start: the create flow, the create flow after
    an unusable record was removed, or the resume flow. *)
Lemma uploader_start_cases o f fuel i s :
  uploadMultipart o f fuel i = Some s →
  s = fresh_start i
  ∨ s = fresh_start (forget (key f) i)
  ∨ ∃ localRecord parts,
      i_localStorage i !! key f = Some localRecord
      ∧ finishedParts localRecord = Some parts
      ∧ isCompleteLocalRecord localRecord (Util.cleanUpETags parts) = true
      ∧ uploadUnfinishedMultipart o f (λ _, None) localRecord (enter_call i) = Some s.
Proof.
  destruct fuel as [|fuel]; [done|].
  destruct (default [] (finishedParts (default emptyRecord (i_localStorage i !! key f))))
    as [|x parts'] eqn:Hfp.
  { rewrite uploader_start_fresh by done. intros [= <-]. by left. }
  destruct (i_localStorage i !! key f) as [localRecord|] eqn:Hrec; [|done].
  simpl in Hfp. destruct (finishedParts localRecord) as [parts|] eqn:Hparts; [|done].
  simpl in Hfp. subst parts.
  destruct (isCompleteLocalRecord localRecord (Util.cleanUpETags (x :: parts'))) eqn:Hc.
  - intros Hs. right; right. exists localRecord, (x :: parts').
    split_and!; try done.
    simpl in Hs. unfold getAndParseLS in Hs. simpl in Hs. rewrite Hrec in Hs.
    simpl in Hs. rewrite Hparts in Hs. simpl in Hs.
    unfold uploadUnfinishedMultipart in *. rewrite Hparts in *. simpl default in *.
    rewrite Hc in *. exact Hs.
  - destruct fuel as [|fuel].
    + simpl. unfold getAndParseLS. simpl. rewrite Hrec. simpl. rewrite Hparts. simpl.
      unfold uploadUnfinishedMultipart. rewrite Hparts. simpl default. by rewrite Hc.
    + rewrite (uploader_start_fallback o f fuel i localRecord (x :: parts')) by done.
      intros [= <-]. right; by left.
Qed.

Lemma uploader_resume_phase o f localRecord i s :
  uploadUnfinishedMultipart o f (λ _, None) localRecord (enter_call i) = Some s →
  phase s ≠ Creating.
Proof.
  unfold uploadUnfinishedMultipart. destruct (negb _); [done|].
  intros [= <-].
  match goal with |- phase (promise_all_then ?x) ≠ _ =>
    destruct (uploader_promise_all_then_phase x eq_refl) as [->|[parts ->]] end; done.
Qed.

(** Two levels of calls are enough: [uploadMultipart] always gets to its
    first suspension. *)
Lemma uploader_start_total o f fuel i :
  ∃ s, uploadMultipart o f (S (S fuel)) i = Some s.
Proof.
  destruct (default [] (finishedParts (default emptyRecord (i_localStorage i !! key f))))
    as [|x parts'] eqn:Hfp.
  { rewrite uploader_start_fresh by done. eauto. }
  destruct (i_localStorage i !! key f) as [localRecord|] eqn:Hrec; [|done].
  simpl in Hfp. destruct (finishedParts localRecord) as [parts|] eqn:Hparts; [|done].
  simpl in Hfp. subst parts.
  destruct (isCompleteLocalRecord localRecord (Util.cleanUpETags (x :: parts'))) eqn:Hc.
  - simpl. unfold getAndParseLS. simpl. rewrite Hrec. simpl. rewrite Hparts. simpl.
    unfold uploadUnfinishedMultipart. rewrite Hparts. simpl default. rewrite Hc.
    simpl. eauto.
  - rewrite (uploader_start_fallback o f fuel i localRecord (x :: parts')) by done. eauto.
Qed.

(** C7, as stated, fails for one of the ways it lists: a record whose
    [partSizeInBytes] is negative, hence not positive, passes the check
    (the check is on truthiness), and the resume flow runs with it. *)
Lemma negative_part_size_resumes :
  let localRecord := {|
    originalFilename := Some "a.mov"; totalFileSizeInBytes := Some 100;
    totalParts := Some 2; partSizeInBytes := Some (-1 # 1)%Q;
    finishedParts := Some [ {| ETag := Some "a"; PartNumber := 1 |} ];
    uploadId := Some "u"; s3Filename := Some "k" |} in
  let f := {| File.name := "a.mov"; File.size := 100; File.type := "video/quicktime" |} in
  ∃ s, uploadMultipart defaultOptions f 2
         (new_instance (<["video|a.mov" := localRecord]> ∅)) = Some s
       ∧ emitted s = [uploadResumed 50 localRecord; totalProgress 50; uploadPartStarted 2]
       ∧ phase s = Uploading
       ∧ localStorage s !! "video|a.mov" = Some localRecord.
Proof.
  eexists. split; [reflexivity|]. split_and!; reflexivity.
Qed.

(** C7, amended: a persisted record with a non-empty [finishedParts], an
    array of part objects, that fails the check ([uploadId] or [s3Filename] missing or empty,
    [totalParts] missing or not positive, [partSizeInBytes] missing or zero,
    or no finished part left after the untagged ones are filtered out) is
    removed from localStorage and the create flow starts: the call suspends
    awaiting [uploadMultipartCreate] having emitted [uploadStarted] and
    nothing else, so neither [uploadResumed] nor an error. *)
Theorem invalid_record_falls_back (o : Options) (f : File) (fuel : nat) (i : Instance)
    (localRecord : LocalUploadRecord) (parts : list UploadPartResponse) :
  i_localStorage i !! key f = Some localRecord →
  finishedParts localRecord = Some parts →
  parts ≠ [] →
  record_incomplete localRecord (Util.cleanUpETags parts) →
  ∃ s, uploadMultipart o f (S (S fuel)) i = Some s
       ∧ localStorage s = delete (key f) (i_localStorage i)
       ∧ phase s = Creating
       ∧ emitted s = i_emitted i ++ [uploadStarted].
Proof.
  intros Hrec Hparts Hne Hinc. apply uploader_complete_iff in Hinc.
  exists (fresh_start (forget (key f) i)).
  split; [by eapply uploader_start_fallback|]. done.
Qed.

(** The amended C7 on a record that has a finished part but no [uploadId]. *)
Lemma invalid_record_falls_back_witness :
  ∃ s, uploadMultipart defaultOptions
         {| File.name := "a.mov"; File.size := 100; File.type := "video/quicktime" |} 2
         (new_instance (<["video|a.mov" := {|
            originalFilename := Some "a.mov"; totalFileSizeInBytes := Some 100;
            totalParts := Some 2; partSizeInBytes := Some (60 # 1)%Q;
            finishedParts := Some [ {| ETag := Some "a"; PartNumber := 1 |} ];
            uploadId := None; s3Filename := Some "k" |}]> ∅)) = Some s
       ∧ localStorage s = delete "video|a.mov" (<["video|a.mov" := {|
            originalFilename := Some "a.mov"; totalFileSizeInBytes := Some 100;
            totalParts := Some 2; partSizeInBytes := Some (60 # 1)%Q;
            finishedParts := Some [ {| ETag := Some "a"; PartNumber := 1 |} ];
            uploadId := None; s3Filename := Some "k" |}]> ∅)
       ∧ phase s = Creating
       ∧ emitted s = [] ++ [uploadStarted].
Proof.
  refine (invalid_record_falls_back defaultOptions
            {| File.name := "a.mov"; File.size := 100; File.type := "video/quicktime" |} 0
            (new_instance _) _ [ {| ETag := Some "a"; PartNumber := 1 |} ] _ _ _ _).
  - reflexivity.
  - reflexivity.
  - discriminate.
  - left. reflexivity.
Defined.

(** ** The uploader: [loopMultipartParts] *)

Lemma uploader_submit_frame o part s :
  localStorage (submit o part s) = localStorage s
  ∧ partsUploadProgress (submit o part s) = partsUploadProgress s
  ∧ totalUploadProgress (submit o part s) = totalUploadProgress s
  ∧ uploadInProgress (submit o part s) = uploadInProgress s
  ∧ phase (submit o part s) = phase s
  ∧ loopTotalParts (submit o part s) = loopTotalParts s
  ∧ uploadPartsArray (submit o part s) = uploadPartsArray s
  ∧ promisesArr (submit o part s) = promisesArr s ++ [part].
Proof.
  unfold submit. destruct (Throttle.enter _ _ _) as [th []]; done.
Qed.

Lemma uploader_loop_body_frame o lookup s partNumber :
  localStorage (loop_body o lookup s partNumber) = localStorage s
  ∧ partsUploadProgress (loop_body o lookup s partNumber) = partsUploadProgress s
  ∧ totalUploadProgress (loop_body o lookup s partNumber) = totalUploadProgress s
  ∧ uploadInProgress (loop_body o lookup s partNumber) = uploadInProgress s
  ∧ phase (loop_body o lookup s partNumber) = phase s
  ∧ loopTotalParts (loop_body o lookup s partNumber) = loopTotalParts s
  ∧ uploadPartsArray (loop_body o lookup s partNumber) = uploadPartsArray s
  ∧ promisesArr (loop_body o lookup s partNumber)
    = promisesArr s ++ filter (λ p, lookup !! p = None) [partNumber + 1].
Proof.
  unfold loop_body. rewrite filter_cons, filter_nil.
  destruct (lookup !! (partNumber + 1)) eqn:E.
  - rewrite decide_False by done. by rewrite app_nil_r.
  - rewrite decide_True by done. apply uploader_submit_frame.
Qed.

Lemma uploader_loop_fold_frame o lookup l s :
  let s' := fold_left (loop_body o lookup) l s in
  localStorage s' = localStorage s
  ∧ partsUploadProgress s' = partsUploadProgress s
  ∧ totalUploadProgress s' = totalUploadProgress s
  ∧ uploadInProgress s' = uploadInProgress s
  ∧ phase s' = phase s
  ∧ loopTotalParts s' = loopTotalParts s
  ∧ uploadPartsArray s' = uploadPartsArray s
  ∧ promisesArr s' = promisesArr s ++ filter (λ p, lookup !! p = None) (Z.add 1 <$> l).
Proof.
  revert s. induction l as [|x l IH]; intros s; simpl.
  - by rewrite app_nil_r.
  - destruct (IH (loop_body o lookup s x)) as (-> & -> & -> & -> & -> & -> & -> & ->).
    destruct (uploader_loop_body_frame o lookup s x) as (-> & -> & -> & -> & -> & -> & -> & ->).
    split_and!; try done.
    rewrite filter_cons, <- app_assoc. f_equal.
    replace (x + 1) with (1 + x) by lia.
    rewrite filter_cons, filter_nil. by destruct (decide _).
Qed.

(** What [loopMultipartParts] leaves: the parts it submitted are those of
    [1 .. totalParts] that the lookup does not have, in ascending order. *)
Lemma uploader_loop_frame o totalParts lookup s :
  let s' := loopMultipartParts o totalParts lookup s in
  localStorage s' = localStorage s
  ∧ totalUploadProgress s' = totalUploadProgress s
  ∧ uploadInProgress s' = uploadInProgress s
  ∧ phase s' = phase s
  ∧ loopTotalParts s' = totalParts
  ∧ uploadPartsArray s' = uploadPartsArray s
  ∧ promisesArr s' = filter (λ p, lookup !! p = None) (seqZ 1 totalParts).
Proof.
  unfold loopMultipartParts. cbv zeta.
  match goal with |- context [fold_left _ _ ?s0] =>
    destruct (uploader_loop_fold_frame o lookup (seqZ 0 totalParts) s0)
      as (-> & _ & -> & -> & -> & -> & -> & ->) end.
  rewrite fmap_add_seqZ. change (1 + 0) with 1. by case_decide.
Qed.

Lemma uploader_promise_all_then_frame s :
  localStorage (promise_all_then s) = localStorage s
  ∧ partsUploadProgress (promise_all_then s) = partsUploadProgress s
  ∧ totalUploadProgress (promise_all_then s) = totalUploadProgress s
  ∧ uploadInProgress (promise_all_then s) = uploadInProgress s
  ∧ emitted (promise_all_then s) = emitted s
  ∧ loopTotalParts (promise_all_then s) = loopTotalParts s
  ∧ uploadPartsArray (promise_all_then s) = uploadPartsArray s
  ∧ promisesArr (promise_all_then s) = promisesArr s
  ∧ throttle (promise_all_then s) = throttle s
  ∧ tasks (promise_all_then s) = tasks s.
Proof.
  unfold promise_all_then.
  destruct (phase s); try done.
  destruct (resolvedArr s); [|done].
  destruct (uploadPartsArray s) eqn:E; simpl; rewrite ?E; split_and!; reflexivity.
Qed.

(** The record the create flow persists once the create call has answered
    with both identifiers. *)
Lemma uploader_create_then_record o f r s :
  truthy_str (resp_uploadId r) = true →
  truthy_str (resp_s3Filename r) = true →
  localStorage (create_then o f r s) =
    <[key f := {| originalFilename := Some (File.name f);
                  totalFileSizeInBytes := Some (Z.of_N (File.size f));
                  totalParts := Some (Planner.numParts o f);
                  partSizeInBytes := Some (Planner.partSizeInBytes o f);
                  finishedParts := Some [];
                  uploadId := resp_uploadId r;
                  s3Filename := resp_s3Filename r |}]> (localStorage s).
Proof.
  intros Hu Hs. unfold create_then. rewrite Hu, Hs. simpl.
  destruct (uploader_promise_all_then_frame
              (set_phase Uploading
                 (loopMultipartParts o (Planner.numParts o f) ∅
                    (setLS (key f)
                       {| originalFilename := Some (File.name f);
                          totalFileSizeInBytes := Some (Z.of_N (File.size f));
                          totalParts := Some (Planner.numParts o f);
                          partSizeInBytes := Some (Planner.partSizeInBytes o f);
                          finishedParts := Some [];
                          uploadId := resp_uploadId r;
                          s3Filename := resp_s3Filename r |}
                       (emit (uploadCreated (resp_uploadId r) (resp_s3Filename r)) s)))))
    as (-> & _).
  simpl.
  match goal with |- localStorage (loopMultipartParts ?a ?b ?c ?d) = _ =>
    destruct (uploader_loop_frame a b c d) as (-> & _) end.
  done.
Qed.

(** ** Part planning and the empty file *)

(** C4, as stated, fails: for an empty file the planner yields no part at
    all, and the record the create flow persists has [totalParts] 0. *)
Lemma empty_file_has_no_part :
  Planner.numParts defaultOptions
    {| File.name := "empty.mov"; File.size := 0; File.type := "video/quicktime" |} = 0
  ∧ (totalParts <$>
      localStorage
        (step defaultOptions
           {| File.name := "empty.mov"; File.size := 0; File.type := "video/quicktime" |}
           (fresh_start (new_instance ∅))
           (CreateResolved {| resp_uploadId := Some "u"; resp_s3Filename := Some "k" |}))
      !! "video|empty.mov") = Some (Some 0).
Proof. split; vm_compute; reflexivity. Qed.

(** C4, amended: part planning yields no part for an empty file and at
    least one part for every other file; the record that the create flow
    persists carries that number as [totalParts], so it has
    [totalParts ≥ 1] exactly when the file is not empty. *)
Theorem planner_numParts_positive_iff (o : Options) (f : File) :
  (File.size f = 0%N → Planner.numParts o f = 0)
  ∧ (File.size f ≠ 0%N → 1 <= Planner.numParts o f)
  ∧ (∀ r s, phase s = Creating →
       truthy_str (resp_uploadId r) = true → truthy_str (resp_s3Filename r) = true →
       ∃ record,
         localStorage (step o f s (CreateResolved r)) !! key f = Some record
         ∧ totalParts record = Some (Planner.numParts o f)
         ∧ (1 <= Planner.numParts o f ↔ File.size f ≠ 0%N)).
Proof.
  split_and!.
  - apply planner_numParts_empty.
  - apply planner_numParts_pos.
  - intros r s Hp Hu Hs. simpl. rewrite Hp.
    rewrite uploader_create_then_record by done.
    eexists. split; [apply lookup_insert_eq|]. split; [done|].
    split.
    + intros Hn Hz. rewrite planner_numParts_empty in Hn by done. lia.
    + apply planner_numParts_pos.
Qed.

(** ** The create call answers without an identifier *)

(** C10: when the create call resolves but its response lacks [uploadId] or
    [s3Filename], [uploadMultipart] still emits [uploadCreated] with the
    values it got, before the check; then it emits the error, rejects, and
    persists nothing: localStorage is what it was when the call suspended,
    which holds no value that was not there before the call. *)
Theorem create_without_ids_rejects (o : Options) (f : File) (fuel : nat) (i : Instance)
    (s : State) (r : CreateMultipartUploadResponse) :
  uploadMultipart o f fuel i = Some s →
  phase s = Creating →
  truthy_str (resp_uploadId r) = false ∨ truthy_str (resp_s3Filename r) = false →
  emitted (step o f s (CreateResolved r))
    = emitted s ++ [uploadCreated (resp_uploadId r) (resp_s3Filename r);
                    error ErrCreateIncomplete]
  ∧ phase (step o f s (CreateResolved r)) = Failed ErrCreateIncomplete
  ∧ uploadInProgress (step o f s (CreateResolved r)) = false
  ∧ localStorage (step o f s (CreateResolved r)) = localStorage s
  ∧ localStorage (step o f s (CreateResolved r)) ⊆ i_localStorage i.
Proof.
  intros Hs Hp Hr. simpl. rewrite Hp. unfold create_then.
  assert (negb (truthy_str (resp_s3Filename r)) || negb (truthy_str (resp_uploadId r)) = true)
    as -> by (destruct Hr as [-> | ->]; [apply orb_true_r|apply orb_true_l]).
  simpl. rewrite <- app_assoc. split_and!; try done.
  apply uploader_start_cases in Hs as [->|[->|(localRecord & parts & _ & _ & _ & Hs)]].
  - done.
  - simpl. apply delete_subseteq.
  - by apply uploader_resume_phase in Hs.
Qed.

(** C10 on a new instance, with a response that has no [uploadId]. *)
Lemma create_without_ids_rejects_witness :
  emitted (step defaultOptions
             {| File.name := "a.mov"; File.size := 100; File.type := "video/quicktime" |}
             (fresh_start (new_instance ∅))
             (CreateResolved {| resp_uploadId := None; resp_s3Filename := Some "k" |}))
    = emitted (fresh_start (new_instance ∅))
        ++ [uploadCreated None (Some "k"); error ErrCreateIncomplete].
Proof.
  refine (proj1 (create_without_ids_rejects defaultOptions
            {| File.name := "a.mov"; File.size := 100; File.type := "video/quicktime" |}
            1 (new_instance ∅) (fresh_start (new_instance ∅))
            {| resp_uploadId := None; resp_s3Filename := Some "k" |} _ _ _)).
  - reflexivity.
  - reflexivity.
  - left. reflexivity.
Defined.

(** ** Progress on the [totalProgress] channel *)

(** C1 does not hold of the code.  A 30 MiB file is resumed with parts 1 and
    2 of 3 finished: [uploadUnfinishedMultipart] emits the rounded
    [Math.round(2 / 3 * 100) = 67] without recording it in
    [totalUploadProgress]; the first progress event of part 3, at 0 percent
    of the part, makes [onprogress] compute [Math.floor(200 / 3) = 66], which
    is above the recorded 0, and emit it. *)
Theorem resumed_progress_steps_back :
  ∃ s,
    uploadMultipart defaultOptions
      {| File.name := "a.mov"; File.size := 31457280; File.type := "video/quicktime" |} 2
      (new_instance (<["video|a.mov" := {|
         originalFilename := Some "a.mov"; totalFileSizeInBytes := Some 31457280;
         totalParts := Some 3; partSizeInBytes := Some (1038090240 # 96)%Q;
         finishedParts := Some [ {| ETag := Some "e1"; PartNumber := 1 |};
                                 {| ETag := Some "e2"; PartNumber := 2 |} ];
         uploadId := Some "u"; s3Filename := Some "k" |}]> ∅)) = Some s
    ∧ totalProgress_values (emitted s) = [67]
    ∧ totalProgress_values
        (emitted (run defaultOptions
           {| File.name := "a.mov"; File.size := 31457280; File.type := "video/quicktime" |}
           s [SignResolved 3 (Some "https://s3/part3"); XhrProgress 3 16384 9830400]))
      = [67; 66].
Proof.
  eexists. split; [reflexivity|]. split; vm_compute; reflexivity.
Qed.

(** ** The uploader: what holds once the parts are submitted *)

Lemma throttle_enter_waiting {K} `{EqDecision K} limit (k : K) (s : Throttle.state K) :
  Throttle.waiting (Throttle.enter limit k s).1 ⊆ Throttle.waiting s ++ [k].
Proof.
  unfold Throttle.enter. intros x.
  repeat (case_match; simpl); rewrite elem_of_app; tauto.
Qed.

Lemma throttle_wake_subset {K} `{EqDecision K} limit (ws : list K) (s : Throttle.state K) :
  (Throttle.wake limit ws s).2 ⊆ ws
  ∧ Throttle.waiting (Throttle.wake limit ws s).1 ⊆ Throttle.waiting s ++ ws.
Proof.
  revert s. induction ws as [|k ws IH]; intros s; simpl.
  - split; [done|]. by rewrite app_nil_r.
  - pose proof (throttle_enter_waiting limit k s) as Hw.
    destruct (Throttle.enter limit k s) as [s1 v] eqn:He. simpl in Hw.
    specialize (IH s1). destruct (Throttle.wake limit ws s1) as [s2 ls]. simpl in *.
    destruct IH as [IH1 IH2]. split.
    + destruct v; intros x Hx; rewrite ?elem_of_cons in *;
        try (destruct Hx as [Hx|Hx]; [by left|]); right; by apply IH1.
    + intros x Hx. apply IH2, elem_of_app in Hx as [Hx|Hx].
      * apply Hw, elem_of_app in Hx as [Hx|Hx]; rewrite elem_of_app, elem_of_cons.
        -- by left.
        -- apply list_elem_of_singleton in Hx. right; by left.
      * rewrite elem_of_app, elem_of_cons. right; by right.
Qed.

Lemma throttle_fulfil_subset {K} `{EqDecision K} limit (t : K) (s : Throttle.state K) :
  (Throttle.fulfil limit t s).2 ⊆ Throttle.waiting s
  ∧ Throttle.waiting (Throttle.fulfil limit t s).1 ⊆ Throttle.waiting s.
Proof.
  unfold Throttle.fulfil. case_bool_decide; [|split; simpl; [|done]].
  - match goal with |- context [Throttle.wake limit ?ws ?s0] =>
      destruct (throttle_wake_subset limit ws s0) as [Hl Hw] end.
    by simpl in Hw.
  - intros x Hx. by apply elem_of_nil in Hx.
Qed.

Lemma throttle_reject_waiting {K} `{EqDecision K} (t : K) (s : Throttle.state K) :
  Throttle.waiting (Throttle.reject t s).1 ⊆ Throttle.waiting s.
Proof.
  unfold Throttle.reject. case_bool_decide; simpl; [|done].
  intros x Hx. by apply elem_of_nil in Hx.
Qed.

Lemma uploader_launch_fold l s :
  let s' := fold_left (λ s0 p, launch p s0) l s in
  localStorage s' = localStorage s
  ∧ phase s' = phase s
  ∧ loopTotalParts s' = loopTotalParts s
  ∧ uploadPartsArray s' = uploadPartsArray s
  ∧ promisesArr s' = promisesArr s
  ∧ throttle s' = throttle s
  ∧ ∀ q, tasks s' !! q = if decide (q ∈ l) then Some Signing else tasks s !! q.
Proof.
  revert s. induction l as [|p l IH]; intros s; simpl.
  - by split_and!.
  - destruct (IH (launch p s)) as (-> & -> & -> & -> & -> & -> & Ht).
    split_and!; try done.
    intros q. rewrite Ht. simpl.
    destruct (decide (q ∈ l)) as [Hq|Hq].
    + rewrite decide_True; [done|]. apply elem_of_cons; by right.
    + destruct (decide (q = p)) as [->|Hne].
      * rewrite lookup_insert_eq. rewrite decide_True; [done|]. apply elem_of_cons; by left.
      * rewrite lookup_insert_ne by done. rewrite decide_False; [done|].
        intros [?|?]%elem_of_cons; done.
Qed.

(** While [loopMultipartParts] runs, a factory that was called is awaiting
    its signed URL, and whatever the throttle knows of was submitted. *)
Lemma uploader_loop_fold_tasks o lookup l s :
  (∀ p t, tasks s !! p = Some t → t = Signing ∧ p ∈ promisesArr s) →
  (∀ p, p ∈ Throttle.waiting (throttle s) → p ∈ promisesArr s) →
  let s' := fold_left (loop_body o lookup) l s in
  (∀ p t, tasks s' !! p = Some t → t = Signing ∧ p ∈ promisesArr s')
  ∧ (∀ p, p ∈ Throttle.waiting (throttle s') → p ∈ promisesArr s').
Proof.
  revert s. induction l as [|x l IH]; intros s Ht Hw; simpl; [done|].
  apply IH.
  - intros p t. unfold loop_body. destruct (lookup !! (x + 1)); [apply Ht|].
    unfold submit. destruct (Throttle.enter _ _ _) as [th v] eqn:He.
    destruct v; simpl.
    + destruct (decide (p = x + 1)) as [->|Hne].
      * rewrite lookup_insert_eq. intros [= <-]. split; [done|].
        apply elem_of_app. right. by apply list_elem_of_singleton.
      * rewrite lookup_insert_ne by done. intros Hq. apply Ht in Hq as [-> Hq].
        split; [done|]. apply elem_of_app; by left.
    + intros Hq. apply Ht in Hq as [-> Hq]. split; [done|]. apply elem_of_app; by left.
    + intros Hq. apply Ht in Hq as [-> Hq]. split; [done|]. apply elem_of_app; by left.
  - intros p. unfold loop_body. destruct (lookup !! (x + 1)); [apply Hw|].
    pose proof (throttle_enter_waiting (concurrencyLimit o) (x + 1) (throttle s)) as Hs.
    unfold submit. destruct (Throttle.enter _ _ _) as [th v] eqn:He. simpl in Hs.
    destruct v; simpl; intros Hp; apply Hs, elem_of_app in Hp as [Hp|Hp];
      apply elem_of_app; (by right) || (left; by apply Hw).
Qed.

Lemma uploader_seqZ_sorted m n : StronglySorted Z.lt (seqZ m n).
Proof.
  destruct (decide (n <= 0)) as [Hn|Hn].
  { unfold seqZ. rewrite Z2Nat.nonpos by done. constructor. }
  rewrite <- (Z2Nat.id n) by lia. generalize (Z.to_nat n). clear n Hn. intros k.
  induction k as [|k IH]; [constructor|].
  rewrite seqZ_S. apply StronglySorted_app_2; [|done|repeat constructor].
  intros x y Hx Hy. apply elem_of_seqZ in Hx. apply list_elem_of_singleton in Hy. lia.
Qed.

Lemma uploader_filter_sorted (P : Z → Prop) `{∀ x, Decision (P x)} (l : list Z) :
  StronglySorted Z.lt l → StronglySorted Z.lt (filter P l).
Proof.
  induction 1 as [|x l Hl IH Hx]; [constructor|].
  rewrite filter_cons. destruct (decide (P x)); [|done].
  constructor; [done|].
  apply Forall_forall. intros y Hy. apply list_elem_of_filter in Hy as [_ Hy].
  rewrite Forall_forall in Hx. by apply Hx.
Qed.

(** the lookup that [uploadUnfinishedMultipart] builds has every part of
    the list it is built from *)
Lemma uploader_lookup_has (cleaned : list UploadPartResponse)
    (m : gmap Z UploadPartResponse) (k : Z) :
  (is_Some (m !! k) ∨ ∃ r, r ∈ cleaned ∧ PartNumber r = k) ↔
  is_Some (fold_left (λ obj item, <[PartNumber item := item]> obj) cleaned m !! k).
Proof.
  revert m. induction cleaned as [|x cleaned IH]; intros m; simpl.
  - split; [intros [?|(r & Hr & _)]; [done|by apply elem_of_nil in Hr]|by left].
  - rewrite <- IH. rewrite lookup_insert. split.
    + intros [Hm|(r & Hr & Hk)].
      * left. by case_decide.
      * apply elem_of_cons in Hr as [->|Hr]; [|right; eauto].
        left. by rewrite decide_True.
    + intros [Hm|(r & Hr & Hk)].
      * case_decide; [|by left]. right. exists x. split; [apply elem_of_cons; by left|done].
      * right. exists r. split; [apply elem_of_cons; by right|done].
Qed.

(** Every field that [invariant] reads is left alone by these updates. *)
Lemma uploader_invariant_emit f e s : invariant f s → invariant f (emit e s).
Proof. intros []. by split. Qed.

Lemma uploader_invariant_progress f v s :
  invariant f s → invariant f (set_partsUploadProgress v s).
Proof. intros []. by split. Qed.

Lemma uploader_invariant_total f v s :
  invariant f s → invariant f (set_totalUploadProgress v s).
Proof. intros []. by split. Qed.

Lemma uploader_invariant_inProgress f v s :
  invariant f s → invariant f (set_uploadInProgress v s).
Proof. intros []. by split. Qed.

Lemma uploader_resolvedArr_spec s arr :
  resolvedArr s = Some arr →
  ∀ p, p ∈ promisesArr s → ∃ r, tasks s !! p = Some (Fulfilled r) ∧ r ∈ arr.
Proof.
  unfold resolvedArr. intros Hm%mapM_Some_1 p Hp.
  induction Hm as [|q r l k Hq Hm IH]; [by apply elem_of_nil in Hp|].
  apply elem_of_cons in Hp as [->|Hp].
  - exists r. split; [|apply elem_of_cons; by left].
    destruct (tasks s !! q) as [[]|]; by simplify_eq.
  - destruct (IH Hp) as (r' & ? & ?). exists r'. split; [done|apply elem_of_cons; by right].
Qed.

Lemma uploader_resolvedArr_numbers s arr :
  (∀ p r, tasks s !! p = Some (Fulfilled r) → PartNumber r = p) →
  resolvedArr s = Some arr → PartNumber <$> arr = promisesArr s.
Proof.
  unfold resolvedArr. intros Hf Hm%mapM_Some_1.
  induction Hm as [|q r l k Hq Hm IH]; [done|].
  rewrite fmap_cons, IH. f_equal. apply Hf.
  destruct (tasks s !! q) as [[]|]; by simplify_eq.
Qed.

(** [await Promise.all] fulfilling keeps the invariant. *)
Lemma uploader_invariant_then f s : invariant f s → invariant f (promise_all_then s).
Proof.
  intros Hi. unfold promise_all_then.
  destruct (phase s) eqn:Hp; try done.
  destruct (resolvedArr s) as [arr|] eqn:Harr; [|done].
  pose proof (uploader_resolvedArr_spec s arr Harr) as Hall.
  pose proof (uploader_resolvedArr_numbers s arr (inv_fulfilled _ _ Hi) Harr) as Hnum.
  destruct Hi as [H1 H2 H3 H4 H5 H6 H7 H8 H9 H10 H11].
  assert (Hful : ∀ p t, tasks s !! p = Some t → ∃ r, t = Fulfilled r).
  { intros p t Ht. destruct (Hall p (H5 _ _ Ht)) as (r & Hr & _).
    exists r. congruence. }
  assert (Hrec : ∃ localRecord parts,
        localStorage s !! key f = Some localRecord
        ∧ finishedParts localRecord = Some parts
        ∧ truthy_str (uploadId localRecord) = true
        ∧ truthy_str (s3Filename localRecord) = true
        ∧ totalParts localRecord = Some (loopTotalParts s)
        ∧ (∃ q, partSizeInBytes localRecord = Some q ∧ Qeq_bool q 0 = false)
        ∧ ∀ p r, tasks s !! p = Some (Fulfilled r) → r ∈ parts).
  { destruct H10 as [[k Hk]|Hrec]; [congruence|done]. }
  set (parts' := match uploadPartsArray s with
                 | None => arr
                 | Some finished => sort (finished ++ arr)
                 end).
  replace (match uploadPartsArray s with
           | None => set_phase (Completing arr) s
           | Some finished => set_phase (Completing (sort (finished ++ arr))) s
           end) with (set_phase (Completing parts') s)
    by (unfold parts'; by destruct (uploadPartsArray s)).
  split; simpl; try done.
  - by right.
  - intros p Hr. apply Hful in Hr as [r Hr]. done.
  - by right.
  - intros parts [= <-]. by exists arr.
Qed.

(** Once [loopMultipartParts] has run over a persisted record, the
    invariant holds. *)
Lemma uploader_invariant_loop o f n lookup s localRecord parts :
  localStorage s !! key f = Some localRecord →
  finishedParts localRecord = Some parts →
  truthy_str (uploadId localRecord) = true →
  truthy_str (s3Filename localRecord) = true →
  totalParts localRecord = Some n →
  (∃ q, partSizeInBytes localRecord = Some q ∧ Qeq_bool q 0 = false) →
  (∀ finished r, uploadPartsArray s = Some finished → r ∈ finished →
     is_Some (lookup !! PartNumber r)) →
  invariant f (set_phase Uploading (loopMultipartParts o n lookup s)).
Proof.
  intros Hrec Hparts Hu Hs Hn Hq Hlook.
  destruct (uploader_loop_frame o n lookup s) as (Hls & _ & _ & _ & Htot & Hupa & Hpro).
  assert (Htasks :
    (∀ p t, tasks (loopMultipartParts o n lookup s) !! p = Some t →
       t = Signing ∧ p ∈ promisesArr (loopMultipartParts o n lookup s))
    ∧ (∀ p, p ∈ Throttle.waiting (throttle (loopMultipartParts o n lookup s)) →
         p ∈ promisesArr (loopMultipartParts o n lookup s))).
  { unfold loopMultipartParts. apply uploader_loop_fold_tasks.
    - intros p t. simpl. by rewrite lookup_empty.
    - intros p Hp. simpl in Hp. by apply elem_of_nil in Hp. }
  destruct Htasks as [Htasks Hwait].
  split; simpl.
  - done.
  - rewrite Hpro. apply uploader_filter_sorted, uploader_seqZ_sorted.
  - intros p. rewrite Hpro, Htot. intros [_ Hp%elem_of_seqZ]%list_elem_of_filter. lia.
  - intros finished r. rewrite Hupa, Hpro. intros Hf Hr [Hnone _]%list_elem_of_filter.
    destruct (Hlook finished r Hf Hr) as [x Hx]. congruence.
  - intros p t Ht. by apply Htasks in Ht as [_ Ht].
  - exact Hwait.
  - intros p r Ht. by apply Htasks in Ht as [Ht _].
  - left; by left.
  - intros p Ht. by apply Htasks in Ht as [Ht _].
  - right. exists localRecord, parts. rewrite Hls, Htot. split_and!; try done.
    intros p r Ht. by apply Htasks in Ht as [Ht _].
  - done.
Qed.

(** A task that is still running means the call has not got past
    [Promise.all]. *)
Lemma uploader_running_phase f s p t :
  invariant f s → tasks s !! p = Some t → t = Signing ∨ t = Putting →
  phase s = Uploading ∨ phase s = Failed ErrParts.
Proof.
  intros Hi Ht Hrun. destruct (inv_settled _ _ Hi) as [Hp|Hall]; [done|].
  destruct (Hall _ _ Ht) as [r ->]. by destruct Hrun.
Qed.

(** A running task rejects: the call rejects, if it had not already, and
    the invariant holds on. *)
Lemma uploader_invariant_rejected f s p t :
  invariant f s → tasks s !! p = Some t → t = Signing ∨ t = Putting →
  invariant f (task_rejected p s) ∧ phase (task_rejected p s) = Failed ErrParts.
Proof.
  intros Hi Ht Hrun.
  pose proof (uploader_running_phase f s p t Hi Ht Hrun) as Hph.
  pose proof (throttle_reject_waiting p (throttle s)) as Hw.
  unfold task_rejected. destruct (Throttle.reject p (throttle s)) as [th ab] eqn:Hth.
  simpl in Hw. unfold promise_all_catch. simpl phase.
  destruct Hi as [H1 H2 H3 H4 H5 H6 H7 H8 H9 H10 H11].
  assert (Hrec : ∃ localRecord parts,
        localStorage s !! key f = Some localRecord
        ∧ finishedParts localRecord = Some parts
        ∧ truthy_str (uploadId localRecord) = true
        ∧ truthy_str (s3Filename localRecord) = true
        ∧ totalParts localRecord = Some (loopTotalParts s)
        ∧ (∃ q, partSizeInBytes localRecord = Some q ∧ Qeq_bool q 0 = false)
        ∧ ∀ p r, tasks s !! p = Some (Fulfilled r) → r ∈ parts).
  { destruct H10 as [[k Hk]|Hrec]; [destruct Hph; congruence|done]. }
  assert (Hother : ∀ q t', <[p := Rejected]> (tasks s) !! q = Some t' →
            t' = Rejected ∧ q = p ∨ tasks s !! q = Some t').
  { intros q t'. rewrite lookup_insert. case_decide; [|by right].
    intros [= <-]. left. by subst. }
  destruct Hph as [Hph|Hph]; rewrite Hph; (split; [|done]); split; simpl; try done.
  all: try (by left; right).
  all: try (intros q t' [[-> ->]|Hq]%Hother; eauto).
  all: try (intros q r [[? _]|Hq]%Hother; [done|eauto]).
  all: try (intros q Hq; apply H6, Hw, Hq).
  all: try (right; destruct Hrec as (lr & ps & ? & ? & ? & ? & ? & ? & Hin);
            exists lr, ps; split_and!; try done;
            intros q r [[? _]|Hq]%Hother; [done|eauto]).
Qed.

(** A part is stored: [xhr.onload] with a 2xx status keeps the invariant,
    and the record now holds the response. *)
Lemma uploader_invariant_onload o f s p status eTagHeader :
  invariant f s → tasks s !! p = Some Putting →
  invariant f (onload o f p status eTagHeader s).
Proof.
  intros Hi Ht. unfold onload.
  destruct ((200 <=? status) && (status <? 300)) eqn:Hstatus.
  2:{ eapply uploader_invariant_rejected; eauto. }
  pose proof (uploader_running_phase f s p _ Hi Ht (or_intror eq_refl)) as Hph.
  set (resp := {| ETag := match eTagHeader with
                          | Some h => if truthy_str eTagHeader then Some (strip_quotes h)
                                      else eTagHeader
                          | None => None
                          end;
                  PartNumber := p |}).
  destruct Hi as [H1 H2 H3 H4 H5 H6 H7 H8 H9 H10 H11].
  destruct H10 as [[k Hk]|(localRecord & parts & Hls & Hfp & Hu & Hs3 & Htp & Hq & Hin)];
    [destruct Hph; congruence|].
  unfold getAndParseLS. simpl localStorage. rewrite Hls, Hfp.
  unfold task_fulfilled. simpl throttle.
  pose proof (throttle_fulfil_subset (concurrencyLimit o) p (throttle s)) as [Hl Hw].
  destruct (Throttle.fulfil (concurrencyLimit o) p (throttle s)) as [th launched].
  simpl in Hl, Hw.
  apply uploader_invariant_then.
  match goal with |- invariant f (fold_left _ launched ?s0) =>
    destruct (uploader_launch_fold launched s0) as (Els & Eph & Etp & Eup & Epr & Eth & Etk) end.
  simpl in Els, Eph, Etp, Eup, Epr, Eth, Etk.
  assert (Hcases : ∀ q t,
    (if decide (q ∈ launched) then Some Signing
     else <[p := Fulfilled resp]> (tasks s) !! q) = Some t →
    (t = Signing ∧ q ∈ launched) ∨ (t = Fulfilled resp ∧ q = p)
    ∨ (q ≠ p ∧ tasks s !! q = Some t)).
  { intros q t. case_decide; [intros [= <-]; by left|].
    rewrite lookup_insert. case_decide; [intros [= <-]; right; left; by subst|].
    intros Hq'. right; right. by split. }
  split; rewrite ?Els, ?Eph, ?Etp, ?Eup, ?Epr, ?Eth; simpl; try done.
  - intros q t. rewrite Etk. intros [[_ Hq']|[[_ ->]|[_ Hq']]]%Hcases; eauto.
  - intros q Hq'. apply H6, Hw, Hq'.
  - intros q r. rewrite Etk. intros [[? _]|[[? ->]|[_ Hq']]]%Hcases; [done| |eauto].
    by simplify_eq.
  - by left.
  - intros q. rewrite Etk. intros [[? _]|[[? _]|[_ Hq']]]%Hcases; [done|done|eauto].
  - right. exists (with_finishedParts (parts ++ [resp]) localRecord), (parts ++ [resp]).
    rewrite lookup_insert_eq. split_and!; try done.
    intros q r. rewrite Etk. intros [[? _]|[[? _]|[_ Hq']]]%Hcases; [done| |].
    + simplify_eq. apply elem_of_app. right. by apply list_elem_of_singleton.
    + apply elem_of_app. left. eauto.
Qed.

Lemma uploader_invariant_onprogress f s p loaded total :
  invariant f s → invariant f (onprogress p loaded total s).
Proof.
  intros Hi. unfold onprogress. destruct (total =? 0)%N; [done|].
  case_match.
  - by apply uploader_invariant_emit, uploader_invariant_total, uploader_invariant_progress.
  - by apply uploader_invariant_progress.
Qed.

Lemma uploader_invariant_set_task f s p t t' :
  invariant f s → tasks s !! p = Some t → t = Signing → t' = Putting →
  invariant f (set_task p t' s).
Proof.
  intros Hi Ht -> ->.
  pose proof (uploader_running_phase f s p _ Hi Ht (or_introl eq_refl)) as Hph.
  destruct Hi as [H1 H2 H3 H4 H5 H6 H7 H8 H9 H10 H11].
  assert (Hother : ∀ q t', <[p := Putting]> (tasks s) !! q = Some t' →
            t' = Putting ∧ q = p ∨ tasks s !! q = Some t').
  { intros q t'. rewrite lookup_insert. case_decide; [|by right].
    intros [= <-]. left. by subst. }
  split; simpl; try done.
  - intros q t' [[_ ->]|Hq]%Hother; eauto.
  - intros q r [[? _]|Hq]%Hother; [done|eauto].
  - by left.
  - intros q [[? _]|Hq]%Hother; [done|eauto].
  - destruct H10 as [?|(lr & ps & ? & ? & ? & ? & ? & ? & Hin)]; [by left|right].
    exists lr, ps. split_and!; try done.
    intros q r [[? _]|Hq]%Hother; [done|eauto].
Qed.

(** Every callback keeps the invariant. *)
Lemma uploader_invariant_step o f s i :
  invariant f s → invariant f (step o f s i).
Proof.
  intros Hi. destruct i as [r| |p url|p|p loaded total|p status etag|p|k|]; simpl.
  - destruct (phase s) eqn:Hp; try done. by destruct (inv_phase _ _ Hi).
  - destruct (phase s) eqn:Hp; try done. by destruct (inv_phase _ _ Hi).
  - destruct (tasks s !! p) as [[]|] eqn:Ht; try done.
    eapply uploader_invariant_set_task; [by apply uploader_invariant_emit|done..].
  - destruct (tasks s !! p) as [[]|] eqn:Ht; try done.
    eapply uploader_invariant_rejected; [by apply uploader_invariant_emit|done|by left].
  - destruct (tasks s !! p) as [[]|] eqn:Ht; try done.
    by apply uploader_invariant_onprogress.
  - destruct (tasks s !! p) as [[]|] eqn:Ht; try done.
    by apply uploader_invariant_onload.
  - destruct (tasks s !! p) as [[]|] eqn:Ht; try done. unfold onerror.
    eapply uploader_invariant_rejected; [by apply uploader_invariant_emit|done|by right].
  - destruct (phase s) eqn:Hp; try done. unfold complete_then.
    destruct Hi as [H1 H2 H3 H4 H5 H6 H7 H8 H9 H10 H11].
    destruct H8 as [[?|?]|Hall]; [congruence..|].
    split; simpl; try done.
    + by right.
    + intros q Hq. apply Hall in Hq as [? ?]. done.
    + left. eauto.
  - destruct (phase s) eqn:Hp; try done. unfold complete_catch.
    destruct Hi as [H1 H2 H3 H4 H5 H6 H7 H8 H9 H10 H11].
    destruct H8 as [[?|?]|Hall]; [congruence..|].
    split; simpl; try done.
    + by right.
    + intros q Hq. apply Hall in Hq as [? ?]. done.
    + right. destruct H10 as [[? ?]|?]; [congruence|done].
Qed.

Lemma uploader_invariant_run o f inputs s :
  invariant f s → invariant f (run o f s inputs).
Proof.
  revert s. induction inputs as [|i inputs IH]; intros s Hi; simpl; [done|].
  by apply IH, uploader_invariant_step.
Qed.

Lemma uploader_complete_true localRecord cleaned :
  isCompleteLocalRecord localRecord cleaned = true →
  truthy_str (uploadId localRecord) = true
  ∧ truthy_str (s3Filename localRecord) = true
  ∧ cleaned ≠ []
  ∧ (∃ n, totalParts localRecord = Some n ∧ 0 < n)
  ∧ (∃ q, partSizeInBytes localRecord = Some q ∧ Qeq_bool q 0 = false).
Proof.
  unfold isCompleteLocalRecord. rewrite !andb_true_iff.
  intros ((((Hu & Hs) & Hc) & Hn) & Hq). split_and!; try done.
  - destruct cleaned; [done|discriminate].
  - destruct (totalParts localRecord) as [n|]; [|done]. exists n. split; [done|].
    by apply Z.ltb_lt.
  - destruct (partSizeInBytes localRecord) as [q|]; [|done]. exists q. split; [done|].
    by apply negb_true_iff.
Qed.

(** The resume flow reaches its [await Promise.all] with the invariant. *)
Lemma uploader_invariant_resume o f localRecord parts i s :
  finishedParts localRecord = Some parts →
  isCompleteLocalRecord localRecord (Util.cleanUpETags parts) = true →
  uploadUnfinishedMultipart o f (λ _, None) localRecord (enter_call i) = Some s →
  invariant f s
  ∧ uploadPartsArray s = Some (Util.cleanUpETags parts)
  ∧ promisesArr s
    = filter (λ p, p ∉ PartNumber <$> Util.cleanUpETags parts)
        (seqZ 1 (default 0 (totalParts localRecord))).
Proof.
  intros Hparts Hc. unfold uploadUnfinishedMultipart. rewrite Hparts. simpl default at 1 2 3 4 5.
  rewrite Hc. simpl negb. cbv iota. intros [= <-].
  destruct (uploader_complete_true _ _ Hc) as (Hu & Hs3 & Hne & (n & Hn & Hpos) & Hq).
  rewrite Hn. simpl default.
  set (cleaned := Util.cleanUpETags parts) in *.
  set (lookup := fold_left (λ obj item, <[PartNumber item := item]> obj) cleaned
                   (∅ : gmap Z UploadPartResponse)).
  match goal with |- context [loopMultipartParts o n lookup ?s0] => set (s3 := s0) end.
  destruct (uploader_promise_all_then_frame
              (set_phase Uploading (loopMultipartParts o n lookup s3)))
    as (_ & _ & _ & _ & _ & _ & -> & -> & _).
  destruct (uploader_loop_frame o n lookup s3) as (_ & _ & _ & _ & _ & Hupa & Hpro).
  simpl uploadPartsArray. simpl promisesArr. rewrite Hupa, Hpro.
  split_and!.
  - apply uploader_invariant_then.
    apply (uploader_invariant_loop o f n lookup s3
             (with_finishedParts cleaned localRecord) cleaned); try done.
    + unfold s3. simpl. apply lookup_insert_eq.
    + unfold s3. simpl. intros finished r [= <-] Hr.
      apply uploader_lookup_has. right. eauto.
  - done.
  - apply list_filter_iff. intros p. split.
    + intros Hnone (r & -> & Hr)%list_elem_of_fmap.
      assert (is_Some (lookup !! PartNumber r)) as [x Hx]; [|congruence].
      apply uploader_lookup_has. right. eauto.
    + intros Hall. destruct (lookup !! p) eqn:Hl; [|done]. exfalso.
      assert (is_Some (lookup !! p)) as Hsome by eauto.
      apply uploader_lookup_has in Hsome as [[x Hx]|(r & Hr & Hp)].
      * by rewrite lookup_empty in Hx.
      * apply Hall. apply list_elem_of_fmap. eauto.
Qed.

(** The create flow reaches its [await Promise.all] with the invariant. *)
Lemma uploader_invariant_create o f r s :
  phase s = Creating → uploadPartsArray s = None →
  truthy_str (resp_uploadId r) = true →
  truthy_str (resp_s3Filename r) = true →
  invariant f (create_then o f r s)
  ∧ uploadPartsArray (create_then o f r s) = None.
Proof.
  intros Hp Hupa Hu Hs3. unfold create_then. rewrite Hu, Hs3. simpl negb. simpl orb.
  cbv iota.
  match goal with |- context [loopMultipartParts o ?n ∅ ?s0] => set (s1 := s0) end.
  destruct (uploader_promise_all_then_frame
              (set_phase Uploading (loopMultipartParts o (Planner.numParts o f) ∅ s1)))
    as (_ & _ & _ & _ & _ & _ & -> & _).
  destruct (uploader_loop_frame o (Planner.numParts o f) ∅ s1) as (_ & _ & _ & _ & _ & Hu' & _).
  simpl uploadPartsArray. rewrite Hu'. split; [|done].
  apply uploader_invariant_then.
  eapply (uploader_invariant_loop o f _ ∅ s1); try done.
  - unfold s1. simpl. apply lookup_insert_eq.
  - done.
  - done.
  - done.
  - done.
  - simpl. eexists. split; [done|].
    pose proof (planner_partSizeInBytes_pos o f) as Hpos.
    destruct (Qeq_bool (Planner.partSizeInBytes o f) 0) eqn:Hq; [|done].
    apply Qeq_bool_iff in Hq. rewrite Hq in Hpos. by apply Qlt_irrefl in Hpos.
  - unfold s1. simpl. rewrite Hupa. done.
Qed.

(** A call of the create flow that is not yet past its create call stays
    so, or gets past it with the invariant. *)
Lemma uploader_before_parts_step o f s i :
  before_parts s →
  before_parts (step o f s i)
  ∨ (invariant f (step o f s i) ∧ uploadPartsArray (step o f s i) = None).
Proof.
  intros Hb. pose proof Hb as (Ht & Hupa & Hthr & Hp).
  destruct i as [r| |p url|p|p loaded total|p status etag|p|k|]; simpl;
    rewrite ?Ht, ?lookup_empty; try (by left).
  - destruct (phase s) eqn:Hph; try (by left). clear Hp.
    destruct (truthy_str (resp_uploadId r)) eqn:Hu;
      [destruct (truthy_str (resp_s3Filename r)) eqn:Hs3|].
    + right. by apply uploader_invariant_create.
    + left. unfold create_then. rewrite Hs3. simpl.
      split_and!; try done. right; by right.
    + left. unfold create_then. rewrite Hu, orb_true_r. simpl.
      split_and!; try done. right; by right.
  - destruct (phase s) eqn:Hph; try (by left).
    left. unfold create_catch. simpl. split_and!; try done. right; by left.
  - destruct (phase s) eqn:Hph; try (by left).
    destruct Hp as [?|[?|?]]; congruence.
  - destruct (phase s) eqn:Hph; try (by left).
    destruct Hp as [?|[?|?]]; congruence.
Qed.

Lemma uploader_task_rejected_frame p s :
  uploadPartsArray (task_rejected p s) = uploadPartsArray s
  ∧ promisesArr (task_rejected p s) = promisesArr s
  ∧ loopTotalParts (task_rejected p s) = loopTotalParts s
  ∧ localStorage (task_rejected p s) = localStorage s.
Proof.
  unfold task_rejected. destruct (Throttle.reject _ _).
  unfold promise_all_catch. simpl. by case_match.
Qed.

Lemma uploader_task_fulfilled_frame o p s :
  uploadPartsArray (task_fulfilled o p s) = uploadPartsArray s
  ∧ promisesArr (task_fulfilled o p s) = promisesArr s
  ∧ loopTotalParts (task_fulfilled o p s) = loopTotalParts s
  ∧ localStorage (task_fulfilled o p s) = localStorage s.
Proof.
  unfold task_fulfilled. destruct (Throttle.fulfil _ _ _) as [th launched].
  match goal with |- context [promise_all_then ?x] =>
    destruct (uploader_promise_all_then_frame x) as (-> & _ & _ & _ & _ & -> & -> & -> & _) end.
  match goal with |- context [fold_left _ launched ?s0] =>
    destruct (uploader_launch_fold launched s0) as (-> & _ & -> & -> & -> & _) end.
  done.
Qed.

(** The parts a call works on are fixed once it has submitted them. *)
Lemma uploader_step_parts o f s i :
  phase s ≠ Creating →
  uploadPartsArray (step o f s i) = uploadPartsArray s
  ∧ promisesArr (step o f s i) = promisesArr s
  ∧ loopTotalParts (step o f s i) = loopTotalParts s.
Proof.
  intros Hp. destruct i as [r| |p url|p|p loaded total|p status etag|p|k|]; simpl.
  - by destruct (phase s).
  - by destruct (phase s).
  - by destruct (tasks s !! p) as [[]|].
  - destruct (tasks s !! p) as [[]|]; try done.
    by destruct (uploader_task_rejected_frame p (emit (error (ErrSign p)) s))
      as (-> & -> & -> & _).
  - destruct (tasks s !! p) as [[]|]; try done. unfold onprogress.
    by repeat case_match.
  - destruct (tasks s !! p) as [[]|]; try done. unfold onload.
    destruct ((200 <=? status) && (status <? 300)).
    + match goal with |- context [task_fulfilled o p ?x] =>
        destruct (uploader_task_fulfilled_frame o p x) as (-> & -> & -> & _) end.
      by repeat case_match.
    + by destruct (uploader_task_rejected_frame p s) as (-> & -> & -> & _).
  - destruct (tasks s !! p) as [[]|]; try done. unfold onerror.
    match goal with |- context [task_rejected p ?x] =>
      by destruct (uploader_task_rejected_frame p x) as (-> & -> & -> & _) end.
  - by destruct (phase s).
  - by destruct (phase s).
Qed.

Lemma uploader_run_parts o f inputs s :
  invariant f s →
  uploadPartsArray (run o f s inputs) = uploadPartsArray s
  ∧ promisesArr (run o f s inputs) = promisesArr s
  ∧ loopTotalParts (run o f s inputs) = loopTotalParts s.
Proof.
  revert s. induction inputs as [|i inputs IH]; intros s Hi; simpl; [done|].
  destruct (IH (step o f s i) (uploader_invariant_step o f s i Hi)) as (-> & -> & ->).
  apply uploader_step_parts, (inv_phase _ _ Hi).
Qed.

(** ** The parts handed to [uploadMultipartComplete] *)

Lemma uploader_sort_insert_perm a l : sort_insert a l ≡ₚ a :: l.
Proof.
  induction l as [|b l IH]; simpl; [done|].
  destruct (PartNumber a <=? PartNumber b); [done|].
  rewrite IH. apply Permutation_swap.
Qed.

Lemma uploader_sort_perm l : sort l ≡ₚ l.
Proof.
  induction l as [|a l IH]; simpl; [done|].
  unfold sort in *. simpl. by rewrite uploader_sort_insert_perm, IH.
Qed.

Lemma uploader_sort_insert_sorted a l :
  StronglySorted Z.le (PartNumber <$> l) →
  StronglySorted Z.le (PartNumber <$> sort_insert a l).
Proof.
  induction l as [|b l IH]; simpl; intros Hl.
  - repeat constructor.
  - apply StronglySorted_inv in Hl as [Hl Hb].
    destruct (PartNumber a <=? PartNumber b) eqn:Hab.
    + apply Z.leb_le in Hab. rewrite !fmap_cons. constructor.
      * by constructor.
      * constructor; [done|]. eapply Forall_impl; [exact Hb|]. simpl. lia.
    + apply Z.leb_gt in Hab. rewrite fmap_cons. constructor; [by apply IH|].
      rewrite uploader_sort_insert_perm. rewrite fmap_cons.
      constructor; [lia|done].
Qed.

Lemma uploader_sort_sorted l : StronglySorted Z.le (PartNumber <$> sort l).
Proof.
  induction l as [|a l IH]; [constructor|].
  unfold sort in *. simpl. by apply uploader_sort_insert_sorted.
Qed.

Lemma uploader_sorted_nodup_strict (l : list Z) :
  StronglySorted Z.le l → NoDup l → StronglySorted Z.lt l.
Proof.
  induction 1 as [|x l Hl IH Hx]; intros Hnd; [constructor|].
  apply NoDup_cons in Hnd as [Hnin Hnd]. constructor; [by apply IH|].
  apply Forall_forall. intros y Hy. rewrite Forall_forall in Hx.
  specialize (Hx y Hy). assert (x ≠ y) by (intros ->; done). lia.
Qed.

Lemma uploader_strict_nodup (l : list Z) : StronglySorted Z.lt l → NoDup l.
Proof.
  induction 1 as [|x l Hl IH Hx]; constructor; [|done].
  intros Hin. rewrite Forall_forall in Hx. specialize (Hx x Hin). lia.
Qed.

Lemma uploader_strict_le (l : list Z) : StronglySorted Z.lt l → StronglySorted Z.le l.
Proof.
  induction 1 as [|x l Hl IH Hx]; constructor; [done|].
  eapply Forall_impl; [exact Hx|]. simpl. lia.
Qed.

(** What a call of the create flow satisfies at any point. *)
Lemma uploader_create_flow_run o f inputs s :
  before_parts s →
  before_parts (run o f s inputs)
  ∨ (invariant f (run o f s inputs) ∧ uploadPartsArray (run o f s inputs) = None).
Proof.
  revert s. induction inputs as [|i inputs IH]; intros s Hb; simpl; [by left|].
  destruct (uploader_before_parts_step o f s i Hb) as [Hb'|[Hi Hu]]; [by apply IH|].
  right. split; [by apply uploader_invariant_run|].
  by destruct (uploader_run_parts o f inputs _ Hi) as (-> & _).
Qed.

Lemma uploader_fresh_start_before i : before_parts (fresh_start i).
Proof. split_and!; [done|done|done|by left]. Qed.

(** What any call satisfies at any point: either it is in the create flow
    and not yet past the create call, or the invariant holds and
    [uploadPartsArray] tells the flow: nothing in the create flow, the
    tagged finished parts of the record in the resume flow. *)
Lemma uploader_reachable o f fuel i s0 inputs :
  uploadMultipart o f fuel i = Some s0 →
  (phase s0 = Creating
   ∧ (before_parts (run o f s0 inputs)
      ∨ (invariant f (run o f s0 inputs) ∧ uploadPartsArray (run o f s0 inputs) = None)))
  ∨ (phase s0 ≠ Creating
     ∧ invariant f (run o f s0 inputs)
     ∧ ∃ localRecord parts,
         i_localStorage i !! key f = Some localRecord
         ∧ finishedParts localRecord = Some parts
         ∧ uploadPartsArray (run o f s0 inputs) = Some (Util.cleanUpETags parts)
         ∧ promisesArr (run o f s0 inputs)
           = filter (λ p, p ∉ PartNumber <$> Util.cleanUpETags parts)
               (seqZ 1 (default 0 (totalParts localRecord)))).
Proof.
  intros [->|[->|(localRecord & parts & Hrec & Hparts & Hc & Hs)]]%uploader_start_cases.
  - left. split; [done|]. apply uploader_create_flow_run, uploader_fresh_start_before.
  - left. split; [done|]. apply uploader_create_flow_run, uploader_fresh_start_before.
  - right. destruct (uploader_invariant_resume o f localRecord parts i s0 Hparts Hc Hs)
      as (Hi & Hu & Hp).
    split; [by apply (inv_phase _ _ Hi)|].
    split; [by apply uploader_invariant_run|].
    exists localRecord, parts.
    destruct (uploader_run_parts o f inputs s0 Hi) as (-> & -> & _). done.
Qed.

(** C6, as stated, fails in the resume flow: the sort is by [PartNumber]
    and nothing removes duplicates.  A record holding part 1 twice (two
    overlapping attempts both stored it) is resumed, part 2 is uploaded, and
    the complete call gets the parts numbered 1, 1, 2. *)
Lemma resumed_duplicates_reach_complete :
  ∃ s,
    uploadMultipart defaultOptions
      {| File.name := "a.mov"; File.size := 20971520; File.type := "video/quicktime" |} 2
      (new_instance (<["video|a.mov" := {|
         originalFilename := Some "a.mov"; totalFileSizeInBytes := Some 20971520;
         totalParts := Some 2; partSizeInBytes := Some (1027604480 # 96)%Q;
         finishedParts := Some [ {| ETag := Some "old"; PartNumber := 1 |};
                                 {| ETag := Some "new"; PartNumber := 1 |} ];
         uploadId := Some "u"; s3Filename := Some "k" |}]> ∅)) = Some s
    ∧ phase (run defaultOptions
               {| File.name := "a.mov"; File.size := 20971520; File.type := "video/quicktime" |}
               s [SignResolved 2 (Some "https://s3/part2"); XhrLoad 2 200 (Some "e2")])
      = Completing [ {| ETag := Some "old"; PartNumber := 1 |};
                     {| ETag := Some "new"; PartNumber := 1 |};
                     {| ETag := Some "e2"; PartNumber := 2 |} ]
    ∧ ¬ StronglySorted Z.lt
          (PartNumber <$> [ {| ETag := Some "old"; PartNumber := 1 |};
                            {| ETag := Some "new"; PartNumber := 1 |};
                            {| ETag := Some "e2"; PartNumber := 2 |} ]).
Proof.
  eexists. split; [reflexivity|]. split; [vm_compute; reflexivity|].
  intros Hs. apply StronglySorted_inv in Hs as [_ Hs].
  apply Forall_cons in Hs as [Hs _]. simpl in Hs. lia.
Qed.

(** C6, amended: whatever the order in which the parts finished, the parts
    handed to the complete call are in ascending order of [PartNumber];
    strictly ascending in the create flow, and strictly ascending in the
    resume flow when the tagged finished parts of the persisted record have
    distinct part numbers. *)
Theorem complete_receives_sorted_parts (o : Options) (f : File) (fuel : nat)
    (i : Instance) (s0 : State) (inputs : list Input) (parts : list UploadPartResponse) :
  uploadMultipart o f fuel i = Some s0 →
  phase (run o f s0 inputs) = Completing parts →
  StronglySorted Z.le (PartNumber <$> parts)
  ∧ (phase s0 = Creating → StronglySorted Z.lt (PartNumber <$> parts))
  ∧ (∀ localRecord finished,
       phase s0 ≠ Creating →
       i_localStorage i !! key f = Some localRecord →
       finishedParts localRecord = Some finished →
       NoDup (PartNumber <$> Util.cleanUpETags finished) →
       StronglySorted Z.lt (PartNumber <$> parts)).
Proof.
  intros Hs0 Hph.
  destruct (uploader_reachable o f fuel i s0 inputs Hs0)
    as [[Hc [Hb|[Hi Hu]]]|(Hc & Hi & localRecord & finished & Hrec & Hfin & Hu & Hpro)].
  - destruct Hb as (_ & _ & _ & [Hb|[Hb|Hb]]); congruence.
  - destruct (inv_completing _ _ Hi parts Hph) as (arr & Hnum & ->).
    rewrite Hu, Hnum. pose proof (inv_promises _ _ Hi) as Hsorted.
    split_and!; [by apply uploader_strict_le|done|done].
  - destruct (inv_completing _ _ Hi parts Hph) as (arr & Hnum & ->).
    rewrite Hu. split_and!; [apply uploader_sort_sorted|done|].
    intros localRecord' finished' _ Hrec' Hfin' Hnd. simplify_eq.
    apply uploader_sorted_nodup_strict; [apply uploader_sort_sorted|].
    rewrite uploader_sort_perm, fmap_app, Hnum.
    apply NoDup_app. split_and!; [done| |apply uploader_strict_nodup, (inv_promises _ _ Hi)].
    intros p (r & -> & Hr)%list_elem_of_fmap.
    by apply (inv_resumed _ _ Hi (Util.cleanUpETags finished) r).
Qed.

(** The amended C6 on a resumed upload of three parts of which part 2 was
    finished: parts 3 and 1 finish in that order and the complete call gets
    parts 1, 2, 3. *)
Lemma complete_receives_sorted_parts_witness :
  StronglySorted Z.le
    (PartNumber <$> [ {| ETag := Some "e1"; PartNumber := 1 |};
                      {| ETag := Some "e2"; PartNumber := 2 |};
                      {| ETag := Some "e3"; PartNumber := 3 |} ]).
Proof.
  refine (proj1 (complete_receives_sorted_parts defaultOptions
    {| File.name := "a.mov"; File.size := 31457280; File.type := "video/quicktime" |} 2
    (new_instance (<["video|a.mov" := {|
       originalFilename := Some "a.mov"; totalFileSizeInBytes := Some 31457280;
       totalParts := Some 3; partSizeInBytes := Some (1038090240 # 96)%Q;
       finishedParts := Some [ {| ETag := Some "e2"; PartNumber := 2 |} ];
       uploadId := Some "u"; s3Filename := Some "k" |}]> ∅))
    _
    [SignResolved 1 (Some "https://s3/part1"); SignResolved 3 (Some "https://s3/part3");
     XhrLoad 3 200 (Some "e3"); XhrLoad 1 200 (Some "e1")]
    _ _ _)).
  - reflexivity.
  - vm_compute. reflexivity.
Defined.

(** ** A part fails *)

(** A usable record with finished parts: the call takes the resume flow. *)
Lemma uploader_start_resume o f fuel i localRecord parts :
  i_localStorage i !! key f = Some localRecord →
  finishedParts localRecord = Some parts →
  isCompleteLocalRecord localRecord (Util.cleanUpETags parts) = true →
  uploadMultipart o f (S fuel) i
  = uploadUnfinishedMultipart o f (λ _, None) localRecord (enter_call i).
Proof.
  intros Hrec Hparts Hc.
  destruct (uploader_complete_true _ _ Hc) as (_ & _ & Hne & _).
  simpl. unfold getAndParseLS. simpl. rewrite Hrec. simpl. rewrite Hparts. simpl.
  destruct parts as [|x parts]; [done|]. simpl.
  unfold uploadUnfinishedMultipart. rewrite Hparts. simpl default. by rewrite Hc.
Qed.

Lemma uploader_cleanUpETags_elem r parts :
  r ∈ parts → truthy_str (ETag r) = true → r ∈ Util.cleanUpETags parts.
Proof.
  intros Hr Ht. unfold Util.cleanUpETags.
  apply list_elem_of_In, filter_In. split; [by apply list_elem_of_In|done].
Qed.

(** C8, as stated, fails for a part that S3 stored but whose response
    exposed no [ETag] header.  In a 30 MiB upload part 1 is stored that way
    and part 2 fails: the record holds part 1, with a null tag;
    [cleanUpETags] drops it when the next call looks at the record, nothing
    is left, the record is removed, and the create flow submits part 1
    again. *)
Lemma untagged_part_is_sent_again :
  tasks
    (run defaultOptions
       {| File.name := "a.mov"; File.size := 31457280; File.type := "video/quicktime" |}
       (fresh_start (new_instance ∅))
       [CreateResolved {| resp_uploadId := Some "u"; resp_s3Filename := Some "k" |};
        SignResolved 1 (Some "https://s3/part1"); XhrLoad 1 200 None;
        SignResolved 2 (Some "https://s3/part2"); XhrError 2]) !! 1
  = Some (Fulfilled {| ETag := None; PartNumber := 1 |})
  ∧ (finishedParts <$>
       localStorage
         (run defaultOptions
            {| File.name := "a.mov"; File.size := 31457280; File.type := "video/quicktime" |}
            (fresh_start (new_instance ∅))
            [CreateResolved {| resp_uploadId := Some "u"; resp_s3Filename := Some "k" |};
             SignResolved 1 (Some "https://s3/part1"); XhrLoad 1 200 None;
             SignResolved 2 (Some "https://s3/part2"); XhrError 2]) !! "video|a.mov")
    = Some (Some [ {| ETag := None; PartNumber := 1 |} ])
  ∧ ∃ s1,
      uploadMultipart defaultOptions
        {| File.name := "a.mov"; File.size := 31457280; File.type := "video/quicktime" |} 2
        (instance
           (run defaultOptions
              {| File.name := "a.mov"; File.size := 31457280; File.type := "video/quicktime" |}
              (fresh_start (new_instance ∅))
              [CreateResolved {| resp_uploadId := Some "u"; resp_s3Filename := Some "k" |};
               SignResolved 1 (Some "https://s3/part1"); XhrLoad 1 200 None;
               SignResolved 2 (Some "https://s3/part2"); XhrError 2])) = Some s1
      ∧ phase s1 = Creating
      ∧ promisesArr
          (run defaultOptions
             {| File.name := "a.mov"; File.size := 31457280; File.type := "video/quicktime" |}
             s1 [CreateResolved {| resp_uploadId := Some "u2"; resp_s3Filename := Some "k2" |}])
        = [1; 2; 3].
Proof.
  split; [vm_compute; reflexivity|]. split; [vm_compute; reflexivity|].
  eexists. split; [vm_compute; reflexivity|]. split; vm_compute; reflexivity.
Qed.

(** C8, amended: when a part upload has failed after the record was
    persisted, the call has rejected and the record is still in
    localStorage; it holds the response of every part that succeeded, and
    the next call for the file submits no part that the record holds with
    a tag.  (A part held without a tag is filtered out and sent again.) *)
Theorem failed_part_keeps_record (o : Options) (f : File) (fuel : nat) (i : Instance)
    (s0 : State) (inputs : list Input) (p : Z) :
  uploadMultipart o f fuel i = Some s0 →
  tasks (run o f s0 inputs) !! p = Some Rejected →
  phase (run o f s0 inputs) = Failed ErrParts
  ∧ ∃ localRecord parts,
      localStorage (run o f s0 inputs) !! key f = Some localRecord
      ∧ finishedParts localRecord = Some parts
      ∧ (∀ q r, tasks (run o f s0 inputs) !! q = Some (Fulfilled r) →
           PartNumber r = q ∧ r ∈ parts)
      ∧ (∀ fuel' s1 inputs' r,
           uploadMultipart o f fuel' (instance (run o f s0 inputs)) = Some s1 →
           r ∈ parts →
           truthy_str (ETag r) = true →
           PartNumber r ∉ promisesArr (run o f s1 inputs')).
Proof.
  intros Hs0 Hrej. set (s := run o f s0 inputs) in *.
  assert (Hi : invariant f s).
  { destruct (uploader_reachable o f fuel i s0 inputs Hs0)
      as [[_ [Hb|[Hi _]]]|(_ & Hi & _)]; try done.
    destruct Hb as (Ht & _). fold s in Ht. rewrite Ht in Hrej. by rewrite lookup_empty in Hrej. }
  pose proof (inv_rejected _ _ Hi p Hrej) as Hph. split; [done|].
  destruct (inv_record _ _ Hi)
    as [[k Hk]|(localRecord & parts & Hls & Hfp & Hu & Hs3 & Htp & Hq & Hin)]; [congruence|].
  exists localRecord, parts. split_and!; try done.
  { intros q r Hful. split; [by apply (inv_fulfilled _ _ Hi)|by apply (Hin q)]. }
  intros fuel' s1 inputs' r Hs1 Hr Htag.
  pose proof (uploader_cleanUpETags_elem r parts Hr Htag) as Hclean.
  assert (Hc : isCompleteLocalRecord localRecord (Util.cleanUpETags parts) = true).
  { unfold isCompleteLocalRecord. rewrite Hu, Hs3, Htp. destruct Hq as (x & -> & ->).
    pose proof (inv_range _ _ Hi p (inv_tasks _ _ Hi p _ Hrej)) as Hrange.
    destruct (Util.cleanUpETags parts); [by apply elem_of_nil in Hclean|]. simpl.
    rewrite andb_true_r. apply Z.ltb_lt. lia. }
  destruct fuel' as [|fuel']; [done|].
  rewrite (uploader_start_resume o f fuel' (instance s) localRecord parts) in Hs1 by done.
  destruct (uploader_invariant_resume o f localRecord parts (instance s) s1 Hfp Hc Hs1)
    as (Hi1 & _ & Hpro).
  destruct (uploader_run_parts o f inputs' s1 Hi1) as (_ & -> & _).
  rewrite Hpro. intros [Hnot _]%list_elem_of_filter. apply Hnot.
  apply list_elem_of_fmap. exists r. by split.
Qed.

(** C8 on a 30 MiB upload in three parts: part 1 is stored, part 2 fails. *)
Lemma failed_part_keeps_record_witness :
  phase (run defaultOptions
           {| File.name := "a.mov"; File.size := 31457280; File.type := "video/quicktime" |}
           (fresh_start (new_instance ∅))
           [CreateResolved {| resp_uploadId := Some "u"; resp_s3Filename := Some "k" |};
            SignResolved 1 (Some "https://s3/part1"); XhrLoad 1 200 (Some "e1");
            SignResolved 2 (Some "https://s3/part2"); XhrError 2])
  = Failed ErrParts.
Proof.
  refine (proj1 (failed_part_keeps_record defaultOptions
    {| File.name := "a.mov"; File.size := 31457280; File.type := "video/quicktime" |} 1
    (new_instance ∅) (fresh_start (new_instance ∅))
    [CreateResolved {| resp_uploadId := Some "u"; resp_s3Filename := Some "k" |};
     SignResolved 1 (Some "https://s3/part1"); XhrLoad 1 200 (Some "e1");
     SignResolved 2 (Some "https://s3/part2"); XhrError 2] 2 _ _)).
  - reflexivity.
  - vm_compute. reflexivity.
Defined.

(** The same upload, tried again: the record has part 1, so the second call
    resumes and submits parts 2 and 3 only. *)
Example failed_part_then_resume :
  ∃ s1,
    uploadMultipart defaultOptions
      {| File.name := "a.mov"; File.size := 31457280; File.type := "video/quicktime" |} 2
      (instance
         (run defaultOptions
            {| File.name := "a.mov"; File.size := 31457280; File.type := "video/quicktime" |}
            (fresh_start (new_instance ∅))
            [CreateResolved {| resp_uploadId := Some "u"; resp_s3Filename := Some "k" |};
             SignResolved 1 (Some "https://s3/part1"); XhrLoad 1 200 (Some "e1");
             SignResolved 2 (Some "https://s3/part2"); XhrError 2])) = Some s1
    ∧ promisesArr s1 = [2; 3].
Proof. eexists. split; vm_compute; reflexivity. Qed.

(** ** The throttle inside the uploader *)

(** What one pass of a new caller does to the order of calls: the caller
    goes last among the called and suspended, or is abandoned. *)
Lemma throttle_enter_order {K} `{EqDecision K} limit (k : K) (s : Throttle.state K) :
  Throttle.invariant limit s →
  (Throttle.invoked (Throttle.enter limit k s).1 ++ Throttle.waiting (Throttle.enter limit k s).1
   = (Throttle.invoked s ++ Throttle.waiting s) ++ [k]
   ∧ Throttle.abandoned (Throttle.enter limit k s).1 = Throttle.abandoned s)
  ∨ (Throttle.invoked (Throttle.enter limit k s).1 ++ Throttle.waiting (Throttle.enter limit k s).1
     = Throttle.invoked s ++ Throttle.waiting s
     ∧ Throttle.abandoned (Throttle.enter limit k s).1 = Throttle.abandoned s ++ [k]).
Proof.
  intros Hi. unfold Throttle.enter.
  destruct (limit <=? length (Throttle.executing s))%nat eqn:Hfull.
  - destruct (bool_decide _); simpl; [by right|left].
    by rewrite app_assoc.
  - apply Nat.leb_gt in Hfull. simpl. left.
    destruct (Throttle.waiting s) as [|w ws] eqn:Hws.
    + by rewrite !app_nil_r.
    + destruct (Throttle.inv_waiting _ _ Hi) as [Hlen _]; [by rewrite Hws|lia].
Qed.

Lemma throttle_fulfil_order {K} `{EqDecision K} limit (t : K) (s : Throttle.state K) :
  Throttle.invariant limit s →
  Throttle.invoked (Throttle.fulfil limit t s).1 ++ Throttle.waiting (Throttle.fulfil limit t s).1
  = Throttle.invoked s ++ Throttle.waiting s
  ∧ Throttle.abandoned (Throttle.fulfil limit t s).1 = Throttle.abandoned s.
Proof.
  intros Hi. destruct (decide (t ∈ Throttle.outstanding s)) as [Ht|Ht].
  2:{ unfold Throttle.fulfil. by rewrite bool_decide_eq_false_2. }
  destruct (Throttle.waiting s) as [|w ws] eqn:Hws.
  - by rewrite throttle_fulfil_idle, bool_decide_eq_true_2.
  - rewrite (throttle_fulfil_releases _ _ _ w ws) by done. simpl.
    by rewrite <- app_assoc.
Qed.

Lemma throttle_reject_order {K} `{EqDecision K} (t : K) (s : Throttle.state K) :
  (Throttle.reject t s).1 = s
  ∨ (Throttle.invoked (Throttle.reject t s).1 = Throttle.invoked s
     ∧ Throttle.waiting (Throttle.reject t s).1 = []
     ∧ Throttle.abandoned (Throttle.reject t s).1
       = Throttle.abandoned s ++ Throttle.waiting s).
Proof.
  unfold Throttle.reject. destruct (bool_decide _); simpl; [by right|by left].
Qed.

Lemma uploader_throttled_frame o s s' :
  throttle s' = throttle s → promisesArr s' = promisesArr s →
  throttled o s → throttled o s'.
Proof. intros Ht Hp [H1 H2 H3]. split; rewrite ?Ht, ?Hp; done. Qed.

Lemma uploader_sorted_snoc (l : list Z) (k : Z) :
  StronglySorted Z.lt l → (∀ j, j ∈ l → j < k) → StronglySorted Z.lt (l ++ [k]).
Proof.
  intros Hl Hk. apply StronglySorted_app_2; [|done|repeat constructor].
  intros x y Hx Hy. apply list_elem_of_singleton in Hy as ->. by apply Hk.
Qed.

(** Submitting a part above all those submitted so far keeps the throttle
    in order. *)
Lemma uploader_throttled_submit o p s :
  throttled o s → (∀ q, q ∈ promisesArr s → q < p) →
  throttled o (submit o p s).
Proof.
  intros [H1 H2 H3] Hnew.
  assert (Hfresh : p ∉ Throttle.invoked (throttle s) ++ Throttle.waiting (throttle s)
                       ++ Throttle.abandoned (throttle s)).
  { intros Hin. apply H3, Hnew in Hin. lia. }
  pose proof (throttle_enter_invariant _ p _ H1 Hfresh) as Hinv.
  pose proof (throttle_enter_order (concurrencyLimit o) p _ H1) as Hord.
  unfold submit. destruct (Throttle.enter _ _ _) as [th v] eqn:He. simpl in Hinv, Hord.
  assert (Hgoal : throttled o (push_promise p th s)).
  { split; simpl; [done| |].
    - destruct Hord as [[-> _]|[-> _]]; [|done].
      apply uploader_sorted_snoc; [done|].
      intros j Hj. apply Hnew, H3. rewrite app_assoc. apply elem_of_app; by left.
    - intros q. rewrite app_assoc, elem_of_app.
      destruct Hord as [[-> ->]|[-> ->]].
      + rewrite (elem_of_app _ [p]), list_elem_of_singleton.
        intros [[Hq| ->]|Hq]; apply elem_of_app.
        * left. apply H3. rewrite app_assoc. apply elem_of_app; by left.
        * right. by apply list_elem_of_singleton.
        * left. apply H3. rewrite app_assoc. apply elem_of_app; by right.
      + rewrite (elem_of_app _ [p]), list_elem_of_singleton.
        intros [Hq|[Hq| ->]]; apply elem_of_app.
        * left. apply H3. rewrite app_assoc. apply elem_of_app; by left.
        * left. apply H3. rewrite app_assoc. apply elem_of_app; by right.
        * right. by apply list_elem_of_singleton. }
  destruct v; [|done|done].
  by eapply uploader_throttled_frame; [..|exact Hgoal].
Qed.

Lemma uploader_throttled_loop_fold o lookup l s :
  StronglySorted Z.lt l →
  (∀ q x, q ∈ promisesArr s → x ∈ l → q <= x) →
  throttled o s →
  throttled o (fold_left (loop_body o lookup) l s).
Proof.
  revert s. induction l as [|x l IH]; intros s Hl Hle Ht; simpl; [done|].
  apply StronglySorted_inv in Hl as [Hl Hx]. rewrite Forall_forall in Hx.
  destruct (uploader_loop_body_frame o lookup s x) as (_ & _ & _ & _ & _ & _ & _ & Hpro).
  apply IH; [done| |].
  - intros q y. rewrite Hpro. intros [Hq|Hq]%elem_of_app Hy.
    + apply (Hle q y); [done|apply elem_of_cons; by right].
    + apply list_elem_of_filter in Hq as [_ Hq]. apply list_elem_of_singleton in Hq as ->.
      specialize (Hx y Hy). lia.
  - unfold loop_body. destruct (lookup !! (x + 1)); [done|].
    apply uploader_throttled_submit; [done|].
    intros q Hq. specialize (Hle q x Hq). rewrite elem_of_cons in Hle.
    specialize (Hle (or_introl eq_refl)). lia.
Qed.

Lemma uploader_throttled_loop o n lookup s :
  throttled o (loopMultipartParts o n lookup s).
Proof.
  unfold loopMultipartParts. apply uploader_throttled_loop_fold.
  - apply uploader_seqZ_sorted.
  - intros q x Hq. simpl in Hq. by apply elem_of_nil in Hq.
  - split; simpl.
    + apply throttle_empty_invariant.
    + constructor.
    + intros p Hp. by apply elem_of_nil in Hp.
Qed.

Lemma uploader_throttled_fulfilled o p s :
  throttled o s → throttled o (task_fulfilled o p s).
Proof.
  intros [H1 H2 H3].
  pose proof (throttle_fulfil_invariant (concurrencyLimit o) p _ H1) as Hinv.
  pose proof (throttle_fulfil_order (concurrencyLimit o) p _ H1) as [Hord Hab].
  unfold task_fulfilled.
  destruct (Throttle.fulfil (concurrencyLimit o) p (throttle s)) as [th launched].
  simpl in Hinv, Hord, Hab.
  match goal with |- throttled o (promise_all_then ?x) =>
    destruct (uploader_promise_all_then_frame x)
      as (_ & _ & _ & _ & _ & _ & _ & Hp' & Ht' & _);
    apply (uploader_throttled_frame o x _ Ht' Hp') end.
  match goal with |- throttled o (fold_left _ launched ?s0) =>
    destruct (uploader_launch_fold launched s0) as (_ & _ & _ & _ & Hp'' & Ht'' & _);
    apply (uploader_throttled_frame o s0 _ Ht'' Hp'') end.
  split; simpl; [done|by rewrite Hord|].
  intros q. rewrite app_assoc, Hord, Hab, <- app_assoc. apply H3.
Qed.

Lemma uploader_throttled_rejected o p s :
  throttled o s → throttled o (task_rejected p s).
Proof.
  intros [H1 H2 H3].
  pose proof (throttle_reject_invariant (concurrencyLimit o) p _ H1) as Hinv.
  pose proof (throttle_reject_order p (throttle s)) as Hord.
  unfold task_rejected. destruct (Throttle.reject p (throttle s)) as [th ab].
  simpl in Hinv, Hord.
  assert (Hgoal : throttled o (set_throttle th (set_task p Rejected s))).
  { split; simpl; [done| |].
    - destruct Hord as [->|(-> & -> & _)]; [done|].
      rewrite app_nil_r. by apply StronglySorted_app_1_l in H2.
    - destruct Hord as [->|(-> & -> & ->)]; [done|].
      intros q Hq. apply H3. rewrite !elem_of_app in *. simpl in Hq.
      rewrite elem_of_nil in Hq. tauto. }
  unfold promise_all_catch. case_match; try done.
  by eapply uploader_throttled_frame; [..|exact Hgoal].
Qed.

Lemma uploader_throttled_step o f s i : throttled o s → throttled o (step o f s i).
Proof.
  intros Ht. destruct i as [r| |p url|p|p loaded total|p status etag|p|k|]; simpl.
  - destruct (phase s); try done. unfold create_then. case_match.
    + by eapply uploader_throttled_frame; [..|exact Ht].
    + match goal with |- throttled o (promise_all_then ?x) =>
        destruct (uploader_promise_all_then_frame x)
          as (_ & _ & _ & _ & _ & _ & _ & Hp' & Ht' & _);
        apply (uploader_throttled_frame o x _ Ht' Hp') end.
      match goal with |- throttled o (set_phase ?ph ?x) =>
        refine (uploader_throttled_frame o x (set_phase ph x) eq_refl eq_refl _) end.
      apply uploader_throttled_loop.
  - destruct (phase s); try done.
    by eapply uploader_throttled_frame; [..|exact Ht].
  - destruct (tasks s !! p) as [[]|]; try done.
    by eapply uploader_throttled_frame; [..|exact Ht].
  - destruct (tasks s !! p) as [[]|]; try done.
    apply uploader_throttled_rejected.
    by eapply uploader_throttled_frame; [..|exact Ht].
  - destruct (tasks s !! p) as [[]|]; try done. unfold onprogress.
    repeat case_match; try done; by eapply uploader_throttled_frame; [..|exact Ht].
  - destruct (tasks s !! p) as [[]|]; try done. unfold onload. case_match.
    + apply uploader_throttled_fulfilled.
      repeat case_match; by eapply uploader_throttled_frame; [..|exact Ht].
    + by apply uploader_throttled_rejected.
  - destruct (tasks s !! p) as [[]|]; try done. unfold onerror.
    apply uploader_throttled_rejected.
    by eapply uploader_throttled_frame; [..|exact Ht].
  - destruct (phase s); try done.
    by eapply uploader_throttled_frame; [..|exact Ht].
  - destruct (phase s); try done.
    by eapply uploader_throttled_frame; [..|exact Ht].
Qed.

Lemma uploader_throttled_run o f inputs s :
  throttled o s → throttled o (run o f s inputs).
Proof.
  revert s. induction inputs as [|i inputs IH]; intros s Ht; simpl; [done|].
  by apply IH, uploader_throttled_step.
Qed.

Lemma uploader_throttled_start o f fuel i s :
  uploadMultipart o f fuel i = Some s → throttled o s.
Proof.
  intros [->|[->|(localRecord & parts & _ & _ & _ & Hs)]]%uploader_start_cases.
  - split; simpl; [apply throttle_empty_invariant|constructor|].
    intros p Hp. by apply elem_of_nil in Hp.
  - split; simpl; [apply throttle_empty_invariant|constructor|].
    intros p Hp. by apply elem_of_nil in Hp.
  - unfold uploadUnfinishedMultipart in Hs. destruct (negb _); [done|].
    injection Hs as <-.
    match goal with |- throttled o (promise_all_then ?x) =>
      destruct (uploader_promise_all_then_frame x)
        as (_ & _ & _ & _ & _ & _ & _ & Hp' & Ht' & _);
      apply (uploader_throttled_frame o x _ Ht' Hp') end.
    match goal with |- throttled o (set_phase ?ph ?x) =>
      refine (uploader_throttled_frame o x (set_phase ph x) eq_refl eq_refl _) end.
    apply uploader_throttled_loop.
Qed.

(** C3: for every limit and every sequence of submissions and settlements,
    at no point are more than [limit] tasks outstanding, and launches respect
    the submission order: no factory has been called while one submitted
    before it is still suspended because of the limit.  The same holds of
    the throttle as [loopMultipartParts] uses it, in every state a call of
    [uploadMultipart] can reach: at most [concurrencyLimit] parts are in
    flight, and the parts whose factory was called, followed by those still
    suspended, are in ascending order of part number. *)
Theorem throttle_bounded_in_order (limit : nat) (es : list Throttle.event) :
  (let s := Throttle.th (Throttle.run limit es) in
   (length (Throttle.outstanding s) <= limit)%nat
   ∧ (length (Throttle.executing s) <= limit)%nat
   ∧ (∀ j k, j ∈ Throttle.waiting s → k ∈ Throttle.invoked s → (k < j)%nat))
  ∧ (∀ o f fuel i s0 inputs,
       uploadMultipart o f fuel i = Some s0 →
       let th := throttle (run o f s0 inputs) in
       (length (Throttle.outstanding th) <= concurrencyLimit o)%nat
       ∧ StronglySorted Z.lt (Throttle.invoked th ++ Throttle.waiting th)).
Proof.
  split.
  - pose proof (throttle_run_invariant limit es) as [Hi _ Hord _].
    split_and!.
    + by apply throttle_outstanding_length.
    + by apply (Throttle.inv_bound _ _ Hi).
    + exact Hord.
  - intros o f fuel i s0 inputs Hs0 th.
    pose proof (uploader_throttled_run o f inputs s0
                  (uploader_throttled_start o f fuel i s0 Hs0)) as [Hi Hsorted _].
    split; [by apply throttle_outstanding_length|done].
Qed.

(** * Further properties *)

(** ** The bytes of each part *)

(** Rounding to an integer commutes with the minimum with an integer. *)
Lemma slicing_round_min x n :
  Double.round_half_even (Qmin x (inject_Z n)) = Z.min (Double.round_half_even x) n.
Proof.
  destruct (Qlt_le_dec (inject_Z n) x) as [Hlt|Hle].
  - rewrite (double_round_compat _ (inject_Z n)) by (apply Q.min_r; lra).
    rewrite double_round_Z.
    pose proof (double_round_mono (inject_Z n) x ltac:(lra)) as Hm.
    rewrite double_round_Z in Hm. lia.
  - rewrite (double_round_compat _ x) by (by apply Q.min_l).
    pose proof (double_round_mono x (inject_Z n) Hle) as Hm.
    rewrite double_round_Z in Hm. lia.
Qed.

(** A position that is not negative is rounded and brought into the file. *)
Lemma slicing_position size x :
  0 <= size <= Double.MAX_SAFE_INTEGER →
  (0 <= x)%Q →
  Slicing.relative size (Slicing.Clamp_long_long x) = Z.min (Double.round_half_even x) size.
Proof.
  intros [Hs0 Hs1] Hx. unfold Slicing.Clamp_long_long.
  assert (Hlo : (inject_Z (- Double.MAX_SAFE_INTEGER) <= 0)%Q).
  { rewrite <- (Zle_Qle _ 0). by vm_compute. }
  rewrite (double_round_compat _ (Qmin x (inject_Z Double.MAX_SAFE_INTEGER))).
  2:{ rewrite (Q.max_l x) by lra. reflexivity. }
  rewrite slicing_round_min.
  pose proof (double_round_mono 0 x Hx) as H0.
  change 0%Q with (inject_Z 0) in H0. rewrite double_round_Z in H0.
  unfold Slicing.relative.
  destruct (Z.ltb_spec (Z.min (Double.round_half_even x) Double.MAX_SAFE_INTEGER) 0); lia.
Qed.

(** Where the blob of a part begins and ends: at the rounded [start] and
    at the rounded sum, both brought into the file. *)
Lemma slicing_blob ps (f : File) k :
  Z.of_N (File.size f) <= Double.MAX_SAFE_INTEGER →
  (0 < ps)%Q → 0 <= k →
  (0 <= Slicing.start ps k)%Q
  ∧ (Slicing.start ps k <= Double.add (Slicing.start ps k) ps)%Q
  ∧ Slicing.offset (Slicing.blob ps f k)
    = Z.min (Double.round_half_even (Slicing.start ps k)) (Z.of_N (File.size f))
  ∧ Slicing.offset (Slicing.blob ps f k) + Slicing.span (Slicing.blob ps f k)
    = Z.min (Double.round_half_even (Double.add (Slicing.start ps k) ps))
        (Z.of_N (File.size f)).
Proof.
  intros Hsize Hps Hk.
  set (size := Z.of_N (File.size f)) in *.
  assert (Hk' : (0 <= inject_Z k)%Q) by (by rewrite <- (Zle_Qle 0)).
  assert (Hb : (0 <= Slicing.start ps k)%Q).
  { apply double_nearest_nonneg. nra. }
  assert (Hab : (Slicing.start ps k <= Double.add (Slicing.start ps k) ps)%Q).
  { unfold Double.add. unfold Slicing.start, Double.mul at 1.
    rewrite <- (double_nearest_idempotent (inject_Z k * ps)) by nra.
    fold (Double.mul (inject_Z k) ps). fold (Slicing.start ps k).
    apply double_nearest_mono; lra. }
  split; [done|]. split; [done|].
  unfold Slicing.blob, Slicing.slice. fold size. simpl.
  assert (He : (0 <= Slicing.end_ ps f k)%Q).
  { unfold Slicing.end_. fold size. apply Q.min_glb; [lra|].
    rewrite <- (Zle_Qle 0). unfold size. lia. }
  rewrite !slicing_position by (done || (unfold size; lia)).
  unfold Slicing.end_. fold size. rewrite slicing_round_min.
  pose proof (double_round_mono _ _ Hab). lia.
Qed.

(** What [numParts] parts of [partSizeInBytes] bytes come to, up to the
    rounding of the quotient: one part less falls short of the file, and
    all of them miss at most a fraction [2^-53] of it. *)
Lemma slicing_planner_bounds o f :
  (inject_Z (Planner.numParts o f - 1) * Planner.partSizeInBytes o f
   <= inject_Z (Z.of_N (File.size f))
      + inject_Z (Z.of_N (File.size f)) * (1 # 9007199254740992))%Q
  ∧ (inject_Z (Z.of_N (File.size f))
     - inject_Z (Z.of_N (File.size f)) * (1 # 9007199254740992)
     <= inject_Z (Planner.numParts o f) * Planner.partSizeInBytes o f)%Q.
Proof.
  pose proof (planner_partSizeInBytes_pos o f) as Hps.
  pose proof (planner_size_nonneg f) as Hs.
  unfold Planner.numParts, Math_ceil, Double.div.
  set (ps := Planner.partSizeInBytes o f) in *.
  set (s := inject_Z (Z.of_N (File.size f))) in *.
  assert (Hr0 : (0 <= s / ps)%Q) by (apply Qle_shift_div_l; lra).
  assert (Hr : (s / ps * ps == s)%Q) by (field; lra).
  destruct (double_nearest_relative (s / ps) Hr0) as [H1 H2].
  set (q := Double.nearest (s / ps)) in *.
  pose proof (Qle_ceiling q) as Hc1. pose proof (Qceiling_lt q) as Hc2.
  set (n := Qceiling q) in *.
  set (r := (s / ps)%Q) in *. set (u := (1 # 9007199254740992)%Q) in *.
  split.
  - assert (H : (inject_Z (n - 1) * ps <= (r + r * u) * ps)%Q).
    { apply Qmult_le_compat_r; lra. }
    assert (E : ((r + r * u) * ps == r * ps + r * ps * u)%Q) by ring.
    rewrite E, Hr in H. done.
  - assert (H : ((r - r * u) * ps <= inject_Z n * ps)%Q).
    { apply Qmult_le_compat_r; lra. }
    assert (E : ((r - r * u) * ps == r * ps - r * ps * u)%Q) by ring.
    rewrite E, Hr in H. done.
Qed.

(** How far the rounded [start] and the rounded sum are from the exact
    products. *)
Lemma slicing_errors ps k :
  (0 < ps)%Q → 0 <= k →
  (inject_Z k * ps - inject_Z k * ps * (1 # 9007199254740992) <= Slicing.start ps k)%Q
  ∧ (Slicing.start ps k <= inject_Z k * ps + inject_Z k * ps * (1 # 9007199254740992))%Q
  ∧ (Slicing.start ps k + ps - (Slicing.start ps k + ps) * (1 # 9007199254740992)
     <= Double.add (Slicing.start ps k) ps)%Q
  ∧ (Double.add (Slicing.start ps k) ps
     <= Slicing.start ps k + ps + (Slicing.start ps k + ps) * (1 # 9007199254740992))%Q.
Proof.
  intros Hps Hk.
  assert (Hk' : (0 <= inject_Z k)%Q) by (by rewrite <- (Zle_Qle 0)).
  assert (HP : (0 <= inject_Z k * ps)%Q) by nra.
  destruct (double_nearest_relative _ HP) as [H1 H2].
  fold (Double.mul (inject_Z k) ps) in H1, H2. fold (Slicing.start ps k) in H1, H2.
  assert (Hb : (0 <= Slicing.start ps k + ps)%Q).
  { pose proof (double_nearest_nonneg _ HP) as H0.
    fold (Double.mul (inject_Z k) ps) in H0. fold (Slicing.start ps k) in H0. lra. }
  destruct (double_nearest_relative _ Hb) as [H3 H4].
  fold (Double.add (Slicing.start ps k) ps) in H3, H4. done.
Qed.

(** The end of a part and the beginning of the next one are computed in
    two ways from the same product; below [2^50] bytes they come out less
    than a byte apart, so their roundings differ by at most one. *)
Lemma slicing_seam ps k :
  (0 < ps)%Q → 0 <= k →
  (inject_Z (k + 1) * ps <= 1125899906842624 + (1 # 8))%Q →
  - 1 <= Double.round_half_even (Slicing.start ps (k + 1))
         - Double.round_half_even (Double.add (Slicing.start ps k) ps) <= 1.
Proof.
  intros Hps Hk HT.
  destruct (slicing_errors ps k Hps Hk) as (H1 & H2 & H3 & H4).
  destruct (slicing_errors ps (k + 1) Hps ltac:(lia)) as (H5 & H6 & _).
  rewrite inject_Z_plus in *. change (inject_Z 1) with 1%Q in *.
  assert (HP : (0 <= inject_Z k * ps)%Q).
  { assert (0 <= inject_Z k)%Q by (by rewrite <- (Zle_Qle 0)). nra. }
  destruct (double_round_bounds (Slicing.start ps (k + 1))) as [Hb1 Hb2].
  destruct (double_round_bounds (Double.add (Slicing.start ps k) ps)) as [Ha1 Ha2].
  set (rb := Double.round_half_even (Slicing.start ps (k + 1))) in *.
  set (ra := Double.round_half_even (Double.add (Slicing.start ps k) ps)) in *.
  set (b' := Slicing.start ps (k + 1)) in *.
  set (a := Double.add (Slicing.start ps k) ps) in *.
  set (b := Slicing.start ps k) in *.
  set (P := (inject_Z k * ps)%Q) in *.
  assert (E : ((inject_Z k + 1) * ps == P + ps)%Q) by (unfold P; ring).
  rewrite E in *.
  assert (Hlt : (inject_Z rb < inject_Z (ra + 2))%Q).
  { rewrite inject_Z_plus. change (inject_Z 2) with 2%Q. lra. }
  assert (Hgt : (inject_Z ra < inject_Z (rb + 2))%Q).
  { rewrite inject_Z_plus. change (inject_Z 2) with 2%Q. lra. }
  rewrite <- Zlt_Qlt in Hlt, Hgt. lia.
Qed.

(** What the parts before the last one add up to, for a file of at most
    [2^50] bytes. *)
Lemma slicing_inner_parts o f k :
  Z.of_N (File.size f) <= 2 ^ 50 →
  0 <= k < Planner.numParts o f - 1 →
  (inject_Z (k + 1) * Planner.partSizeInBytes o f
   <= inject_Z (Z.of_N (File.size f))
      + inject_Z (Z.of_N (File.size f)) * (1 # 9007199254740992))%Q
  ∧ (inject_Z (k + 1) * Planner.partSizeInBytes o f <= 1125899906842624 + (1 # 8))%Q.
Proof.
  intros Hsize Hk.
  destruct (slicing_planner_bounds o f) as [H1 _].
  pose proof (planner_partSizeInBytes_pos o f) as Hps.
  pose proof (planner_size_nonneg f) as Hs0.
  rewrite Zle_Qle in Hsize. change (inject_Z (2 ^ 50)) with 1125899906842624%Q in Hsize.
  assert (Hle : (inject_Z (k + 1) * Planner.partSizeInBytes o f
                 <= inject_Z (Planner.numParts o f - 1) * Planner.partSizeInBytes o f)%Q).
  { apply Qmult_le_compat_r; [|lra]. rewrite <- Zle_Qle. lia. }
  split; lra.
Qed.

(** X1: the bytes a fresh upload cuts for its parts, [file.slice(start,
    end)] with the fractional [partSizeInBytes].  For a file of at most
    [2^50] bytes the first part begins at byte 0, the last one ends at
    [file.size], every part lies inside the file, and a part begins where
    the previous one ends or one byte before or after it: [end] is
    [start + partSizeInBytes] and the next [start] is a product, two
    doubles that can fall on different sides of a half when [slice] rounds
    them.  Both happen with the default options: of a file of 164725612
    bytes, byte 146419821 is in no part, and of a file of 164735012 bytes,
    byte 146420996 is in two. *)
Theorem parts_cover_the_file_within_a_byte (o : Options) (f : File) :
  Z.of_N (File.size f) <= 2 ^ 50 →
  let ps := Planner.partSizeInBytes o f in
  let n := Planner.numParts o f in
  (0 < n →
   Slicing.offset (Slicing.blob ps f 0) = 0
   ∧ Slicing.offset (Slicing.blob ps f (n - 1)) + Slicing.span (Slicing.blob ps f (n - 1))
     = Z.of_N (File.size f))
  ∧ (∀ k, 0 <= k < n →
       0 <= Slicing.offset (Slicing.blob ps f k)
       ∧ 0 <= Slicing.span (Slicing.blob ps f k)
       ∧ Slicing.offset (Slicing.blob ps f k) + Slicing.span (Slicing.blob ps f k)
         <= Z.of_N (File.size f))
  ∧ (∀ k, 0 <= k < n - 1 →
       - 1 <= Slicing.offset (Slicing.blob ps f (k + 1))
              - (Slicing.offset (Slicing.blob ps f k) + Slicing.span (Slicing.blob ps f k))
       <= 1)
  ∧ (let g := {| File.name := "a.mov"; File.size := 164725612;
                 File.type := "video/quicktime" |} in
     let qs := Planner.partSizeInBytes defaultOptions g in
     Planner.numParts defaultOptions g = 14
     ∧ Slicing.offset (Slicing.blob qs g 11) + Slicing.span (Slicing.blob qs g 11)
       = 146419821
     ∧ Slicing.offset (Slicing.blob qs g 12) = 146419822)
  ∧ (let g := {| File.name := "a.mov"; File.size := 164735012;
                 File.type := "video/quicktime" |} in
     let qs := Planner.partSizeInBytes defaultOptions g in
     Planner.numParts defaultOptions g = 14
     ∧ Slicing.offset (Slicing.blob qs g 11) + Slicing.span (Slicing.blob qs g 11)
       = 146420997
     ∧ Slicing.offset (Slicing.blob qs g 12) = 146420996).
Proof.
  intros Hsize ps n.
  assert (Hmax : Z.of_N (File.size f) <= Double.MAX_SAFE_INTEGER).
  { unfold Double.MAX_SAFE_INTEGER. assert (2 ^ 50 <= 2 ^ 53 - 1) by (by vm_compute). lia. }
  pose proof (planner_partSizeInBytes_pos o f) as Hps. fold ps in Hps.
  pose proof (planner_size_nonneg f) as Hs0.
  assert (Hs1 : (inject_Z (Z.of_N (File.size f)) <= 1125899906842624)%Q).
  { rewrite Zle_Qle in Hsize. exact Hsize. }
  split_and!; [| | |by vm_compute|by vm_compute].
  - intros Hn. split.
    + destruct (slicing_blob ps f 0 Hmax Hps ltac:(lia)) as (_ & _ & -> & _).
      unfold Slicing.start, Double.mul.
      rewrite (double_nearest_zero (inject_Z 0 * ps)) by (change (inject_Z 0) with 0%Q; ring).
      change 0%Q with (inject_Z 0). rewrite double_round_Z. lia.
    + destruct (slicing_blob ps f (n - 1) Hmax Hps ltac:(lia)) as (_ & _ & _ & ->).
      destruct (slicing_errors ps (n - 1) Hps ltac:(lia)) as (H1 & _ & H3 & _).
      destruct (slicing_planner_bounds o f) as [_ H2]. fold ps n in H2.
      destruct (double_round_bounds (Double.add (Slicing.start ps (n - 1)) ps)) as [_ Ha].
      set (ra := Double.round_half_even (Double.add (Slicing.start ps (n - 1)) ps)) in *.
      set (a := Double.add (Slicing.start ps (n - 1)) ps) in *.
      set (b := Slicing.start ps (n - 1)) in *.
      assert (E : (inject_Z n * ps == inject_Z (n - 1) * ps + ps)%Q).
      { replace n with (n - 1 + 1) at 1 by lia. rewrite inject_Z_plus.
        change (inject_Z 1) with 1%Q. ring. }
      rewrite E in H2.
      assert (HP : (0 <= inject_Z (n - 1) * ps)%Q).
      { assert (0 <= inject_Z (n - 1))%Q by (rewrite <- (Zle_Qle 0); lia). nra. }
      set (P := (inject_Z (n - 1) * ps)%Q) in *.
      set (s := inject_Z (Z.of_N (File.size f))) in *.
      assert (Hlt : (inject_Z (Z.of_N (File.size f) - 1) < inject_Z ra)%Q).
      { unfold Z.sub. rewrite inject_Z_plus, inject_Z_opp. fold s.
        change (inject_Z 1) with 1%Q. lra. }
      rewrite <- Zlt_Qlt in Hlt. lia.
  - intros k Hk.
    destruct (slicing_blob ps f k Hmax Hps ltac:(lia)) as (Hb & Hab & Ho & He).
    pose proof (double_round_mono _ _ Hb) as H0.
    change 0%Q with (inject_Z 0) in H0. rewrite double_round_Z in H0.
    pose proof (double_round_mono _ _ Hab) as H1. lia.
  - intros k Hk.
    destruct (slicing_blob ps f k Hmax Hps ltac:(lia)) as (_ & _ & _ & ->).
    destruct (slicing_blob ps f (k + 1) Hmax Hps ltac:(lia)) as (_ & _ & -> & _).
    destruct (slicing_inner_parts o f k Hsize Hk) as [_ HT]. fold ps in HT.
    pose proof (slicing_seam ps k Hps ltac:(lia) HT). lia.
Qed.

(** X1 on the file of 164725612 bytes: part 13 begins one byte after
    part 12 ends. *)
Lemma parts_cover_the_file_within_a_byte_witness :
  - 1 <= Slicing.offset
           (Slicing.blob
              (Planner.partSizeInBytes defaultOptions
                 {| File.name := "a.mov"; File.size := 164725612;
                    File.type := "video/quicktime" |})
              {| File.name := "a.mov"; File.size := 164725612;
                 File.type := "video/quicktime" |} (11 + 1))
         - (Slicing.offset
              (Slicing.blob
                 (Planner.partSizeInBytes defaultOptions
                    {| File.name := "a.mov"; File.size := 164725612;
                       File.type := "video/quicktime" |})
                 {| File.name := "a.mov"; File.size := 164725612;
                    File.type := "video/quicktime" |} 11)
            + Slicing.span
                (Slicing.blob
                   (Planner.partSizeInBytes defaultOptions
                      {| File.name := "a.mov"; File.size := 164725612;
                         File.type := "video/quicktime" |})
                   {| File.name := "a.mov"; File.size := 164725612;
                      File.type := "video/quicktime" |} 11))
  <= 1.
Proof.
  refine (proj1 (proj2 (proj2
    (parts_cover_the_file_within_a_byte defaultOptions
       {| File.name := "a.mov"; File.size := 164725612; File.type := "video/quicktime" |}
       _))) 11 _); by vm_compute.
Defined.

(** X2: for a file of at most [2^50] bytes and a [partMinSizeBytes] that
    is a safe integer, every part of a fresh upload but the last holds at
    least [partMinSizeBytes - 1] bytes and at most [partSizeInBytes + 5/4]
    bytes. *)
Theorem parts_meet_the_minimum_size (o : Options) (f : File) (k : Z) :
  Z.of_N (File.size f) <= 2 ^ 50 →
  Z.pos (partMinSizeBytes o) <= Double.MAX_SAFE_INTEGER →
  0 <= k < Planner.numParts o f - 1 →
  Z.pos (partMinSizeBytes o) - 1
  <= Slicing.span (Slicing.blob (Planner.partSizeInBytes o f) f k)
  ∧ (inject_Z (Slicing.span (Slicing.blob (Planner.partSizeInBytes o f) f k))
     <= Planner.partSizeInBytes o f + (5 # 4))%Q.
Proof.
  intros Hsize Hpm Hk.
  assert (Hmax : Z.of_N (File.size f) <= Double.MAX_SAFE_INTEGER).
  { unfold Double.MAX_SAFE_INTEGER. assert (2 ^ 50 <= 2 ^ 53 - 1) by (by vm_compute). lia. }
  pose proof (planner_partSizeInBytes_pos o f) as Hps.
  pose proof (planner_partSizeInBytes_ge_min o f Hpm) as Hmin.
  pose proof (planner_size_nonneg f) as Hs0.
  assert (Hs1 : (inject_Z (Z.of_N (File.size f)) <= 1125899906842624)%Q).
  { rewrite Zle_Qle in Hsize. exact Hsize. }
  destruct (slicing_inner_parts o f k Hsize Hk) as [HT1 HT2].
  set (ps := Planner.partSizeInBytes o f) in *.
  destruct (slicing_blob ps f k Hmax Hps ltac:(lia)) as (Hb & Hab & Ho & He).
  destruct (slicing_errors ps k Hps ltac:(lia)) as (H1 & H2 & H3 & H4).
  destruct (double_round_bounds (Slicing.start ps k)) as [Hb1 Hb2].
  destruct (double_round_bounds (Double.add (Slicing.start ps k) ps)) as [Ha1 Ha2].
  pose proof (double_round_mono _ _ Hab) as Hmono.
  assert (HP : (0 <= inject_Z k * ps)%Q).
  { assert (0 <= inject_Z k)%Q by (rewrite <- (Zle_Qle 0); lia). nra. }
  assert (E : (inject_Z (k + 1) * ps == inject_Z k * ps + ps)%Q).
  { rewrite inject_Z_plus. change (inject_Z 1) with 1%Q. ring. }
  rewrite E in HT1, HT2.
  set (span := Slicing.span (Slicing.blob ps f k)) in *.
  set (off := Slicing.offset (Slicing.blob ps f k)) in *.
  set (rb := Double.round_half_even (Slicing.start ps k)) in *.
  set (ra := Double.round_half_even (Double.add (Slicing.start ps k) ps)) in *.
  set (a := Double.add (Slicing.start ps k) ps) in *.
  set (b := Slicing.start ps k) in *.
  set (P := (inject_Z k * ps)%Q) in *.
  set (s := inject_Z (Z.of_N (File.size f))) in *.
  set (pm := Z.pos (partMinSizeBytes o)) in *.
  assert (Hspan : span = Z.min ra (Z.of_N (File.size f)) - Z.min rb (Z.of_N (File.size f)))
    by lia.
  assert (Hpm1 : (1 <= inject_Z pm)%Q) by (rewrite <- (Zle_Qle 1); unfold pm; lia).
  rewrite Zle_Qle in Hmono.
  split.
  - assert (Hlow : (inject_Z (pm - 2) < inject_Z span)%Q).
    { rewrite Hspan. unfold Z.sub. rewrite !inject_Z_plus, !inject_Z_opp.
      change (inject_Z 2) with 2%Q.
      destruct (Z.min_spec ra (Z.of_N (File.size f))) as [[Hra ->]|[Hra ->]];
        destruct (Z.min_spec rb (Z.of_N (File.size f))) as [[Hrb ->]|[Hrb ->]];
        fold s;
        try rewrite Zlt_Qlt in Hra; try rewrite Zle_Qle in Hra;
        try rewrite Zlt_Qlt in Hrb; try rewrite Zle_Qle in Hrb;
        fold s in Hra, Hrb; lra. }
    rewrite <- Zlt_Qlt in Hlow. lia.
  - rewrite Hspan. unfold Z.sub. rewrite !inject_Z_plus, !inject_Z_opp.
    destruct (Z.min_spec ra (Z.of_N (File.size f))) as [[Hra ->]|[Hra ->]];
      destruct (Z.min_spec rb (Z.of_N (File.size f))) as [[Hrb ->]|[Hrb ->]];
      fold s;
      try rewrite Zlt_Qlt in Hra; try rewrite Zle_Qle in Hra;
      try rewrite Zlt_Qlt in Hrb; try rewrite Zle_Qle in Hrb;
      fold s in Hra, Hrb; lra.
Qed.

(** X2 on a file of 30 MiB with the default options: the first of its
    three parts. *)
Lemma parts_meet_the_minimum_size_witness :
  10485760 - 1
  <= Slicing.span
       (Slicing.blob
          (Planner.partSizeInBytes defaultOptions
             {| File.name := "a.mov"; File.size := 31457280; File.type := "video/quicktime" |})
          {| File.name := "a.mov"; File.size := 31457280; File.type := "video/quicktime" |} 0).
Proof.
  refine (proj1
    (parts_meet_the_minimum_size defaultOptions
       {| File.name := "a.mov"; File.size := 31457280; File.type := "video/quicktime" |} 0
       _ _ _)); by vm_compute.
Defined.

(** ** localStorage and the ETags *)

(** X11: what [setLS] stores under a key, [getAndParseLS] reads back:
    whenever [JSON.parse] undoes [JSON.stringify] on the value (and throws
    on the empty text), reading the key gives the value; reading it after
    [removeLS] gives [null]; and neither [setLS] nor [removeLS] changes
    what is read under another key. *)
Theorem setLS_then_getAndParseLS {J : Type} (null : J)
    (JSON_parse : string → Util.completion J) (JSON_stringify : J → string)
    (localStorage : gmap string string) (key other : string) (data : J) :
  (∃ e, JSON_parse EmptyString = Util.Throw e) →
  JSON_parse (JSON_stringify data) = Util.Normal data →
  Util.getAndParseLS null JSON_parse (Util.setLS JSON_stringify localStorage key data) key
  = Util.Normal data
  ∧ Util.getAndParseLS null JSON_parse
      (Util.removeLS (Util.setLS JSON_stringify localStorage key data) key) key
    = Util.Normal null
  ∧ (other ≠ key →
     Util.getAndParseLS null JSON_parse (Util.setLS JSON_stringify localStorage key data) other
     = Util.getAndParseLS null JSON_parse localStorage other
     ∧ Util.getAndParseLS null JSON_parse (Util.removeLS localStorage key) other
       = Util.getAndParseLS null JSON_parse localStorage other).
Proof.
  intros [e He] Hround. unfold Util.getAndParseLS, Util.getLS, Util.setLS, Util.removeLS.
  split_and!.
  - rewrite lookup_insert_eq. destruct (JSON_stringify data) eqn:Htext.
    + congruence.
    + by rewrite Hround.
  - by rewrite lookup_delete_eq.
  - intros Hne. by rewrite lookup_insert_ne, lookup_delete_ne.
Qed.

Lemma setLS_then_getAndParseLS_witness :
  Util.getAndParseLS Util.ToyNull Util.toy_parse
    (Util.setLS Util.toy_stringify ∅ "video|a.mov" Util.ToyEmptyObject) "video|a.mov"
  = Util.Normal Util.ToyEmptyObject.
Proof.
  refine (proj1 (setLS_then_getAndParseLS Util.ToyNull Util.toy_parse Util.toy_stringify
                   ∅ "video|a.mov" "" Util.ToyEmptyObject _ _)).
  - by eexists.
  - reflexivity.
Defined.

(** X12: [cleanUpETags] keeps exactly the parts whose [ETag] is truthy
    (not [null], not missing, not the empty string), in the order they
    have in the array; cleaning twice is cleaning once, and an array comes
    back unchanged exactly when all its parts are tagged. *)
Theorem cleanUpETags_keeps_the_tagged_parts (arr : list UploadPartResponse) :
  (∀ r, r ∈ Util.cleanUpETags arr ↔ r ∈ arr ∧ truthy_str (ETag r) = true)
  ∧ sublist (Util.cleanUpETags arr) arr
  ∧ Util.cleanUpETags (Util.cleanUpETags arr) = Util.cleanUpETags arr
  ∧ (Util.cleanUpETags arr = arr ↔ Forall (λ r, truthy_str (ETag r) = true) arr).
Proof.
  unfold Util.cleanUpETags. split_and!.
  - intros r. rewrite !list_elem_of_In. apply List.filter_In.
  - induction arr as [|r arr IH]; simpl; [done|].
    destruct (truthy_str (ETag r)); by constructor.
  - induction arr as [|r arr IH]; simpl; [done|].
    destruct (truthy_str (ETag r)) eqn:Hr; simpl; rewrite ?Hr, IH; done.
  - split.
    + intros Heq. apply Forall_forall. intros r Hr. rewrite <- Heq in Hr.
      apply list_elem_of_In, List.filter_In in Hr. by destruct Hr.
    + induction 1 as [|r arr Hr Harr IH]; simpl; [done|]. by rewrite Hr, IH.
Qed.

Lemma uploader_strip_trailing_snoc (s : string) :
  strip_trailing_quote (s ++ String quote EmptyString)%string = s.
Proof.
  induction s as [|c s IH]; [done|].
  simpl. rewrite IH. by destruct s.
Qed.

Lemma uploader_strip_trailing_length (s : string) :
  (String.length s - 1 <= String.length (strip_trailing_quote s) <= String.length s)%nat.
Proof.
  induction s as [|c s IH]; simpl; [lia|].
  destruct s as [|c' s']; [destruct (Ascii.eqb c quote); simpl; lia|].
  simpl in *. lia.
Qed.

Lemma uploader_strip_trailing_id (s : string) :
  (∀ init, s ≠ (init ++ String quote EmptyString)%string) → strip_trailing_quote s = s.
Proof.
  induction s as [|c s IH]; intros Hs; [done|].
  simpl. destruct s as [|c' s'].
  - destruct (Ascii.eqb_spec c quote) as [->|]; [|done]. by destruct (Hs EmptyString).
  - f_equal. apply IH. intros init Hinit. apply (Hs (String c init)). simpl. by rewrite Hinit.
Qed.

(** X13: the ETag clean-up of [xhr.onload], [eTag.replace(/^"|"$/g, '')]:
    a header value in double quotes comes out without them, whatever is in
    between; a value with no quote at either end is unchanged; and at most
    two characters are ever removed. *)
Theorem strip_quotes_unquotes (s : string) :
  strip_quotes (String quote (s ++ String quote EmptyString)%string) = s
  ∧ ((∀ rest, s ≠ String quote rest) →
     (∀ init, s ≠ (init ++ String quote EmptyString)%string) →
     strip_quotes s = s)
  ∧ (String.length s - 2 <= String.length (strip_quotes s) <= String.length s)%nat.
Proof.
  unfold strip_quotes. split; [|split].
  - simpl. apply uploader_strip_trailing_snoc.
  - intros Hhead Htail. destruct s as [|c s]; [done|].
    simpl strip_leading_quote. destruct (Ascii.eqb_spec c quote) as [->|].
    + by destruct (Hhead s).
    + by apply uploader_strip_trailing_id.
  - destruct s as [|c s]; [simpl; lia|].
    simpl strip_leading_quote. destruct (Ascii.eqb c quote).
    + pose proof (uploader_strip_trailing_length s). simpl. lia.
    + pose proof (uploader_strip_trailing_length (String c s)). simpl in *. lia.
Qed.


(** ** Every factory is called at most once *)

Lemma throttle_fold_submitted limit es r :
  Throttle.submitted (fold_left (Throttle.step limit) es r)
  = (Throttle.submitted r
     + length (List.filter (λ e, match e with Throttle.Submit => true | _ => false end) es))%nat.
Proof.
  revert r. induction es as [|e es IH]; intros r; simpl; [lia|].
  rewrite IH. destruct e; simpl; lia.
Qed.

(** X14: whatever is submitted and however the promises settle, the
    throttle calls no factory twice, and every factory submitted so far is
    in exactly one of three places: called, suspended at the [await], or
    given up because the [await] threw; the promises in the [executing]
    set all come from factories it called. *)
Theorem throttle_calls_each_factory_once (limit : nat) (es : list Throttle.event) :
  NoDup (Throttle.invoked (Throttle.th (Throttle.run limit es)))
  ∧ NoDup (Throttle.invoked (Throttle.th (Throttle.run limit es))
           ++ Throttle.waiting (Throttle.th (Throttle.run limit es))
           ++ Throttle.abandoned (Throttle.th (Throttle.run limit es)))
  ∧ (∀ k, (k < length (List.filter
                         (λ e, match e with Throttle.Submit => true | _ => false end) es))%nat ↔
          k ∈ Throttle.invoked (Throttle.th (Throttle.run limit es))
              ++ Throttle.waiting (Throttle.th (Throttle.run limit es))
              ++ Throttle.abandoned (Throttle.th (Throttle.run limit es)))
  ∧ Throttle.executing (Throttle.th (Throttle.run limit es))
    ⊆ Throttle.invoked (Throttle.th (Throttle.run limit es)).
Proof.
  destruct (throttle_run_invariant limit es) as [[Hb Hr He Ho Hs Hw] Hsub Hord Hsorted].
  split_and!.
  - by apply NoDup_app in Ho as [? _].
  - done.
  - intros k. rewrite Hsub. unfold Throttle.run. rewrite throttle_fold_submitted. done.
  - done.
Qed.

(** ** What a callback writes to the log *)

Lemma throttle_enter_invoked {K} `{EqDecision K} limit (k : K) (s : Throttle.state K) :
  Throttle.invoked (Throttle.enter limit k s).1
  = Throttle.invoked s
    ++ match (Throttle.enter limit k s).2 with Throttle.Launched => [k] | _ => [] end.
Proof.
  unfold Throttle.enter. repeat case_match; simpl; by rewrite ?app_nil_r.
Qed.

Lemma throttle_wake_invoked {K} `{EqDecision K} limit (ws : list K) (s : Throttle.state K) :
  Throttle.invoked (Throttle.wake limit ws s).1
  = Throttle.invoked s ++ (Throttle.wake limit ws s).2.
Proof.
  revert s. induction ws as [|k ws IH]; intros s; simpl; [by rewrite app_nil_r|].
  pose proof (throttle_enter_invoked limit k s) as He.
  destruct (Throttle.enter limit k s) as [s1 v]. specialize (IH s1).
  destruct (Throttle.wake limit ws s1) as [s2 ls]. simpl in *.
  rewrite IH, He. destruct v; by rewrite <- app_assoc.
Qed.

Lemma throttle_fulfil_invoked {K} `{EqDecision K} limit (t : K) (s : Throttle.state K) :
  Throttle.invoked (Throttle.fulfil limit t s).1
  = Throttle.invoked s ++ (Throttle.fulfil limit t s).2.
Proof.
  unfold Throttle.fulfil. case_match; simpl; [|by rewrite app_nil_r].
  by rewrite throttle_wake_invoked.
Qed.

Lemma throttle_reject_invoked {K} `{EqDecision K} (t : K) (s : Throttle.state K) :
  Throttle.invoked (Throttle.reject t s).1 = Throttle.invoked s.
Proof. unfold Throttle.reject. by case_match. Qed.

Lemma uploader_started_app es1 es2 :
  uploadPartStarted_values (es1 ++ es2)
  = uploadPartStarted_values es1 ++ uploadPartStarted_values es2.
Proof. apply omap_app. Qed.

Lemma uploader_progress_app es1 es2 :
  totalProgress_values (es1 ++ es2) = totalProgress_values es1 ++ totalProgress_values es2.
Proof. apply omap_app. Qed.

Lemma uploader_started_fmap l : uploadPartStarted_values (uploadPartStarted <$> l) = l.
Proof. induction l as [|p l IH]; simpl; [done|]. by f_equal. Qed.

Lemma uploader_progress_fmap l : totalProgress_values (uploadPartStarted <$> l) = [].
Proof. by induction l. Qed.

Lemma uploader_announces_refl s : announces s s.
Proof. exists []. by rewrite !app_nil_r. Qed.

Lemma uploader_announces_trans s1 s2 s3 :
  announces s1 s2 → announces s2 s3 → announces s1 s3.
Proof.
  intros (es1 & He1 & Hi1 & Hp1 & Ht1) (es2 & He2 & Hi2 & Hp2 & Ht2).
  exists (es1 ++ es2). split_and!.
  - by rewrite He2, He1, app_assoc.
  - by rewrite Hi2, Hi1, uploader_started_app, app_assoc.
  - by rewrite uploader_progress_app, Hp1, Hp2.
  - by rewrite Ht2.
Qed.

(** a change that touches neither the log, the throttle nor the progress *)
Lemma uploader_announces_frame s s' :
  emitted s' = emitted s → throttle s' = throttle s →
  totalUploadProgress s' = totalUploadProgress s → announces s s'.
Proof. intros He Ht Hp. exists []. by rewrite He, Ht, Hp, !app_nil_r. Qed.

Lemma uploader_announces_emit e s :
  (∀ p, e ≠ uploadPartStarted p) → (∀ p, e ≠ totalProgress p) →
  announces s (emit e s).
Proof.
  intros H1 H2. exists [e]. split_and!; try done.
  - simpl. destruct e; try by rewrite app_nil_r. by destruct (H1 partNumber).
  - destruct e; try done. by destruct (H2 progress).
Qed.

Lemma uploader_announces_launches launched th s :
  Throttle.invoked th = Throttle.invoked (throttle s) ++ launched →
  announces s (fold_left (λ s' p, launch p s') launched (set_throttle th s)).
Proof.
  intros Hth. exists (uploadPartStarted <$> launched).
  assert (Hgen : ∀ l s0,
    emitted (fold_left (λ s' p, launch p s') l s0) = emitted s0 ++ (uploadPartStarted <$> l)
    ∧ throttle (fold_left (λ s' p, launch p s') l s0) = throttle s0
    ∧ totalUploadProgress (fold_left (λ s' p, launch p s') l s0) = totalUploadProgress s0).
  { induction l as [|p l IH]; intros s0; simpl; [by rewrite app_nil_r|].
    destruct (IH (launch p s0)) as (-> & -> & ->). simpl.
    by rewrite <- app_assoc. }
  destruct (Hgen launched (set_throttle th s)) as (-> & -> & ->). simpl.
  by rewrite uploader_started_fmap, uploader_progress_fmap.
Qed.

Lemma uploader_announces_then s : announces s (promise_all_then s).
Proof.
  destruct (uploader_promise_all_then_frame s)
    as (_ & _ & Ht & _ & He & _ & _ & _ & Hth & _).
  by apply uploader_announces_frame.
Qed.

Lemma uploader_announces_catch s : announces s (promise_all_catch s).
Proof.
  unfold promise_all_catch. destruct (phase s); try apply uploader_announces_refl.
  eapply uploader_announces_trans; [|eapply uploader_announces_trans].
  - by apply (uploader_announces_frame s (set_uploadInProgress false s)).
  - by apply (uploader_announces_emit (error ErrParts)).
  - by apply uploader_announces_frame.
Qed.

Lemma uploader_announces_fulfilled o p s : announces s (task_fulfilled o p s).
Proof.
  unfold task_fulfilled.
  pose proof (throttle_fulfil_invoked (concurrencyLimit o) p (throttle s)) as Hinv.
  destruct (Throttle.fulfil _ _ _) as [th launched]. simpl in Hinv.
  eapply uploader_announces_trans; [|apply uploader_announces_then].
  by apply uploader_announces_launches.
Qed.

Lemma uploader_announces_rejected p s : announces s (task_rejected p s).
Proof.
  unfold task_rejected.
  pose proof (throttle_reject_invoked p (throttle s)) as Hinv.
  destruct (Throttle.reject _ _) as [th ws]. simpl in Hinv.
  eapply uploader_announces_trans; [|apply uploader_announces_catch].
  exists []. simpl. by rewrite Hinv, !app_nil_r.
Qed.

Lemma uploader_submit_emitted o p s :
  ∃ l, emitted (submit o p s) = emitted s ++ (uploadPartStarted <$> l)
       ∧ Throttle.invoked (throttle (submit o p s)) = Throttle.invoked (throttle s) ++ l.
Proof.
  unfold submit.
  pose proof (throttle_enter_invoked (concurrencyLimit o) p (throttle s)) as Hinv.
  destruct (Throttle.enter _ _ _) as [th v]. simpl in Hinv.
  destruct v; [exists [p]|exists []|exists []]; simpl; by rewrite Hinv, ?app_nil_r.
Qed.

Lemma uploader_loop_fold_emitted o lookup l s :
  ∃ ps, emitted (fold_left (loop_body o lookup) l s) = emitted s ++ (uploadPartStarted <$> ps)
        ∧ Throttle.invoked (throttle (fold_left (loop_body o lookup) l s))
          = Throttle.invoked (throttle s) ++ ps.
Proof.
  revert s. induction l as [|x l IH]; intros s; simpl.
  { exists []. by rewrite !app_nil_r. }
  destruct (IH (loop_body o lookup s x)) as (ps2 & -> & ->).
  unfold loop_body. destruct (lookup !! (x + 1)).
  - by exists ps2.
  - destruct (uploader_submit_emitted o (x + 1) s) as (ps1 & -> & ->).
    exists (ps1 ++ ps2). by rewrite fmap_app, !app_assoc.
Qed.

(** [loopMultipartParts] starts from a new [executing] set: the parts it
    announces are the ones its throttle has called. *)
Lemma uploader_loop_emitted o n lookup s :
  emitted (loopMultipartParts o n lookup s)
  = emitted s
    ++ (uploadPartStarted <$> Throttle.invoked (throttle (loopMultipartParts o n lookup s)))
  ∧ totalUploadProgress (loopMultipartParts o n lookup s) = totalUploadProgress s
  ∧ uploadInProgress (loopMultipartParts o n lookup s) = uploadInProgress s.
Proof.
  destruct (uploader_loop_frame o n lookup s) as (_ & -> & -> & _).
  split; [|done]. unfold loopMultipartParts.
  match goal with |- context [fold_left _ _ ?s0] =>
    destruct (uploader_loop_fold_emitted o lookup (seqZ 0 n) s0) as (ps & -> & ->) end.
  simpl. by case_match.
Qed.


(** every callback but the answer to the create call and a progress event *)
Lemma uploader_step_announces o f s i :
  (∀ r, i ≠ CreateResolved r) → (∀ p loaded total, i ≠ XhrProgress p loaded total) →
  announces s (step o f s i).
Proof.
  intros Hc Hx. destruct i as [r| |p url|p|p loaded total|p status etag|p|k|]; simpl.
  - by destruct (Hc r).
  - destruct (phase s); try apply uploader_announces_refl. unfold create_catch.
    eapply uploader_announces_trans; [|eapply uploader_announces_trans].
    + by apply (uploader_announces_frame s (set_uploadInProgress false s)).
    + by apply (uploader_announces_emit (error ErrCreate)).
    + by apply uploader_announces_frame.
  - destruct (tasks s !! p) as [[]|]; try apply uploader_announces_refl.
    eapply uploader_announces_trans.
    + by apply (uploader_announces_emit (uploadPartSignedUrl p url)).
    + by apply uploader_announces_frame.
  - destruct (tasks s !! p) as [[]|]; try apply uploader_announces_refl.
    eapply uploader_announces_trans; [|apply uploader_announces_rejected].
    by apply (uploader_announces_emit (error (ErrSign p))).
  - by destruct (Hx p loaded total).
  - destruct (tasks s !! p) as [[]|]; try apply uploader_announces_refl.
    unfold onload. destruct ((200 <=? status) && (status <? 300)).
    + eapply uploader_announces_trans; [|apply uploader_announces_fulfilled].
      exists [uploadPartSuccess p]. repeat case_match; simpl; by rewrite app_nil_r.
    + apply uploader_announces_rejected.
  - destruct (tasks s !! p) as [[]|]; try apply uploader_announces_refl.
    unfold onerror.
    eapply uploader_announces_trans; [|apply uploader_announces_rejected].
    by apply (uploader_announces_emit (uploadFailed _ _)).
  - destruct (phase s); try apply uploader_announces_refl. unfold complete_then, reset.
    eapply uploader_announces_trans; [|eapply uploader_announces_trans].
    + by apply (uploader_announces_frame s
                  (removeLS (key f) (set_partsUploadProgress ∅ (set_uploadInProgress false s)))).
    + by apply (uploader_announces_emit (uploadComplete k)).
    + by apply uploader_announces_frame.
  - destruct (phase s); try apply uploader_announces_refl. unfold complete_catch.
    eapply uploader_announces_trans; [|eapply uploader_announces_trans].
    + by apply (uploader_announces_frame s (set_uploadInProgress false s)).
    + by apply (uploader_announces_emit (error ErrComplete)).
    + by apply uploader_announces_frame.
Qed.

Lemma uploader_onprogress_emitted p loaded total s :
  throttle (onprogress p loaded total s) = throttle s
  ∧ ((emitted (onprogress p loaded total s) = emitted s
      ∧ totalUploadProgress (onprogress p loaded total s) = totalUploadProgress s)
     ∨ ∃ v, totalUploadProgress s < v
            ∧ emitted (onprogress p loaded total s) = emitted s ++ [totalProgress v]
            ∧ totalUploadProgress (onprogress p loaded total s) = v).
Proof.
  unfold onprogress. destruct (total =? 0)%N; [by split; [|left]|].
  cbv zeta. match goal with |- context [if ?a <? ?b then _ else _] =>
    destruct (Z.ltb_spec a b) as [Hlt|Hge] end.
  - split; [done|]. right. eexists. split; [exact Hlt|]. done.
  - split; [done|]. by left.
Qed.

Lemma uploader_create_then_emitted o f r s :
  let s' := create_then o f r s in
  totalUploadProgress s' = totalUploadProgress s
  ∧ ((phase s' = Failed ErrCreateIncomplete
      ∧ throttle s' = throttle s
      ∧ emitted s'
        = emitted s ++ [uploadCreated (resp_uploadId r) (resp_s3Filename r);
                        error ErrCreateIncomplete])
     ∨ (truthy_str (resp_uploadId r) = true ∧ truthy_str (resp_s3Filename r) = true
        ∧ emitted s'
          = emitted s ++ uploadCreated (resp_uploadId r) (resp_s3Filename r)
              :: (uploadPartStarted <$> Throttle.invoked (throttle s')))).
Proof.
  unfold create_then.
  destruct (truthy_str (resp_s3Filename r)) eqn:H1;
    [destruct (truthy_str (resp_uploadId r)) eqn:H2|]; simpl.
  - match goal with |- context [promise_all_then ?x] =>
      destruct (uploader_promise_all_then_frame x)
        as (_ & _ & -> & _ & -> & _ & _ & _ & -> & _) end.
    simpl.
    match goal with |- context [loopMultipartParts o ?n ?l ?x] =>
      destruct (uploader_loop_emitted o n l x) as (-> & -> & _) end.
    simpl. split; [done|]. right. split_and!; [done..|].
    by rewrite <- app_assoc.
  - split; [done|]. left. split_and!; try done. by rewrite <- app_assoc.
  - split; [done|]. left. split_and!; try done. by rewrite <- app_assoc.
Qed.

(** a step that emits nothing on the [totalProgress] channel and leaves
    [totalUploadProgress] as it is, or emits one value above it and stores
    it *)
Lemma uploader_step_progress o f s i :
  (totalProgress_values (emitted (step o f s i)) = totalProgress_values (emitted s)
   ∧ totalUploadProgress (step o f s i) = totalUploadProgress s)
  ∨ ∃ v, totalUploadProgress s < v
         ∧ totalProgress_values (emitted (step o f s i))
           = totalProgress_values (emitted s) ++ [v]
         ∧ totalUploadProgress (step o f s i) = v.
Proof.
  destruct i as [r| |p url|p|p loaded total|p status etag|p|k|].
  1:{ simpl. destruct (phase s); try (by left).
      destruct (uploader_create_then_emitted o f r s) as (-> & [(_ & _ & ->)|(_ & _ & ->)]).
      - left. by rewrite uploader_progress_app, app_nil_r.
      - left. rewrite uploader_progress_app. simpl.
        by rewrite uploader_progress_fmap, app_nil_r. }
  4:{ simpl. destruct (tasks s !! p) as [[]|]; try (by left).
      destruct (uploader_onprogress_emitted p loaded total s)
        as (_ & [[-> ->]|(v & Hv & -> & ->)]); [by left|right].
      exists v. by rewrite uploader_progress_app. }
  all: match goal with |- context [step ?o ?f ?s ?i] =>
         destruct (uploader_step_announces o f s i) as (es & -> & _ & Hes & ->); [done..|] end.
  all: left; by rewrite uploader_progress_app, Hes, app_nil_r.
Qed.

(** What a call has put on the [totalProgress] channel when it first
    suspends: nothing in the create flow, the starting percentage in the
    resume flow; neither stores anything in [totalUploadProgress]. *)
Lemma uploader_start_progress o f fuel i s0 :
  uploadMultipart o f fuel i = Some s0 →
  totalUploadProgress s0 = i_totalUploadProgress i
  ∧ ((phase s0 = Creating
      ∧ totalProgress_values (emitted s0) = totalProgress_values (i_emitted i))
     ∨ (phase s0 ≠ Creating
        ∧ ∃ localRecord startingPercentage,
            uploadResumed startingPercentage localRecord ∈ emitted s0
            ∧ totalProgress_values (emitted s0)
              = totalProgress_values (i_emitted i) ++ [startingPercentage])).
Proof.
  intros [->|[->|(localRecord & parts & _ & _ & _ & Hs)]]%uploader_start_cases.
  - split; [done|]. left. split; [done|]. simpl. by rewrite uploader_progress_app, app_nil_r.
  - split; [done|]. left. split; [done|]. simpl. by rewrite uploader_progress_app, app_nil_r.
  - pose proof (uploader_resume_phase o f localRecord i s0 Hs) as Hp.
    unfold uploadUnfinishedMultipart in Hs. destruct (negb _); [done|].
    injection Hs as <-.
    match goal with |- context [promise_all_then ?x] =>
      destruct (uploader_promise_all_then_frame x)
        as (_ & _ & Ht & _ & He & _) end.
    rewrite Ht, He. simpl.
    match goal with |- context [loopMultipartParts o ?n ?l ?x] =>
      destruct (uploader_loop_emitted o n l x) as (-> & -> & _) end.
    simpl. split; [done|]. right. split; [done|].
    eexists localRecord, _. split.
    + rewrite !elem_of_app. left. left. right. apply list_elem_of_singleton. reflexivity.
    + rewrite !uploader_progress_app, uploader_progress_fmap. simpl.
      by rewrite !app_nil_r.
Qed.

(** X3: the percentages a call of [uploadMultipart] puts on the
    [totalProgress] channel.  The ones that come from the progress events
    of the parts are strictly increasing, each is above the
    [totalUploadProgress] the instance had when the call began and at most
    the one it has now, and [totalUploadProgress] never goes down: nothing
    stores a lower value, and [reset] leaves the field alone.  The create
    flow emits no other; the resume flow emits one more, the starting
    percentage, before any of them, and neither compares it with
    [totalUploadProgress] nor stores it there. *)
Theorem progress_events_strictly_increase (o : Options) (f : File) (fuel : nat)
    (i : Instance) (s0 : State) (inputs : list Input) :
  uploadMultipart o f fuel i = Some s0 →
  ∃ start l,
    totalProgress_values (emitted (run o f s0 inputs))
    = totalProgress_values (i_emitted i) ++ start ++ l
    ∧ (phase s0 = Creating → start = [])
    ∧ (phase s0 ≠ Creating →
       ∃ localRecord startingPercentage,
         start = [startingPercentage]
         ∧ uploadResumed startingPercentage localRecord ∈ emitted s0)
    ∧ totalUploadProgress s0 = i_totalUploadProgress i
    ∧ StronglySorted Z.lt l
    ∧ Forall (λ v, i_totalUploadProgress i < v <= totalUploadProgress (run o f s0 inputs)) l
    ∧ i_totalUploadProgress i <= totalUploadProgress (run o f s0 inputs).
Proof.
  intros Hs0.
  destruct (uploader_start_progress o f fuel i s0 Hs0) as [Ht Hstart].
  assert (Hrun : ∀ inputs s,
    ∃ l, totalProgress_values (emitted (run o f s inputs))
         = totalProgress_values (emitted s) ++ l
         ∧ StronglySorted Z.lt l
         ∧ Forall (λ v, totalUploadProgress s < v <= totalUploadProgress (run o f s inputs)) l
         ∧ totalUploadProgress s <= totalUploadProgress (run o f s inputs)).
  { clear. intros inputs. induction inputs as [|i inputs IH]; intros s; simpl.
    { exists []. rewrite app_nil_r. split_and!; [done|constructor|constructor|lia]. }
    destruct (IH (step o f s i)) as (l & Hl & Hsorted & Hall & Hle).
    fold (run o f (step o f s i) inputs) in *.
    destruct (uploader_step_progress o f s i) as [[He Ht]|(v & Hv & He & Ht)].
    - exists l. rewrite Hl, He. rewrite Ht in Hall, Hle. done.
    - exists (v :: l). rewrite Hl, He, <- app_assoc. rewrite Ht in Hall, Hle.
      split_and!; [done| | |lia].
      + constructor; [done|]. eapply Forall_impl; [exact Hall|]. simpl. lia.
      + constructor; [lia|]. eapply Forall_impl; [exact Hall|]. simpl. lia. }
  destruct (Hrun inputs s0) as (l & Hl & Hsorted & Hall & Hle).
  rewrite Ht in Hall, Hle.
  destruct Hstart as [[Hp He]|(Hp & localRecord & sp & Hin & He)].
  - exists [], l. rewrite Hl, He. split_and!; try done.
  - exists [sp], l. rewrite Hl, He, <- app_assoc. split_and!; try done.
    intros _. by exists localRecord, sp.
Qed.

(** X3 on the resumed upload of a file of which two of three parts are
    stored: the starting percentage is 67, the first progress event of
    part 3 then emits 66. *)
Lemma progress_events_strictly_increase_witness :
  ∃ start l,
    totalProgress_values
      (emitted
         (run defaultOptions
            {| File.name := "a.mov"; File.size := 31457280; File.type := "video/quicktime" |}
            (default (fresh_start (new_instance ∅))
               (uploadMultipart defaultOptions
                  {| File.name := "a.mov"; File.size := 31457280;
                     File.type := "video/quicktime" |} 2
                  (new_instance
                     (<["video|a.mov" := {|
                          originalFilename := Some "a.mov";
                          totalFileSizeInBytes := Some 31457280;
                          totalParts := Some 3;
                          partSizeInBytes := Some (10813440 # 1)%Q;
                          finishedParts :=
                            Some [ {| ETag := Some "e1"; PartNumber := 1 |};
                                   {| ETag := Some "e2"; PartNumber := 2 |} ];
                          uploadId := Some "u"; s3Filename := Some "k" |}]> ∅))))
            [SignResolved 3 (Some "https://s3/part3"); XhrProgress 3 16384 9830400]))
    = [] ++ start ++ l
    ∧ start = [67] ∧ l = [66].
Proof.
  destruct (progress_events_strictly_increase defaultOptions
    {| File.name := "a.mov"; File.size := 31457280; File.type := "video/quicktime" |} 2
    (new_instance
       (<["video|a.mov" := {|
            originalFilename := Some "a.mov";
            totalFileSizeInBytes := Some 31457280;
            totalParts := Some 3;
            partSizeInBytes := Some (10813440 # 1)%Q;
            finishedParts :=
              Some [ {| ETag := Some "e1"; PartNumber := 1 |};
                     {| ETag := Some "e2"; PartNumber := 2 |} ];
            uploadId := Some "u"; s3Filename := Some "k" |}]> ∅))
    (default (fresh_start (new_instance ∅))
       (uploadMultipart defaultOptions
          {| File.name := "a.mov"; File.size := 31457280;
             File.type := "video/quicktime" |} 2
          (new_instance
             (<["video|a.mov" := {|
                  originalFilename := Some "a.mov";
                  totalFileSizeInBytes := Some 31457280;
                  totalParts := Some 3;
                  partSizeInBytes := Some (10813440 # 1)%Q;
                  finishedParts :=
                    Some [ {| ETag := Some "e1"; PartNumber := 1 |};
                           {| ETag := Some "e2"; PartNumber := 2 |} ];
                  uploadId := Some "u"; s3Filename := Some "k" |}]> ∅))))
    [SignResolved 3 (Some "https://s3/part3"); XhrProgress 3 16384 9830400])
    as (start & l & Hv & _ & Hs & _).
  { by vm_compute. }
  destruct Hs as (localRecord & sp & -> & _); [by vm_compute|].
  exists [sp], l. split; [exact Hv|].
  vm_compute in Hv. injection Hv as <- <-. done.
Defined.

Lemma uploader_start_started o f fuel i s0 :
  uploadMultipart o f fuel i = Some s0 →
  uploadPartStarted_values (emitted s0)
  = uploadPartStarted_values (i_emitted i) ++ Throttle.invoked (throttle s0).
Proof.
  intros [->|[->|(localRecord & parts & _ & _ & _ & Hs)]]%uploader_start_cases.
  - simpl. by rewrite uploader_started_app.
  - simpl. by rewrite uploader_started_app.
  - unfold uploadUnfinishedMultipart in Hs. destruct (negb _); [done|].
    injection Hs as <-.
    match goal with |- context [promise_all_then ?x] =>
      destruct (uploader_promise_all_then_frame x)
        as (_ & _ & _ & _ & -> & _ & _ & _ & -> & _) end.
    simpl.
    match goal with |- context [loopMultipartParts o ?n ?l ?x] =>
      destruct (uploader_loop_emitted o n l x) as (-> & _ & _) end.
    simpl. rewrite !uploader_started_app, uploader_started_fmap. simpl.
    by rewrite !app_nil_r.
Qed.

Lemma uploader_run_snoc o f s inputs i :
  run o f s (inputs ++ [i]) = step o f (run o f s inputs) i.
Proof. unfold run. by rewrite fold_left_app. Qed.

Lemma uploader_run_started o f fuel i s0 inputs :
  uploadMultipart o f fuel i = Some s0 →
  uploadPartStarted_values (emitted (run o f s0 inputs))
  = uploadPartStarted_values (i_emitted i) ++ Throttle.invoked (throttle (run o f s0 inputs)).
Proof.
  intros Hs0. induction inputs as [|x inputs IH] using rev_ind.
  { by apply (uploader_start_started o f fuel). }
  rewrite uploader_run_snoc.
  pose proof (uploader_reachable o f fuel i s0 inputs Hs0) as Hreach.
  set (s := run o f s0 inputs) in *.
  assert (Hcreating : phase s = Creating → Throttle.invoked (throttle s) = []).
  { intros Hp. destruct Hreach as [(_ & [(_ & _ & -> & _)|[Hi _]])|(_ & Hi & _)]; [done|..];
      by destruct (inv_phase _ _ Hi). }
  destruct x as [r| |p url|p|p loaded total|p status etag|p|k|].
  1:{ simpl. destruct (phase s) eqn:Hp; try done.
      rewrite (Hcreating eq_refl), app_nil_r in IH.
      destruct (uploader_create_then_emitted o f r s)
        as (_ & [(_ & -> & ->)|(_ & _ & ->)]).
      - rewrite uploader_started_app, IH, (Hcreating eq_refl). simpl. done.
      - rewrite uploader_started_app, IH. simpl. by rewrite uploader_started_fmap. }
  4:{ simpl. destruct (tasks s !! p) as [[]|]; try done.
      destruct (uploader_onprogress_emitted p loaded total s)
        as (-> & [[-> _]|(v & _ & -> & _)]); [done|].
      rewrite uploader_started_app. simpl. by rewrite app_nil_r. }
  all: match goal with |- context [step ?o ?f ?s ?i] =>
         destruct (uploader_step_announces o f s i) as (es & -> & -> & _ & _); [done..|] end.
  all: by rewrite uploader_started_app, IH, app_assoc.
Qed.

Lemma uploader_then_pending s : pending (promise_all_then s) = pending s.
Proof.
  unfold promise_all_then, pending.
  destruct (phase s) eqn:Hp; rewrite ?Hp; try done.
  destruct (resolvedArr s); rewrite ?Hp; try done.
  by destruct (uploadPartsArray s).
Qed.

Lemma uploader_step_inProgress o f s i :
  isUploadInProgress s = pending s →
  isUploadInProgress (step o f s i) = pending (step o f s i).
Proof.
  unfold isUploadInProgress. intros Hs.
  assert (Hrej : ∀ p x, uploadInProgress x = pending x →
            uploadInProgress (task_rejected p x) = pending (task_rejected p x)).
  { intros p x Hx. unfold task_rejected. destruct (Throttle.reject _ _).
    unfold promise_all_catch, pending in *. simpl.
    destruct (phase x) eqn:Hp; simpl; by rewrite ?Hp. }
  assert (Hful : ∀ p x, uploadInProgress x = pending x →
            uploadInProgress (task_fulfilled o p x) = pending (task_fulfilled o p x)).
  { intros p x Hx. unfold task_fulfilled. destruct (Throttle.fulfil _ _ _) as [th launched].
    rewrite uploader_then_pending.
    match goal with |- context [promise_all_then ?y] =>
      destruct (uploader_promise_all_then_frame y) as (_ & _ & _ & -> & _) end.
    assert (Hgen : ∀ l y,
      uploadInProgress (fold_left (λ s' q, launch q s') l y) = uploadInProgress y
      ∧ pending (fold_left (λ s' q, launch q s') l y) = pending y).
    { induction l as [|q l IH]; intros y; simpl; [done|].
      by destruct (IH (launch q y)) as [-> ->]. }
    by destruct (Hgen launched (set_throttle th x)) as [-> ->]. }
  destruct i as [r| |p url|p|p loaded total|p status etag|p|k|]; simpl.
  - destruct (phase s) eqn:Hp; try done. unfold create_then.
    case_match; [done|]. rewrite uploader_then_pending.
    match goal with |- context [promise_all_then ?y] =>
      destruct (uploader_promise_all_then_frame y) as (_ & _ & _ & -> & _) end.
    simpl.
    match goal with |- context [loopMultipartParts o ?n ?l ?x] =>
      destruct (uploader_loop_emitted o n l x) as (_ & _ & ->) end.
    simpl. rewrite Hs. unfold pending. by rewrite Hp.
  - by destruct (phase s).
  - by destruct (tasks s !! p) as [[]|].
  - destruct (tasks s !! p) as [[]|]; try done. by apply Hrej.
  - destruct (tasks s !! p) as [[]|]; try done. unfold onprogress. by repeat case_match.
  - destruct (tasks s !! p) as [[]|]; try done. unfold onload.
    destruct ((200 <=? status) && (status <? 300)); [|by apply Hrej].
    apply Hful. by repeat case_match.
  - destruct (tasks s !! p) as [[]|]; try done. by apply Hrej.
  - by destruct (phase s).
  - by destruct (phase s).
Qed.

Lemma uploader_step_not_inProgress o f s i :
  isUploadInProgress s = false → isUploadInProgress (step o f s i) = false.
Proof.
  unfold isUploadInProgress. intros Hs.
  assert (Hrej : ∀ p x, uploadInProgress x = false →
            uploadInProgress (task_rejected p x) = false).
  { intros p x Hx. unfold task_rejected. destruct (Throttle.reject _ _).
    unfold promise_all_catch. simpl. by destruct (phase x). }
  assert (Hful : ∀ p x, uploadInProgress x = false →
            uploadInProgress (task_fulfilled o p x) = false).
  { intros p x Hx. unfold task_fulfilled. destruct (Throttle.fulfil _ _ _) as [th launched].
    match goal with |- context [promise_all_then ?y] =>
      destruct (uploader_promise_all_then_frame y) as (_ & _ & _ & -> & _) end.
    assert (Hgen : ∀ l y,
      uploadInProgress (fold_left (λ s' q, launch q s') l y) = uploadInProgress y).
    { induction l as [|q l IH]; intros y; simpl; [done|]. by rewrite IH. }
    by rewrite Hgen. }
  destruct i as [r| |p url|p|p loaded total|p status etag|p|k|]; simpl.
  - destruct (phase s) eqn:Hp; try done. unfold create_then.
    case_match; [done|].
    match goal with |- context [promise_all_then ?y] =>
      destruct (uploader_promise_all_then_frame y) as (_ & _ & _ & -> & _) end.
    simpl.
    match goal with |- context [loopMultipartParts o ?n ?l ?x] =>
      by destruct (uploader_loop_emitted o n l x) as (_ & _ & ->) end.
  - by destruct (phase s).
  - by destruct (tasks s !! p) as [[]|].
  - destruct (tasks s !! p) as [[]|]; try done. by apply Hrej.
  - destruct (tasks s !! p) as [[]|]; try done. unfold onprogress. by repeat case_match.
  - destruct (tasks s !! p) as [[]|]; try done. unfold onload.
    destruct ((200 <=? status) && (status <? 300)); [|by apply Hrej].
    apply Hful. by repeat case_match.
  - destruct (tasks s !! p) as [[]|]; try done. by apply Hrej.
  - by destruct (phase s).
  - by destruct (phase s).
Qed.

Lemma uploader_resume_inProgress o f localRecord i s :
  uploadUnfinishedMultipart o f (λ _, None) localRecord (enter_call i) = Some s →
  isUploadInProgress s = i_uploadInProgress i.
Proof.
  unfold uploadUnfinishedMultipart. destruct (negb _); [done|]. intros [= <-].
  unfold isUploadInProgress.
  match goal with |- context [promise_all_then ?y] =>
    destruct (uploader_promise_all_then_frame y) as (_ & _ & _ & -> & _) end.
  simpl.
  match goal with |- context [loopMultipartParts o ?n ?l ?x] =>
    by destruct (uploader_loop_emitted o n l x) as (_ & _ & ->) end.
Qed.

(** X5: in the create flow, and as long as no answer of the server is
    the JSON value [null], [isUploadInProgress()] is true exactly as long
    as the promise of [uploadMultipart] has not settled: from the call on,
    through the create call, the parts and the complete call, and no longer
    once the upload has completed or failed. *)
Theorem fresh_upload_reports_in_progress (o : Options) (f : File) (fuel : nat)
    (i : Instance) (s0 : State) (inputs : list Input) :
  uploadMultipart o f fuel i = Some s0 →
  phase s0 = Creating →
  isUploadInProgress (run o f s0 inputs) = pending (run o f s0 inputs).
Proof.
  intros Hs0 Hp.
  assert (H0 : isUploadInProgress s0 = pending s0).
  { destruct (uploader_start_cases o f fuel i s0 Hs0)
      as [->|[->|(localRecord & parts & _ & _ & _ & Hs)]]; [done..|].
    by destruct (uploader_resume_phase o f localRecord i s0 Hs). }
  clear Hs0 Hp. revert s0 H0.
  induction inputs as [|x inputs IH]; intros s0 H0; simpl; [done|].
  by apply IH, uploader_step_inProgress.
Qed.

Lemma fresh_upload_reports_in_progress_witness :
  isUploadInProgress
    (run defaultOptions
       {| File.name := "a.mov"; File.size := 31457280; File.type := "video/quicktime" |}
       (fresh_start (new_instance ∅))
       [CreateResolved {| resp_uploadId := Some "u"; resp_s3Filename := Some "k" |};
           SignResolved 1 (Some "https://s3/part1"); XhrLoad 1 200 (Some "e1");
           SignResolved 2 (Some "https://s3/part2"); XhrLoad 2 200 (Some "e2");
           SignResolved 3 (Some "https://s3/part3"); XhrLoad 3 200 (Some "e3");
           CompleteRejected])
  = false.
Proof.
  refine (eq_trans
    (fresh_upload_reports_in_progress defaultOptions
       {| File.name := "a.mov"; File.size := 31457280; File.type := "video/quicktime" |}
       1 (new_instance ∅) (fresh_start (new_instance ∅))
       [CreateResolved {| resp_uploadId := Some "u"; resp_s3Filename := Some "k" |};
           SignResolved 1 (Some "https://s3/part1"); XhrLoad 1 200 (Some "e1");
           SignResolved 2 (Some "https://s3/part2"); XhrLoad 2 200 (Some "e2");
           SignResolved 3 (Some "https://s3/part3"); XhrLoad 3 200 (Some "e3");
           CompleteRejected] _ _) _);
    by vm_compute.
Defined.

(** X6: the resume flow never sets [uploadInProgress]: when an instance
    that reports no upload in progress resumes an upload, the promise is
    pending but [isUploadInProgress()] is false, and stays false whatever
    happens. *)
Theorem resumed_upload_never_in_progress (o : Options) (f : File) (fuel : nat)
    (i : Instance) (s0 : State) (inputs : list Input) :
  uploadMultipart o f fuel i = Some s0 →
  phase s0 ≠ Creating →
  i_uploadInProgress i = false →
  pending s0 = true
  ∧ isUploadInProgress (run o f s0 inputs) = false.
Proof.
  intros Hs0 Hp Hi.
  assert (H0 : isUploadInProgress s0 = false ∧ pending s0 = true).
  { destruct (uploader_start_cases o f fuel i s0 Hs0)
      as [->|[->|(localRecord & parts & _ & _ & _ & Hs)]]; [done..|].
    rewrite (uploader_resume_inProgress o f localRecord i s0 Hs). split; [done|].
    unfold uploadUnfinishedMultipart in Hs. destruct (negb _); [done|]. 
    injection Hs as <-. rewrite uploader_then_pending. done. }
  destruct H0 as [H0 H1]. split; [done|]. clear Hs0 Hp H1. revert s0 H0.
  induction inputs as [|x inputs IH]; intros s0 H0; simpl; [done|].
  by apply IH, uploader_step_not_inProgress.
Qed.

Lemma resumed_upload_never_in_progress_witness :
  ∃ s0,
    uploadMultipart defaultOptions
      {| File.name := "a.mov"; File.size := 31457280; File.type := "video/quicktime" |} 2
      (new_instance (<["video|a.mov" := {| originalFilename := Some "a.mov"; totalFileSizeInBytes := Some 31457280;
            totalParts := Some 3; partSizeInBytes := Some (1038090240 # 96)%Q;
            finishedParts := Some [ {| ETag := Some "e1"; PartNumber := 1 |} ];
            uploadId := Some "u"; s3Filename := Some "k" |}]> ∅)) = Some s0
    ∧ pending s0 = true
    ∧ isUploadInProgress
        (run defaultOptions
           {| File.name := "a.mov"; File.size := 31457280; File.type := "video/quicktime" |}
           s0 [SignResolved 2 (Some "https://s3/part2"); XhrLoad 2 200 (Some "e2")])
      = false.
Proof.
  eexists. split; [by vm_compute|].
  refine (resumed_upload_never_in_progress defaultOptions
     {| File.name := "a.mov"; File.size := 31457280; File.type := "video/quicktime" |}
     2 (new_instance (<["video|a.mov" := {| originalFilename := Some "a.mov"; totalFileSizeInBytes := Some 31457280;
            totalParts := Some 3; partSizeInBytes := Some (1038090240 # 96)%Q;
            finishedParts := Some [ {| ETag := Some "e1"; PartNumber := 1 |} ];
            uploadId := Some "u"; s3Filename := Some "k" |}]> ∅)) _
     [SignResolved 2 (Some "https://s3/part2"); XhrLoad 2 200 (Some "e2")] _ _ _);
    by vm_compute.
Defined.

Lemma uploader_catch_phase s :
  phase (promise_all_catch s) = phase s ∨ phase (promise_all_catch s) = Failed ErrParts.
Proof. unfold promise_all_catch. destruct (phase s) eqn:Hp; simpl; rewrite ?Hp; auto. Qed.

Lemma uploader_then_phase s :
  phase (promise_all_then s) = phase s
  ∨ (phase s = Uploading ∧ ∃ parts, phase (promise_all_then s) = Completing parts).
Proof.
  unfold promise_all_then. destruct (phase s) eqn:Hp; rewrite ?Hp; auto.
  destruct (resolvedArr s); rewrite ?Hp; auto. right. split; [done|].
  destruct (uploadPartsArray s); simpl; eauto.
Qed.

Lemma uploader_task_fulfilled_phase o p s :
  phase (task_fulfilled o p s) = phase s
  ∨ (phase s = Uploading ∧ ∃ parts, phase (task_fulfilled o p s) = Completing parts).
Proof.
  unfold task_fulfilled. destruct (Throttle.fulfil _ _ _) as [th launched].
  match goal with |- context [promise_all_then ?y] =>
    assert (Hy : phase y = phase s);
    [|destruct (uploader_then_phase y) as [->|[Hu Hc]]; rewrite <- Hy; auto] end.
  by destruct (uploader_launch_fold launched (set_throttle th s)) as (_ & -> & _).
Qed.

Lemma uploader_task_rejected_phase p s :
  phase (task_rejected p s) = phase s ∨ phase (task_rejected p s) = Failed ErrParts.
Proof.
  unfold task_rejected. destruct (Throttle.reject _ _) as [th ws].
  match goal with |- context [promise_all_catch ?y] =>
    destruct (uploader_catch_phase y) as [-> | ->]; auto end.
Qed.

(** a call resolves only through the answer to its complete call *)
Lemma uploader_step_resolved o f s i k :
  phase (step o f s i) = Resolved k →
  phase s = Resolved k
  ∨ (i = CompleteResolved k ∧ ∃ parts, phase s = Completing parts).
Proof.
  destruct i as [r| |p url|p|p loaded total|p status etag|p|k'|]; simpl.
  - destruct (phase s) eqn:Hp; rewrite ?Hp; auto. unfold create_then. case_match; [done|].
    match goal with |- context [promise_all_then ?y] =>
      destruct (uploader_then_phase y) as [->|[_ [parts ->]]]; done end.
  - destruct (phase s) eqn:Hp; rewrite ?Hp; auto. done.
  - destruct (tasks s !! p) as [[]|]; auto.
  - destruct (tasks s !! p) as [[]|]; auto.
    match goal with |- context [task_rejected p ?y] =>
      destruct (uploader_task_rejected_phase p y) as [-> | ->]; simpl; auto; done end.
  - destruct (tasks s !! p) as [[]|]; auto. unfold onprogress. repeat case_match; auto.
  - destruct (tasks s !! p) as [[]|]; auto. unfold onload.
    destruct ((200 <=? status) && (status <? 300)).
    + match goal with |- context [task_fulfilled o p ?y] =>
        assert (Hy : phase y = phase s) by (by repeat case_match);
        destruct (uploader_task_fulfilled_phase o p y) as [->|[_ [parts ->]]];
        rewrite ?Hy; auto; done end.
    + destruct (uploader_task_rejected_phase p s) as [-> | ->]; auto; done.
  - destruct (tasks s !! p) as [[]|]; auto. unfold onerror.
    match goal with |- context [task_rejected p ?y] =>
      destruct (uploader_task_rejected_phase p y) as [-> | ->]; simpl; auto; done end.
  - destruct (phase s) eqn:Hp; rewrite ?Hp; auto. simpl. intros [= ->]. right. eauto.
  - destruct (phase s) eqn:Hp; rewrite ?Hp; auto. done.
Qed.

(** once every task has fulfilled and the complete call has answered, no
    callback does anything *)
Lemma uploader_step_settled o f s i :
  (∀ p t, tasks s !! p = Some t → ∃ r, t = Fulfilled r) →
  (∀ parts, phase s ≠ Completing parts) → phase s ≠ Creating →
  step o f s i = s.
Proof.
  intros Hall Hc Hp.
  destruct i as [r| |p url|p|p loaded total|p status etag|p|k'|]; simpl;
    try (destruct (phase s) eqn:Hph; try done; by destruct (Hc parts));
    try (destruct (tasks s !! p) as [t|] eqn:Ht; [|done];
         destruct (Hall p t Ht) as [r ->]; done).
Qed.

Lemma uploader_run_resolved o f fuel i s0 inputs k :
  uploadMultipart o f fuel i = Some s0 →
  phase (run o f s0 inputs) = Resolved k →
  localStorage (run o f s0 inputs) !! key f = None
  ∧ partsUploadProgress (run o f s0 inputs) = ∅
  ∧ uploadInProgress (run o f s0 inputs) = false
  ∧ last (emitted (run o f s0 inputs)) = Some (uploadComplete k).
Proof.
  intros Hs0. induction inputs as [|x inputs IH] using rev_ind.
  { simpl. intros Hp.
    destruct (uploader_start_cases o f fuel i s0 Hs0)
      as [->|[->|(localRecord & parts & _ & _ & _ & Hs)]]; [done..|].
    unfold uploadUnfinishedMultipart in Hs. destruct (negb _); [done|].
    injection Hs as <-.
    match type of Hp with context [promise_all_then ?y] =>
      destruct (uploader_then_phase y) as [Hy|[_ [parts' Hy]]]; rewrite Hy in Hp; done end. }
  rewrite uploader_run_snoc.
  pose proof (uploader_reachable o f fuel i s0 inputs Hs0) as Hreach.
  set (s := run o f s0 inputs) in *. intros Hp.
  destruct (uploader_step_resolved o f s x k Hp) as [Hs|[-> [parts Hs]]].
  - assert (Hi : invariant f s).
    { destruct Hreach as [(_ & [(_ & _ & _ & Hb)|[Hi _]])|(_ & Hi & _)]; [|done..].
      rewrite Hs in Hb. by destruct Hb as [?|[?|?]]. }
    destruct (inv_settled _ _ Hi) as [[?|?]|Hall]; [congruence..|].
    rewrite uploader_step_settled; [by apply IH|done|by rewrite Hs..].
  - simpl. rewrite Hs. simpl. split_and!; [apply lookup_delete_eq|done|done|].
    by rewrite last_snoc.
Qed.

(** X7: an upload that has completed leaves nothing behind: the record of
    the file is gone from localStorage, [partsUploadProgress] is empty,
    [isUploadInProgress()] is false and [uploadComplete] is the last
    notification; calling [uploadMultipart] again for the file starts a
    fresh upload. *)
Theorem completed_upload_leaves_no_record (o : Options) (f : File) (fuel fuel' : nat)
    (i : Instance) (s0 : State) (inputs : list Input) (k : option string) :
  uploadMultipart o f fuel i = Some s0 →
  phase (run o f s0 inputs) = Resolved k →
  localStorage (run o f s0 inputs) !! key f = None
  ∧ partsUploadProgress (run o f s0 inputs) = ∅
  ∧ isUploadInProgress (run o f s0 inputs) = false
  ∧ last (emitted (run o f s0 inputs)) = Some (uploadComplete k)
  ∧ uploadMultipart o f (S fuel') (instance (run o f s0 inputs))
    = Some (fresh_start (instance (run o f s0 inputs))).
Proof.
  intros Hs0 Hp.
  destruct (uploader_run_resolved o f fuel i s0 inputs k Hs0 Hp) as (Hls & Hpp & Hip & Hlast).
  split_and!; try done.
  apply uploader_start_fresh. simpl. by rewrite Hls.
Qed.

Lemma completed_upload_leaves_no_record_witness :
  localStorage
    (run defaultOptions
       {| File.name := "a.mov"; File.size := 31457280; File.type := "video/quicktime" |}
       (fresh_start (new_instance ∅))
       [CreateResolved {| resp_uploadId := Some "u"; resp_s3Filename := Some "k" |};
           SignResolved 1 (Some "https://s3/part1"); XhrLoad 1 200 (Some "e1");
           SignResolved 2 (Some "https://s3/part2"); XhrLoad 2 200 (Some "e2");
           SignResolved 3 (Some "https://s3/part3"); XhrLoad 3 200 (Some "e3");
           CompleteResolved (Some "k")]) !! "video|a.mov"
  = None.
Proof.
  refine (proj1
    (completed_upload_leaves_no_record defaultOptions
       {| File.name := "a.mov"; File.size := 31457280; File.type := "video/quicktime" |}
       1 0 (new_instance ∅) (fresh_start (new_instance ∅))
       [CreateResolved {| resp_uploadId := Some "u"; resp_s3Filename := Some "k" |};
           SignResolved 1 (Some "https://s3/part1"); XhrLoad 1 200 (Some "e1");
           SignResolved 2 (Some "https://s3/part2"); XhrLoad 2 200 (Some "e2");
           SignResolved 3 (Some "https://s3/part3"); XhrLoad 3 200 (Some "e3");
           CompleteResolved (Some "k")] (Some "k") _ _));
    by vm_compute.
Defined.

Lemma throttle_enter_entered {K} `{EqDecision K} limit (k : K) (ks : list K) :
  Throttle.enter limit k (Throttle.entered limit ks)
  = (Throttle.entered limit (ks ++ [k]),
     if (length ks <? limit)%nat then Throttle.Launched else Throttle.Suspended).
Proof.
  unfold Throttle.enter, Throttle.entered. simpl. rewrite length_take.
  destruct (Nat.ltb_spec (length ks) limit) as [Hlt|Hge].
  - rewrite (proj2 (Nat.leb_gt _ _)) by lia.
    rewrite !take_ge, !drop_ge by (rewrite ?length_app; simpl; lia). done.
  - rewrite (proj2 (Nat.leb_le _ _)) by lia.
    rewrite bool_decide_eq_false_2.
    2:{ intros Hex. apply Exists_exists in Hex as (x & _ & Hx). by apply elem_of_nil in Hx. }
    by rewrite take_app_le, drop_app_le by lia.
Qed.

Lemma uploader_submit_entered o p s :
  throttle s = Throttle.entered (concurrencyLimit o) (promisesArr s) →
  throttle (submit o p s) = Throttle.entered (concurrencyLimit o) (promisesArr (submit o p s)).
Proof.
  intros Hth. unfold submit. rewrite Hth, throttle_enter_entered.
  by destruct (length (promisesArr s) <? concurrencyLimit o)%nat.
Qed.

Lemma uploader_loop_fold_entered o lookup l s :
  throttle s = Throttle.entered (concurrencyLimit o) (promisesArr s) →
  throttle (fold_left (loop_body o lookup) l s)
  = Throttle.entered (concurrencyLimit o) (promisesArr (fold_left (loop_body o lookup) l s)).
Proof.
  revert s. induction l as [|x l IH]; intros s Hth; simpl; [done|].
  apply IH. unfold loop_body. destruct (lookup !! (x + 1)); [done|].
  by apply uploader_submit_entered.
Qed.

(** [loopMultipartParts] leaves the first [concurrencyLimit] of the parts
    it submits called, and the others suspended. *)
Lemma uploader_loop_entered o n lookup s :
  throttle (loopMultipartParts o n lookup s)
  = Throttle.entered (concurrencyLimit o) (promisesArr (loopMultipartParts o n lookup s)).
Proof.
  unfold loopMultipartParts. apply uploader_loop_fold_entered. simpl.
  unfold Throttle.entered. by rewrite take_nil, drop_nil.
Qed.

Lemma uploader_then_all y :
  phase y = Uploading → all_fulfilled (promise_all_then y).
Proof.
  intros Hy. unfold all_fulfilled, promise_all_then. rewrite Hy.
  destruct (resolvedArr y) as [arr|] eqn:Harr; [|by left; left].
  right. intros p Hp.
  assert (Hin : p ∈ promisesArr y) by (by destruct (uploadPartsArray y)).
  destruct (uploader_resolvedArr_spec y arr Harr p Hin) as (r & Hr & _).
  exists r. by destruct (uploadPartsArray y).
Qed.

Lemma uploader_all_fulfilled_frame s s' :
  phase s' = phase s → promisesArr s' = promisesArr s → tasks s' = tasks s →
  all_fulfilled s → all_fulfilled s'.
Proof. unfold all_fulfilled. by intros -> -> ->. Qed.

Lemma uploader_all_fulfilled_fulfilled o p s :
  phase s = Uploading ∨ phase s = Failed ErrParts →
  all_fulfilled (task_fulfilled o p s).
Proof.
  intros Hp. unfold task_fulfilled. destruct (Throttle.fulfil _ _ _) as [th launched].
  match goal with |- context [promise_all_then ?y] =>
    assert (Hy : phase y = phase s)
      by (by destruct (uploader_launch_fold launched (set_throttle th s)) as (_ & -> & _));
    destruct Hp as [Hp|Hp]; [apply uploader_then_all; by rewrite Hy|];
    destruct (uploader_then_phase y) as [Hy'|[Hy' _]]; [|congruence];
    left; right; by rewrite Hy', Hy end.
Qed.

Lemma uploader_all_fulfilled_rejected p s :
  phase s = Uploading ∨ phase s = Failed ErrParts →
  all_fulfilled (task_rejected p s).
Proof.
  intros Hp. left.
  destruct (uploader_task_rejected_phase p s) as [-> | ->]; [done|by right].
Qed.

Lemma uploader_all_fulfilled_step o f s i :
  invariant f s → all_fulfilled s → all_fulfilled (step o f s i).
Proof.
  intros Hi Hall.
  assert (Hdec : (phase s = Uploading ∨ phase s = Failed ErrParts)
                 ∨ ¬ (phase s = Uploading ∨ phase s = Failed ErrParts)).
  { destruct (phase s) as [| |ps|k|[]]; (by left; auto) || (right; by intros [?|?]). }
  destruct Hdec as [Hp|Hp].
  - destruct i as [r| |p url|p|p loaded total|p status etag|p|k|]; simpl.
    + destruct Hp as [Hp|Hp]; rewrite Hp; by left; auto.
    + destruct Hp as [Hp|Hp]; rewrite Hp; by left; auto.
    + destruct (tasks s !! p) as [[]|]; try done. by left.
    + destruct (tasks s !! p) as [[]|]; try done.
      by apply uploader_all_fulfilled_rejected.
    + destruct (tasks s !! p) as [[]|]; try done. left.
      unfold onprogress. by repeat case_match.
    + destruct (tasks s !! p) as [[]|]; try done. unfold onload.
      destruct ((200 <=? status) && (status <? 300)).
      * apply uploader_all_fulfilled_fulfilled. by repeat case_match.
      * by apply uploader_all_fulfilled_rejected.
    + destruct (tasks s !! p) as [[]|]; try done.
      by apply uploader_all_fulfilled_rejected.
    + destruct Hp as [Hp|Hp]; rewrite Hp; by left; auto.
    + destruct Hp as [Hp|Hp]; rewrite Hp; by left; auto.
  - destruct Hall as [?|Hall]; [done|].
    destruct (inv_settled _ _ Hi) as [?|Hset]; [done|].
    destruct i as [r| |p url|p|p loaded total|p status etag|p|k|]; simpl;
      try (destruct (tasks s !! p) as [t|] eqn:Ht; [|by right];
           destruct (Hset p t Ht) as [r ->]; by right).
    + destruct (phase s) eqn:Hph; try (by right); by destruct (inv_phase _ _ Hi).
    + destruct (phase s) eqn:Hph; try (by right); by destruct (inv_phase _ _ Hi).
    + destruct (phase s) eqn:Hph; by right.
    + destruct (phase s) eqn:Hph; by right.
Qed.

Lemma uploader_all_fulfilled_run o f inputs s :
  invariant f s → all_fulfilled s → all_fulfilled (run o f s inputs).
Proof.
  revert s. induction inputs as [|i inputs IH]; intros s Hi Hall; simpl; [done|].
  apply IH; [by apply uploader_invariant_step|by apply uploader_all_fulfilled_step].
Qed.


Lemma uploader_filter_empty_lookup (l : list Z) :
  filter (λ p, (∅ : gmap Z UploadPartResponse) !! p = None) l = l.
Proof.
  induction l as [|x l IH]; [done|].
  rewrite filter_cons_True by apply lookup_empty. by rewrite IH.
Qed.

(** after the create call has answered with both identifiers *)
Lemma uploader_create_then_parts o f r s :
  truthy_str (resp_uploadId r) = true →
  truthy_str (resp_s3Filename r) = true →
  let s' := create_then o f r s in
  promisesArr s' = seqZ 1 (Planner.numParts o f)
  ∧ loopTotalParts s' = Planner.numParts o f
  ∧ throttle s' = Throttle.entered (concurrencyLimit o) (seqZ 1 (Planner.numParts o f))
  ∧ uploadInProgress s' = uploadInProgress s
  ∧ partsUploadProgress s' = ∅
  ∧ all_fulfilled s'.
Proof.
  intros Hu Hs3. unfold create_then. rewrite Hu, Hs3. simpl negb. simpl orb.
  cbv iota zeta.
  match goal with |- context [promise_all_then ?y] =>
    pose proof (uploader_then_all y eq_refl) as Hall;
    destruct (uploader_promise_all_then_frame y)
      as (_ & -> & _ & -> & _ & -> & _ & -> & -> & _) end.
  simpl.
  match goal with |- context [loopMultipartParts o ?n ?l ?x] =>
    pose proof (uploader_loop_entered o n l x) as Hth;
    destruct (uploader_loop_frame o n l x) as (_ & _ & Hip & _ & Hn & _ & Hpr) end.
  rewrite uploader_filter_empty_lookup in Hpr.
  rewrite Hth, Hpr, Hn, Hip. split_and!; try done.
  unfold loopMultipartParts. rewrite decide_True by done.
  match goal with |- context [fold_left _ ?l ?x] =>
    by destruct (uploader_loop_fold_frame o ∅ l x) as (_ & -> & _) end.
Qed.

Lemma uploader_before_parts_step_parts o f s i :
  before_parts s →
  before_parts (step o f s i)
  ∨ (invariant f (step o f s i) ∧ uploadPartsArray (step o f s i) = None
     ∧ promisesArr (step o f s i) = seqZ 1 (Planner.numParts o f)
     ∧ loopTotalParts (step o f s i) = Planner.numParts o f
     ∧ all_fulfilled (step o f s i)
     ∧ partsUploadProgress (step o f s i) = ∅).
Proof.
  intros Hb. pose proof Hb as (Ht & Hupa & Hthr & Hp).
  destruct i as [r| |p url|p|p loaded total|p status etag|p|k|]; simpl;
    rewrite ?Ht, ?lookup_empty; try (by left).
  - destruct (phase s) eqn:Hph; try (by left). clear Hp.
    destruct (truthy_str (resp_uploadId r)) eqn:Hu;
      [destruct (truthy_str (resp_s3Filename r)) eqn:Hs3|].
    + right. destruct (uploader_invariant_create o f r s Hph Hupa Hu Hs3) as [Hi Hn].
      by destruct (uploader_create_then_parts o f r s Hu Hs3)
        as (-> & -> & _ & _ & -> & ?).
    + left. unfold create_then. rewrite Hs3. simpl.
      split_and!; try done. right; by right.
    + left. unfold create_then. rewrite Hu, orb_true_r. simpl.
      split_and!; try done. right; by right.
  - destruct (phase s) eqn:Hph; try (by left).
    left. unfold create_catch. simpl. split_and!; try done. right; by left.
  - destruct (phase s) eqn:Hph; try (by left).
    destruct Hp as [?|[?|?]]; congruence.
  - destruct (phase s) eqn:Hph; try (by left).
    destruct Hp as [?|[?|?]]; congruence.
Qed.

Lemma uploader_create_flow_parts o f inputs s :
  before_parts s →
  before_parts (run o f s inputs)
  ∨ (invariant f (run o f s inputs) ∧ uploadPartsArray (run o f s inputs) = None
     ∧ promisesArr (run o f s inputs) = seqZ 1 (Planner.numParts o f)
     ∧ loopTotalParts (run o f s inputs) = Planner.numParts o f
     ∧ all_fulfilled (run o f s inputs)).
Proof.
  revert s. induction inputs as [|i inputs IH]; intros s Hb; simpl; [by left|].
  destruct (uploader_before_parts_step_parts o f s i Hb)
    as [Hb'|(Hi & Hu & Hp & Hn & Hall & _)]; [by apply IH|].
  right. split; [by apply uploader_invariant_run|].
  destruct (uploader_run_parts o f inputs _ Hi) as (-> & -> & ->).
  split_and!; try done. by apply uploader_all_fulfilled_run.
Qed.

Lemma uploader_start_before o f fuel i s0 :
  uploadMultipart o f fuel i = Some s0 → phase s0 = Creating → before_parts s0.
Proof.
  intros Hs0 Hp0.
  destruct (uploader_start_cases o f fuel i s0 Hs0)
    as [->|[->|(localRecord & ps & _ & _ & _ & Hs)]];
    [apply uploader_fresh_start_before..|].
  by destruct (uploader_resume_phase o f localRecord i s0 Hs).
Qed.

(** X8: the complete call gets every part of the upload.  In the create
    flow its parts are numbered exactly 1, 2, ..., [numParts], in this
    order; in the resume flow every number from 1 to the [totalParts] of
    the record is among its parts. *)
Theorem complete_receives_every_part (o : Options) (f : File) (fuel : nat) (i : Instance)
    (s0 : State) (inputs : list Input) (parts : list UploadPartResponse) :
  uploadMultipart o f fuel i = Some s0 →
  phase (run o f s0 inputs) = Completing parts →
  (phase s0 = Creating → PartNumber <$> parts = seqZ 1 (Planner.numParts o f))
  ∧ (∀ localRecord p,
       phase s0 ≠ Creating →
       i_localStorage i !! key f = Some localRecord →
       1 <= p <= default 0 (totalParts localRecord) →
       p ∈ PartNumber <$> parts).
Proof.
  intros Hs0 Hc. split.
  - intros Hp0.
    destruct (uploader_create_flow_parts o f inputs s0 (uploader_start_before _ _ _ _ _ Hs0 Hp0))
      as [(_ & _ & _ & Hph)|(Hi & Hu & Hp & _)].
    { rewrite Hc in Hph. by destruct Hph as [?|[?|?]]. }
    destruct (inv_completing _ _ Hi parts Hc) as (arr & Harr & ->).
    by rewrite Hu, Harr.
  - intros localRecord p Hp0 Hrec Hp.
    destruct (uploader_reachable o f fuel i s0 inputs Hs0)
      as [[? _]|(_ & Hi & localRecord' & ps & Hrec' & Hps & Hu & Hpr)]; [done|].
    rewrite Hrec in Hrec'. injection Hrec' as <-.
    destruct (inv_completing _ _ Hi parts Hc) as (arr & Harr & ->).
    rewrite Hu. rewrite (fmap_Permutation _ _ _ (uploader_sort_perm _)).
    rewrite fmap_app, elem_of_app, Harr, Hpr.
    destruct (decide (p ∈ PartNumber <$> Util.cleanUpETags ps)) as [Hin|Hout]; [by left|].
    right. apply list_elem_of_filter. split; [done|].
    apply elem_of_seqZ. lia.
Qed.

Lemma complete_receives_every_part_witness :
  PartNumber <$> [ {| ETag := Some "e1"; PartNumber := 1 |};
                   {| ETag := Some "e3"; PartNumber := 2 |};
                   {| ETag := Some "e2"; PartNumber := 3 |} ]
  = seqZ 1 (Planner.numParts defaultOptions
              {| File.name := "a.mov"; File.size := 31457280; File.type := "video/quicktime" |}).
Proof.
  refine (proj1
    (complete_receives_every_part defaultOptions
       {| File.name := "a.mov"; File.size := 31457280; File.type := "video/quicktime" |}
       1 (new_instance ∅) (fresh_start (new_instance ∅))
       [CreateResolved {| resp_uploadId := Some "u"; resp_s3Filename := Some "k" |};
        SignResolved 1 (Some "https://s3/part1"); SignResolved 3 (Some "https://s3/part3");
        SignResolved 2 (Some "https://s3/part2"); XhrLoad 3 200 (Some "e2");
        XhrLoad 1 200 (Some "e1"); XhrLoad 2 200 (Some "e3")]
       _ _ _) _);
    by vm_compute.
Defined.

Lemma uploader_loop_tasks o n lookup s p t :
  tasks (loopMultipartParts o n lookup s) !! p = Some t → t = Signing.
Proof.
  intros Ht.
  assert (Htasks :
    (∀ p t, tasks (loopMultipartParts o n lookup s) !! p = Some t →
       t = Signing ∧ p ∈ promisesArr (loopMultipartParts o n lookup s))
    ∧ (∀ p, p ∈ Throttle.waiting (throttle (loopMultipartParts o n lookup s)) →
         p ∈ promisesArr (loopMultipartParts o n lookup s))).
  { unfold loopMultipartParts. apply uploader_loop_fold_tasks.
    - intros q t'. simpl. by rewrite lookup_empty.
    - intros q Hq. simpl in Hq. by apply elem_of_nil in Hq. }
  by destruct (proj1 Htasks p t Ht).
Qed.

(** X9: when the create call answers with both identifiers, the call
    submits the parts 1, ..., [numParts] in this order; the first
    [concurrencyLimit] of them start at once (their [uploadPartStarted]
    follows [uploadCreated] in the log), the others are suspended in the
    throttle.  The call then awaits the parts, except for an empty file:
    no part is submitted and the complete call is made at once with an
    empty list of parts. *)
Theorem create_flow_starts_first_parts (o : Options) (f : File) (fuel : nat) (i : Instance)
    (s0 : State) (inputs : list Input) (r : CreateMultipartUploadResponse) :
  uploadMultipart o f fuel i = Some s0 →
  phase (run o f s0 inputs) = Creating →
  truthy_str (resp_uploadId r) = true →
  truthy_str (resp_s3Filename r) = true →
  let s := run o f s0 inputs in
  let s' := step o f s (CreateResolved r) in
  let parts := seqZ 1 (Planner.numParts o f) in
  promisesArr s' = parts
  ∧ throttle s' = Throttle.entered (concurrencyLimit o) parts
  ∧ emitted s'
    = emitted s ++ uploadCreated (resp_uploadId r) (resp_s3Filename r)
        :: (uploadPartStarted <$> take (concurrencyLimit o) parts)
  ∧ phase s' = if Planner.numParts o f <=? 0 then Completing [] else Uploading.
Proof.
  intros Hs0 Hp Hu Hs3. cbv zeta. set (s := run o f s0 inputs) in *.
  set (parts := seqZ 1 (Planner.numParts o f)). simpl. rewrite Hp.
  destruct (uploader_create_then_parts o f r s Hu Hs3) as (Hpr & _ & Hth & _).
  destruct (uploader_create_then_emitted o f r s) as (_ & [(Hf & _)|(_ & _ & He)]).
  { exfalso. unfold create_then in Hf. rewrite Hu, Hs3 in Hf. simpl in Hf.
    match type of Hf with context [promise_all_then ?y] =>
      destruct (uploader_then_phase y) as [Hy|[_ [ps Hy]]]; rewrite Hy in Hf; done end. }
  rewrite He, Hth, Hpr. split_and!; try done.
  assert (Hupa : uploadPartsArray s = None).
  { destruct (uploader_reachable o f fuel i s0 inputs Hs0)
      as [(_ & [(_ & ? & _)|[Hi _]])|(_ & Hi & _)]; [done|..];
      by destruct (inv_phase _ _ Hi). }
  unfold create_then in *. rewrite Hu, Hs3 in *. simpl negb in *. simpl orb in *.
  cbv iota zeta in *.
  match goal with |- context [promise_all_then ?y] => set (y0 := y) in * end.
  destruct (uploader_promise_all_then_frame y0)
    as (_ & _ & _ & _ & _ & _ & _ & Hpr' & _ & _).
  rewrite Hpr' in Hpr.
  assert (Hupa' : uploadPartsArray y0 = None).
  { unfold y0. simpl.
    match goal with |- context [loopMultipartParts o ?n ?l ?x] =>
      by destruct (uploader_loop_frame o n l x) as (_ & _ & _ & _ & _ & -> & _) end. }
  unfold promise_all_then. change (phase y0) with Uploading. cbv iota.
  destruct (Z.leb_spec (Planner.numParts o f) 0) as [Hn|Hn].
  - rewrite Hupa'. unfold resolvedArr. rewrite Hpr. unfold parts, seqZ.
    by rewrite Z2Nat.nonpos by done.
  - destruct (resolvedArr y0) as [arr|] eqn:Harr; [exfalso|done].
    destruct (uploader_resolvedArr_spec y0 arr Harr 1) as (x & Hx & _).
    { rewrite Hpr. apply elem_of_seqZ. lia. }
    unfold y0 in Hx. simpl in Hx. by apply uploader_loop_tasks in Hx.
Qed.

Lemma create_flow_starts_first_parts_witness :
  promisesArr
    (step defaultOptions
       {| File.name := "a.mov"; File.size := 31457280; File.type := "video/quicktime" |}
       (run defaultOptions
          {| File.name := "a.mov"; File.size := 31457280; File.type := "video/quicktime" |}
          (fresh_start (new_instance ∅)) [])
       (CreateResolved {| resp_uploadId := Some "u"; resp_s3Filename := Some "k" |}))
  = seqZ 1 (Planner.numParts defaultOptions
              {| File.name := "a.mov"; File.size := 31457280; File.type := "video/quicktime" |}).
Proof.
  refine (proj1
    (create_flow_starts_first_parts defaultOptions
       {| File.name := "a.mov"; File.size := 31457280; File.type := "video/quicktime" |}
       1 (new_instance ∅) (fresh_start (new_instance ∅)) []
       {| resp_uploadId := Some "u"; resp_s3Filename := Some "k" |} _ _ _ _));
    by vm_compute.
Defined.


(** X10: when every part of a fresh upload has been stored with an ETag
    and the complete call fails, the record stays; calling [uploadMultipart]
    again for the file resumes from it, submits no part at all and makes the
    complete call at once, with a list that holds every part number. *)
Theorem retry_after_failed_complete (o : Options) (f : File) (fuel fuel' : nat)
    (i : Instance) (s0 : State) (inputs : list Input) :
  uploadMultipart o f fuel i = Some s0 →
  phase s0 = Creating →
  File.size f ≠ 0%N →
  phase (run o f s0 inputs) = Failed ErrComplete →
  (∀ p r, tasks (run o f s0 inputs) !! p = Some (Fulfilled r) →
          truthy_str (ETag r) = true) →
  ∃ s1 parts,
    uploadMultipart o f (S fuel') (instance (run o f s0 inputs)) = Some s1
    ∧ promisesArr s1 = []
    ∧ phase s1 = Completing parts
    ∧ (∀ p, 1 <= p <= Planner.numParts o f → p ∈ PartNumber <$> parts)
    ∧ uploadPartStarted_values (emitted s1)
      = uploadPartStarted_values (emitted (run o f s0 inputs)).
Proof.
  intros Hs0 Hp0 Hsize Hph Htag.
  pose proof (planner_numParts_pos o f Hsize) as Hn.
  destruct (uploader_create_flow_parts o f inputs s0 (uploader_start_before _ _ _ _ _ Hs0 Hp0))
    as [(_ & _ & _ & Hb)|(Hi & Hu & Hpr & Htot & Hall)].
  { rewrite Hph in Hb. by destruct Hb as [?|[?|?]]. }
  set (s := run o f s0 inputs) in *.
  destruct Hall as [[?|?]|Hall]; [congruence..|].
  destruct (inv_record _ _ Hi) as [[k ?]|(localRecord & parts & Hrec & Hparts & Hid & Hs3
                                           & Htp & (q & Hq & Hq0) & Hin)]; [congruence|].
  assert (Hcov : ∀ p, 1 <= p <= Planner.numParts o f →
            p ∈ PartNumber <$> Util.cleanUpETags parts).
  { intros p Hp. destruct (Hall p) as [r Hr]; [rewrite Hpr; apply elem_of_seqZ; lia|].
    apply list_elem_of_fmap. exists r. split; [by rewrite (inv_fulfilled _ _ Hi p r Hr)|].
    apply uploader_cleanUpETags_elem; [by apply (Hin p)|by apply (Htag p)]. }
  assert (Hcomplete : isCompleteLocalRecord localRecord (Util.cleanUpETags parts) = true).
  { unfold isCompleteLocalRecord. rewrite Hid, Hs3, Htp, Hq, Hq0, Htot. simpl.
    rewrite andb_true_r. apply andb_true_intro. split; [|by apply Z.ltb_lt; lia].
    apply Nat.ltb_lt. specialize (Hcov 1 ltac:(lia)).
    destruct (PartNumber <$> Util.cleanUpETags parts) eqn:He; [by apply elem_of_nil in Hcov|].
    destruct (Util.cleanUpETags parts); [done|simpl; lia]. }
  pose proof (uploader_start_resume o f fuel' (instance s) localRecord parts Hrec Hparts Hcomplete)
    as Hstart.
  destruct (uploadUnfinishedMultipart o f (λ _, None) localRecord (enter_call (instance s)))
    as [s1|] eqn:Hs1.
  2:{ unfold uploadUnfinishedMultipart in Hs1. rewrite Hparts in Hs1.
      simpl default in Hs1. by rewrite Hcomplete in Hs1. }
  destruct (uploader_invariant_resume o f localRecord parts (instance s) s1 Hparts Hcomplete Hs1)
    as (Hi1 & Hu1 & Hpr1).
  assert (Hnone : promisesArr s1 = []).
  { rewrite Hpr1, Htp, Htot. simpl.
    match goal with |- ?l0 = [] => destruct l0 as [|x l] eqn:Hl; [done|exfalso] end.
    assert (Hx : x ∈ x :: l) by (apply elem_of_cons; by left).
    rewrite <- Hl in Hx. apply list_elem_of_filter in Hx as [Hx1 Hx2].
    apply elem_of_seqZ in Hx2. apply Hx1, Hcov. lia. }
  exists s1, (sort (Util.cleanUpETags parts ++ [])).
  split; [by rewrite Hstart|]. split; [done|].
  unfold uploadUnfinishedMultipart in Hs1. rewrite Hparts in Hs1.
  simpl default in Hs1. rewrite Hcomplete in Hs1. simpl negb in Hs1. cbv iota zeta in Hs1.
  injection Hs1 as Hs1.
  match type of Hs1 with promise_all_then ?y = _ => set (y0 := y) in * end.
  destruct (uploader_promise_all_then_frame y0)
    as (_ & _ & _ & _ & He & _ & Hu0 & Hpr0 & _ & _).
  rewrite Hs1 in He, Hu0, Hpr0.
  split_and!.
  - rewrite <- Hs1. unfold promise_all_then. change (phase y0) with Uploading. cbv iota.
    unfold resolvedArr. by rewrite <- Hpr0, Hnone, <- Hu0, Hu1.
  - intros p Hp. rewrite (fmap_Permutation _ _ _ (uploader_sort_perm _)), app_nil_r.
    by apply Hcov.
  - rewrite He. unfold y0. simpl.
    match goal with |- context [loopMultipartParts o ?n ?l ?x] =>
      destruct (uploader_loop_emitted o n l x) as (-> & _ & _);
      pose proof (uploader_loop_entered o n l x) as Hth end.
    simpl. rewrite !uploader_started_app, uploader_started_fmap. simpl.
    rewrite Hth. unfold Throttle.entered. simpl.
    match goal with |- context [promisesArr ?z] =>
      replace (promisesArr z) with (promisesArr y0) by done end.
    by rewrite <- Hpr0, Hnone, take_nil, !app_nil_r.
Qed.

Lemma retry_after_failed_complete_witness :
  ∃ s1 parts,
    uploadMultipart defaultOptions
      {| File.name := "a.mov"; File.size := 31457280; File.type := "video/quicktime" |} 1
      (instance
         (run defaultOptions
            {| File.name := "a.mov"; File.size := 31457280; File.type := "video/quicktime" |}
            (fresh_start (new_instance ∅))
            [CreateResolved {| resp_uploadId := Some "u"; resp_s3Filename := Some "k" |};
           SignResolved 1 (Some "https://s3/part1"); XhrLoad 1 200 (Some "e1");
           SignResolved 2 (Some "https://s3/part2"); XhrLoad 2 200 (Some "e2");
           SignResolved 3 (Some "https://s3/part3"); XhrLoad 3 200 (Some "e3");
           CompleteRejected])) = Some s1
    ∧ promisesArr s1 = []
    ∧ phase s1 = Completing parts
    ∧ (∀ p, 1 <= p <= Planner.numParts defaultOptions
                        {| File.name := "a.mov"; File.size := 31457280; File.type := "video/quicktime" |} →
            p ∈ PartNumber <$> parts)
    ∧ uploadPartStarted_values (emitted s1)
      = uploadPartStarted_values
          (emitted
             (run defaultOptions
                {| File.name := "a.mov"; File.size := 31457280; File.type := "video/quicktime" |}
                (fresh_start (new_instance ∅))
                [CreateResolved {| resp_uploadId := Some "u"; resp_s3Filename := Some "k" |};
           SignResolved 1 (Some "https://s3/part1"); XhrLoad 1 200 (Some "e1");
           SignResolved 2 (Some "https://s3/part2"); XhrLoad 2 200 (Some "e2");
           SignResolved 3 (Some "https://s3/part3"); XhrLoad 3 200 (Some "e3");
           CompleteRejected])).
Proof.
  refine (retry_after_failed_complete defaultOptions
     {| File.name := "a.mov"; File.size := 31457280; File.type := "video/quicktime" |}
     1 0 (new_instance ∅) (fresh_start (new_instance ∅))
     [CreateResolved {| resp_uploadId := Some "u"; resp_s3Filename := Some "k" |};
           SignResolved 1 (Some "https://s3/part1"); XhrLoad 1 200 (Some "e1");
           SignResolved 2 (Some "https://s3/part2"); XhrLoad 2 200 (Some "e2");
           SignResolved 3 (Some "https://s3/part3"); XhrLoad 3 200 (Some "e3");
           CompleteRejected] _ _ _ _ _); try (by vm_compute).
  intros p r Hr. apply Is_true_true.
  refine (map_Forall_lookup_1
    (λ _ t, Is_true match t with Fulfilled x => truthy_str (ETag x) | _ => true end)
    _ p (Fulfilled r) _ Hr).
  refine (bool_decide_unpack _ _). by vm_compute.
Defined.

(** X4: the parts a call announces on [uploadPartStarted] are the ones
    whose factory the throttle has called, in the order of the calls; they
    are announced in strictly ascending order of part number, so none is
    announced twice, and each is a part the call has submitted. *)
Theorem parts_start_in_ascending_order (o : Options) (f : File) (fuel : nat) (i : Instance)
    (s0 : State) (inputs : list Input) :
  uploadMultipart o f fuel i = Some s0 →
  uploadPartStarted_values (emitted (run o f s0 inputs))
  = uploadPartStarted_values (i_emitted i) ++ Throttle.invoked (throttle (run o f s0 inputs))
  ∧ StronglySorted Z.lt (Throttle.invoked (throttle (run o f s0 inputs)))
  ∧ (∀ p, p ∈ Throttle.invoked (throttle (run o f s0 inputs)) →
          p ∈ promisesArr (run o f s0 inputs)).
Proof.
  intros Hs0. split; [by apply (uploader_run_started o f fuel)|].
  destruct (uploader_throttled_run o f inputs s0 (uploader_throttled_start o f fuel i s0 Hs0))
    as [_ Hsorted Hknown].
  split; [by apply StronglySorted_app_1_l in Hsorted|].
  intros p Hp. apply Hknown, elem_of_app. by left.
Qed.

Lemma parts_start_in_ascending_order_witness :
  uploadPartStarted_values
    (emitted
       (run defaultOptions
          {| File.name := "a.mov"; File.size := 31457280; File.type := "video/quicktime" |}
          (fresh_start (new_instance ∅))
          [CreateResolved {| resp_uploadId := Some "u"; resp_s3Filename := Some "k" |};
           SignResolved 2 (Some "https://s3/part2"); XhrLoad 2 200 (Some "e2")]))
  = [1; 2; 3].
Proof.
  refine (eq_trans (proj1
    (parts_start_in_ascending_order defaultOptions
       {| File.name := "a.mov"; File.size := 31457280; File.type := "video/quicktime" |}
       1 (new_instance ∅) (fresh_start (new_instance ∅))
       [CreateResolved {| resp_uploadId := Some "u"; resp_s3Filename := Some "k" |};
        SignResolved 2 (Some "https://s3/part2"); XhrLoad 2 200 (Some "e2")] _)) _);
    by vm_compute.
Defined.

(** ** Percentages stay within 100 *)















(** ** Option objects *)

Import Shared.

Lemma shared_deepMerge_fields fields target h :
  deepMerge (LObject fields) target h = merge_fields fields target h.
Proof.
  revert h. induction fields as [|[key v] rest IH]; intros h; [done|].
  simpl in *. unfold merge_field.
  destruct (bool_decide (key ∈ inherited)); [done|].
  destruct v as [| | | | | | |inner]; simpl; try apply IH.
  destruct (get h target key) as [current|l].
  - destruct (truthy current).
    + destruct inner; [apply IH|done].
    + match goal with |- context [mbind _ ?x] => destruct x as [h'|] end; [apply IH|done].
  - match goal with |- context [mbind _ ?x] => destruct x as [h'|] end; [apply IH|done].
Qed.

Lemma shared_merge_fields_plain fields target h :
  Forall plain fields → merge_fields fields target h = Some (assign fields target h).
Proof.
  intros Hplain. revert h. induction Hplain as [|[key v] rest [Hkey Hv] _ IH]; intros h; [done|].
  simpl in *. unfold merge_field. rewrite bool_decide_eq_false_2 by done.
  destruct v; try done; simpl; apply IH.
Qed.

(** X16: [deepMerge] changes its target in place and returns it.  A
    source whose properties are not plain objects is copied onto the
    target like [Object.assign], later keys over earlier ones; a nested
    plain object is merged into the object the target already holds under
    that key, which stays the same object (whoever else holds it sees the
    change); where the target holds nothing truthy under the key, a new
    object is made and filled, so the source's own nested object is never
    shared; an empty source changes nothing. *)
Theorem deepMerge_merges_in_place (target : loc) (h : heap) :
  (∀ fields, Forall plain fields →
     deepMerge (LObject fields) target h = Some (assign fields target h))
  ∧ (∀ key inner l,
       key ∉ inherited → Forall plain inner → get h target key = Ref l →
       deepMerge (LObject [(key, LObject inner)]) target h
       = Some (set target key (Ref l) (assign inner l h)))
  ∧ (∀ key inner,
       key ∉ inherited → Forall plain inner → truthy_value (get h target key) = false →
       deepMerge (LObject [(key, LObject inner)]) target h
       = Some (set target key (Ref (alloc h)) (assign inner (alloc h) (<[alloc h := ∅]> h)))
         ∧ h !! alloc h = None)
  ∧ deepMerge (LObject []) target h = Some h.
Proof.
  split_and!.
  - intros fields Hplain. rewrite shared_deepMerge_fields.
    by apply shared_merge_fields_plain.
  - intros key inner l Hkey Hplain Hget.
    rewrite shared_deepMerge_fields. simpl. unfold merge_field.
    rewrite bool_decide_eq_false_2, Hget, shared_deepMerge_fields by done.
    by rewrite shared_merge_fields_plain.
  - intros key inner Hkey Hplain Hget. split.
    + rewrite shared_deepMerge_fields. simpl. unfold merge_field.
      rewrite bool_decide_eq_false_2 by done.
      destruct (get h target key) as [current|l]; [|done]. simpl in Hget. rewrite Hget.
      rewrite shared_deepMerge_fields. by rewrite shared_merge_fields_plain.
    + unfold alloc. pose proof (is_fresh (dom h)) as Hf. by apply not_elem_of_dom in Hf.
  - done.
Qed.

(** the case of [tests/shared/util.test.ts] *)
Example deepMerge_unit_test :
  deepMerge
    (LObject [("foo", LObject [("two", LNumber 2); ("three", LNumber 3)]);
              ("bar", LString "zoo")])
    1%positive
    {[ 1%positive := {[ "foo" := Ref 2%positive ]};
       2%positive := {[ "one" := Leaf (LNumber 1) ]} ]}
  = Some {[ 1%positive := {[ "foo" := Ref 2%positive; "bar" := Leaf (LString "zoo") ]};
            2%positive := {[ "one" := Leaf (LNumber 1); "two" := Leaf (LNumber 2);
                             "three" := Leaf (LNumber 3) ]} ]}.
Proof. by vm_compute. Qed.




(** ** The constructors and the backend *)

Lemma client_constructor_defaults c e limit :
  match Client.constructor
          (LObject [("serverConfig", LObject [("endpoint", LString (String c e))]);
                    ("concurrencyLimit", LNumber limit)]) Client.module_heap with
  | Some (Util.Normal (h', this)) =>
      this = Shared.alloc Client.module_heap
      ∧ Client.endpoint h' this = Leaf (LString (String c e))
      ∧ get h' this "concurrencyLimit" = Leaf (LNumber limit)
      ∧ get h' this "partMinSizeBytes" = Leaf (LNumber 10485760)
      ∧ get h' this "maxNumParts" = Leaf (LNumber 96)
      ∧ get h' this "debugMode" = Leaf (LBoolean false)
      ∧ get h' Client.serverConfig "namespace" = Leaf (LString "multipart")
  | _ => False
  end.
Proof. by vm_compute. Qed.

(** X18: [new MultipartUploader(options)] returns only with a truthy
    [serverConfig.endpoint].  In a freshly loaded module it throws the
    [endpoint required] error when the options give none (no options, no
    [serverConfig], an empty endpoint), and a [TypeError] when
    [serverConfig] is [null]; with an endpoint it returns, the options it
    was given override the defaults and the other defaults are in place. *)
Theorem constructor_requires_endpoint :
  (∀ options h h' this,
     Client.constructor options h = Some (Util.Normal (h', this)) →
     truthy_value (Client.endpoint h' this) = true)
  ∧ (∀ options,
       options = LUndefined ∨ options = LObject []
       ∨ options = LObject [("serverConfig", LObject [])]
       ∨ options = LObject [("serverConfig", LObject [("endpoint", LString "")])]
       ∨ options = LObject [("concurrencyLimit", LNumber 2)] →
       Client.constructor options Client.module_heap
       = Some (Util.Throw (Client.new_Error
                 "endpoint required in the serverConfig constructor options. Not found")))
  ∧ Client.constructor (LObject [("serverConfig", LNull)]) Client.module_heap
    = Some (Util.Throw "TypeError")
  ∧ (∀ e limit, e ≠ "" →
       ∃ h' this,
         Client.constructor
           (LObject [("serverConfig", LObject [("endpoint", LString e)]);
                     ("concurrencyLimit", LNumber limit)]) Client.module_heap
         = Some (Util.Normal (h', this))
         ∧ Client.endpoint h' this = Leaf (LString e)
         ∧ get h' this "concurrencyLimit" = Leaf (LNumber limit)
         ∧ get h' this "partMinSizeBytes" = Leaf (LNumber 10485760)
         ∧ get h' this "maxNumParts" = Leaf (LNumber 96)
         ∧ get h' this "debugMode" = Leaf (LBoolean false)
         ∧ get h' Client.serverConfig "namespace" = Leaf (LString "multipart")).
Proof.
  split_and!.
  - intros options h h' this. unfold Client.constructor, Client.endpoint.
    destruct (deepMerge _ _ _) as [h1|]; [|done]. simpl.
    destruct (get h1 (alloc h) "serverConfig") as [[]|config] eqn:Hget; try done.
    destruct (truthy_value (get h1 config "endpoint")) eqn:He; [|done].
    intros [= <- <-]. by rewrite Hget.
  - intros options [->|[->|[->|[->| ->]]]]; by vm_compute.
  - by vm_compute.
  - intros e limit He. destruct e as [|c e]; [done|].
    pose proof (client_constructor_defaults c e limit) as H.
    destruct (Client.constructor _ _) as [[[h' this]|]|]; try done.
    exists h', this. split; [done|]. tauto.
Qed.

Lemma client_constructor_shared c1 e1 a c2 e2 :
  match Client.constructor
          (LObject [("serverConfig",
                     LObject [("endpoint", LString (String c1 e1));
                              ("headers", LObject [("Authorization", LString a)])])])
          Client.module_heap with
  | Some (Util.Normal (h1, first)) =>
      Client.endpoint h1 first = Leaf (LString (String c1 e1))
      ∧ get h1 Client.serverConfig "endpoint" = Leaf (LString (String c1 e1))
      ∧ get h1 Client.headers "Authorization" = Leaf (LString a)
      ∧ match Client.constructor
                (LObject [("serverConfig", LObject [("endpoint", LString (String c2 e2))])])
                h1 with
        | Some (Util.Normal (h2, second)) =>
            first ≠ second
            ∧ Client.endpoint h2 second = Leaf (LString (String c2 e2))
            ∧ Client.endpoint h2 first = Leaf (LString (String c2 e2))
            ∧ Client.header h2 second "Authorization" = Leaf (LString a)
        | _ => False
        end
      ∧ match Client.constructor (LObject []) h1 with
        | Some (Util.Normal (h3, third)) =>
            Client.endpoint h3 third = Leaf (LString (String c1 e1))
        | _ => False
        end
  | _ => False
  end.
Proof. by vm_compute. Qed.

(** X19: every instance's [options.serverConfig] is the one object of
    the module's [defaultOptions], which the constructor's [deepMerge]
    writes into.  So after a first instance was made with endpoint [e1]
    and an [Authorization] header, a second instance made with endpoint
    [e2] is a different object, but the first instance now reads [e2] as
    its endpoint, the second one reads the first one's header, and a
    constructor call without any endpoint no longer throws: it gets [e1]. *)
Theorem instances_share_serverConfig (e1 a e2 : string) :
  e1 ≠ "" → e2 ≠ "" →
  ∃ h1 first h2 second,
    Client.constructor
      (LObject [("serverConfig",
                 LObject [("endpoint", LString e1);
                          ("headers", LObject [("Authorization", LString a)])])])
      Client.module_heap = Some (Util.Normal (h1, first))
    ∧ Client.endpoint h1 first = Leaf (LString e1)
    ∧ get h1 Client.serverConfig "endpoint" = Leaf (LString e1)
    ∧ get h1 Client.headers "Authorization" = Leaf (LString a)
    ∧ Client.constructor (LObject [("serverConfig", LObject [("endpoint", LString e2)])]) h1
      = Some (Util.Normal (h2, second))
    ∧ first ≠ second
    ∧ Client.endpoint h2 second = Leaf (LString e2)
    ∧ Client.endpoint h2 first = Leaf (LString e2)
    ∧ Client.header h2 second "Authorization" = Leaf (LString a)
    ∧ ∃ h3 third,
        Client.constructor (LObject []) h1 = Some (Util.Normal (h3, third))
        ∧ Client.endpoint h3 third = Leaf (LString e1).
Proof.
  intros H1 H2. destruct e1 as [|c1 e1]; [done|]. destruct e2 as [|c2 e2]; [done|].
  pose proof (client_constructor_shared c1 e1 a c2 e2) as H.
  destruct (Client.constructor _ Client.module_heap) as [[[h1 first]|]|]; try done.
  destruct H as (Ha & Hb & Hc & H & H3).
  match type of H with match ?x with _ => _ end =>
    destruct x as [[[h2 second]|]|] eqn:Hsecond; try done end.
  match type of H3 with match ?x with _ => _ end =>
    destruct x as [[[h3 third]|]|] eqn:Hthird; try done end.
  exists h1, first, h2, second.
  destruct H as (H4 & H5 & H6 & H7).
  repeat (split; [done|]). by exists h3, third.
Qed.

Lemma instances_share_serverConfig_witness :
  ∃ h1 first h2 second,
    Client.constructor
      (LObject [("serverConfig",
                 LObject [("endpoint", LString "https://a.example");
                          ("headers", LObject [("Authorization", LString "Bearer t")])])])
      Client.module_heap = Some (Util.Normal (h1, first))
    ∧ Client.endpoint h1 first = Leaf (LString "https://a.example")
    ∧ get h1 Client.serverConfig "endpoint" = Leaf (LString "https://a.example")
    ∧ get h1 Client.headers "Authorization" = Leaf (LString "Bearer t")
    ∧ Client.constructor
        (LObject [("serverConfig", LObject [("endpoint", LString "https://b.example")])]) h1
      = Some (Util.Normal (h2, second))
    ∧ first ≠ second
    ∧ Client.endpoint h2 second = Leaf (LString "https://b.example")
    ∧ Client.endpoint h2 first = Leaf (LString "https://b.example")
    ∧ Client.header h2 second "Authorization" = Leaf (LString "Bearer t")
    ∧ ∃ h3 third,
        Client.constructor (LObject []) h1 = Some (Util.Normal (h3, third))
        ∧ Client.endpoint h3 third = Leaf (LString "https://a.example").
Proof.
  refine (instances_share_serverConfig "https://a.example" "Bearer t" "https://b.example" _ _);
    done.
Defined.



Lemma server_constructor_shared c1 b1 c2 b2 :
  match Server.constructor (LObject [("awsConfig", LObject [("bucket", LString (String c1 b1))])])
          Server.module_heap with
  | Some (Util.Normal (h1, first)) =>
      get h1 (Server.this_awsConfig first) "bucket" = Leaf (LString (String c1 b1))
      ∧ get h1 (Server.this_awsConfig first) "signedUrlExpiration" = Leaf (LNumber 180)
      ∧ get h1 (Server.this_options first) "filenameGeneratorFn" = Leaf LNull
      ∧ match Server.constructor
                (LObject [("awsConfig", LObject [("bucket", LString (String c2 b2))])]) h1 with
        | Some (Util.Normal (h2, second)) =>
            Server.this_options first ≠ Server.this_options second
            ∧ Server.this_awsConfig second = Server.this_awsConfig first
            ∧ get h2 (Server.this_awsConfig first) "bucket" = Leaf (LString (String c2 b2))
            ∧ get h2 (Server.this_options first) "filenameGeneratorFn" = Leaf LNull
        | _ => False
        end
      ∧ match Server.constructor (LObject []) h1 with
        | Some (Util.Normal (h3, third)) =>
            get h3 (Server.this_awsConfig third) "bucket" = Leaf (LString (String c1 b1))
        | _ => False
        end
  | _ => False
  end.
Proof. by vm_compute. Qed.

(** X21: [new MultipartUploaderBackend(options)] throws the [bucket
    required] error in a freshly loaded module when the options give no
    bucket.  Every backend's [awsConfig] is the one object of the module's
    [defaultOptions]: after a second backend was made with bucket [b2],
    the first backend, made with [b1], sends its create command to [b2]
    (under a [randomUUID] key, no generator being set), and a constructor
    call without a bucket no longer throws. *)
Theorem backends_share_awsConfig (randomUUID : string)
    (call : value → Util.completion string)
    (send : Server.CreateMultipartUploadCommandInput → Util.completion (option string))
    (JSON_stringify : literal → string) (b1 b2 : string) :
  b1 ≠ "" → b2 ≠ "" →
  Server.constructor (LObject []) Server.module_heap
  = Some (Util.Throw (Server.new_Error
            "bucket required in the awsConfig constructor options. Not found"))
  ∧ ∃ h1 first h2 second,
      Server.constructor (LObject [("awsConfig", LObject [("bucket", LString b1)])])
        Server.module_heap = Some (Util.Normal (h1, first))
      ∧ get h1 (Server.this_awsConfig first) "bucket" = Leaf (LString b1)
      ∧ get h1 (Server.this_awsConfig first) "signedUrlExpiration" = Leaf (LNumber 180)
      ∧ Server.constructor (LObject [("awsConfig", LObject [("bucket", LString b2)])]) h1
        = Some (Util.Normal (h2, second))
      ∧ Server.this_options first ≠ Server.this_options second
      ∧ Server.this_awsConfig second = Server.this_awsConfig first
      ∧ (∀ metadata contentType r,
           Server.createMultipartUpload randomUUID call send JSON_stringify h2 first metadata
             contentType = Util.Normal r →
           send {| Server.Bucket := Leaf (LString b2);
                   Server.Key := randomUUID;
                   Server.Metadata := default [] (convertMetadata metadata);
                   Server.ContentType :=
                     match contentType with LNull => None | _ => Some contentType end |}
           = Util.Normal (resp_uploadId r)
           ∧ resp_s3Filename r = Some randomUUID)
      ∧ ∃ h3 third,
          Server.constructor (LObject []) h1 = Some (Util.Normal (h3, third))
          ∧ get h3 (Server.this_awsConfig third) "bucket" = Leaf (LString b1).
Proof.
  intros H1 H2. split; [by vm_compute|].
  destruct b1 as [|c1 b1]; [done|]. destruct b2 as [|c2 b2]; [done|].
  pose proof (server_constructor_shared c1 b1 c2 b2) as H.
  destruct (Server.constructor _ Server.module_heap) as [[[h1 first]|]|]; try done.
  destruct H as (Ha & Hb & Hc & H & H3).
  match type of H with match ?x with _ => _ end =>
    destruct x as [[[h2 second]|]|] eqn:Hsecond; try done end.
  match type of H3 with match ?x with _ => _ end =>
    destruct x as [[[h3 third]|]|] eqn:Hthird; try done end.
  exists h1, first, h2, second.
  destruct H as (H4 & H5 & H6 & H7).
  repeat (split; [done|]). split; [|by exists h3, third].
  intros metadata contentType r.
  unfold Server.createMultipartUpload, Server.createS3MultipartUpload, Util.try_catch.
  rewrite H7, H6. simpl truthy_value. cbv iota zeta.
  destruct (send _) as [uploadId|e] eqn:Hsend; [|done].
  destruct (negb _ || negb _); [done|]. by intros [= <-].
Qed.

Lemma backends_share_awsConfig_witness :
  Server.constructor (LObject []) Server.module_heap
  = Some (Util.Throw (Server.new_Error
            "bucket required in the awsConfig constructor options. Not found"))
  ∧ ∃ h1 first h2 second,
      Server.constructor (LObject [("awsConfig", LObject [("bucket", LString "one")])])
        Server.module_heap = Some (Util.Normal (h1, first))
      ∧ get h1 (Server.this_awsConfig first) "bucket" = Leaf (LString "one")
      ∧ get h1 (Server.this_awsConfig first) "signedUrlExpiration" = Leaf (LNumber 180)
      ∧ Server.constructor (LObject [("awsConfig", LObject [("bucket", LString "two")])]) h1
        = Some (Util.Normal (h2, second))
      ∧ Server.this_options first ≠ Server.this_options second
      ∧ Server.this_awsConfig second = Server.this_awsConfig first
      ∧ (∀ metadata contentType r,
           Server.createMultipartUpload "uuid" (λ _, Util.Normal "name")
             (λ _, Util.Normal (Some "id")) (λ _, "{}") h2 first metadata
             contentType = Util.Normal r →
           (λ _, Util.Normal (Some "id"))
             {| Server.Bucket := Leaf (LString "two");
                Server.Key := "uuid";
                Server.Metadata := default [] (convertMetadata metadata);
                Server.ContentType :=
                  match contentType with LNull => None | _ => Some contentType end |}
           = Util.Normal (resp_uploadId r)
           ∧ resp_s3Filename r = Some "uuid")
      ∧ ∃ h3 third,
          Server.constructor (LObject []) h1 = Some (Util.Normal (h3, third))
          ∧ get h3 (Server.this_awsConfig third) "bucket" = Leaf (LString "one").
Proof.
  refine (backends_share_awsConfig "uuid" (λ _, Util.Normal "name")
            (λ _, Util.Normal (Some "id")) (λ _, "{}") "one" "two" _ _); done.
Defined.
